(** * The source gateway of gps (source.go): a shallow embedding

    The gateway serialises every call for data about one source, drives a
    bitset state machine ([require]) and consults a per-source cache.  The
    Go code is imperative: it mutates the gateway, the cache and the world
    behind the adapter (disk, network).  Here every such effect is explicit
    state passing in a small monad whose outcomes are a normal return, a
    runtime panic (method call on a nil adapter) or a loop that never ends. *)

From stdpp Require Import base numbers strings list gmap.
From Stdlib Require Import ZArith Lia.

Local Open Scope Z_scope.

(** ** Plain data *)

(** Go [string]-like identifiers.  A version is a named handle, a revision
    the backend's immutable identifier. *)
Definition Version : Type := string.
Definition Revision : Type := string.
Definition ProjectRoot : Type := string.

(** A version together with the revision it points to. *)
Definition PairedVersion : Type := (Version * Revision)%type.

(** [Manifest] and [Lock] are Go interface values; [None] is [nil]. *)
Definition Manifest : Type := option string.
Definition Lock : Type := option string.

(** [pkgtree.PackageTree]; the zero value is [PackageTree{}]. *)
Record PackageTree := { ImportRoot : string; Packages : list string }.
Definition noPackageTree : PackageTree := {| ImportRoot := ""; Packages := [] |}.

(** What [ProjectAnalyzer.Info] reports; it is the analyzer's identity. *)
Record ProjectAnalyzer := { an_name : string; an_version : Z }.
Definition Info (an : ProjectAnalyzer) : string * Z := (an_name an, an_version an).

(** [sourceExistence] (uint8), lines 17-50. *)
Definition sourceExistence : Type := Z.
Definition existsInVendorRoot : sourceExistence := Z.shiftl 1 0.
Definition existsInCache : sourceExistence := Z.shiftl 1 1.
Definition existsUpstream : sourceExistence := Z.shiftl 1 2.

(** [sourceState] (int32), lines 52-60. *)
Definition sourceState : Type := Z.
Definition sourceIsSetUp : sourceState := Z.shiftl 1 0.
Definition sourceExistsUpstream : sourceState := Z.shiftl 1 1.
Definition sourceExistsLocally : sourceState := Z.shiftl 1 2.
Definition sourceHasLatestVersionList : sourceState := Z.shiftl 1 3.
Definition sourceHasLatestLocally : sourceState := Z.shiftl 1 4.

(** Two's complement wrap-around of a 32-bit signed integer. *)
Definition wrap32 (z : Z) : Z := (z + 2 ^ 31) mod 2 ^ 32 - 2 ^ 31.

(** [flag <<= 1] on an int32. *)
Definition shl1 (flag : sourceState) : sourceState := wrap32 (Z.shiftl flag 1).

(** The value of [flag] after [i] passes through the loop of [require]. *)
Definition flagAt (i : nat) : sourceState := Nat.iter i shl1 1.

(** [st & flag != 0]. *)
Definition hasState (st flag : sourceState) : bool := negb (Z.land st flag =? 0).

(** Every bit of [a] is a bit of [b]. *)
Definition stateIncl (a b : sourceState) : Prop :=
  ∀ i, 0 <= i → Z.testbit a i = true → Z.testbit b i = true.

(** Errors.  The three formatted errors of this file keep their arguments;
    any error made elsewhere (adapter, probe, supervisor) is [errExternal]. *)
Inductive error :=
| errExternal (msg : string)
| errNotUpstream (url : string)
| errFetchFailed (url : string) (cause : error)
| errNoSuchVersion (v : Version).

(** Modelled from the spec: the supervisor's call categories (section 5);
    the constants [ctSourcePing] ... are used but not declared in source.go. *)
Inductive callType :=
| ctSourcePing | ctSourceInit | ctSourceFetch | ctExportTree
| ctListVersions | ctGetManifestAndLock | ctListPackages.

(** ** The single-source cache *)

Module Cache.

(** Modelled from the spec: the in-memory cache returned by
    [newMemoryCache] is not in source.go.  Section 4.1 of the spec gives
    its contract: forward map, reverse map in which a known revision may
    have no versions, version list with its complete flag, and the two
    memo tables keyed by (revision, analyzer identity) and by revision. *)
Record singleSourceCache := {
  vList : list PairedVersion;
  complete : bool;
  vMap : gmap string Revision;
  rMap : gmap string (list Version);
  infos : gmap (string * (string * Z)) (Manifest * Lock);
  ptrees : gmap string PackageTree
}.

(** Modelled from the spec: [newMemoryCache], the empty cache. *)
Definition newMemoryCache : singleSourceCache :=
  {| vList := []; complete := false; vMap := ∅; rMap := ∅;
     infos := ∅; ptrees := ∅ |}.

(** Modelled from the spec: [to_revision], the forward lookup. *)
Definition toRevision (c : singleSourceCache) (v : Version) : option Revision :=
  vMap c !! v.

(** Modelled from the spec: [versions_for], the reverse lookup; [None] is
    an unknown revision, [Some []] a known one without versions. *)
Definition getVersionsFor (c : singleSourceCache) (r : Revision)
  : option (list Version) := rMap c !! r.

(** Modelled from the spec: [all_versions]. *)
Definition getAllVersions (c : singleSourceCache) : list PairedVersion := vList c.

(** Modelled from the spec: [mark_revision_exists], an idempotent note that
    the revision was seen in the backend. *)
Definition markRevisionExists (r : Revision) (c : singleSourceCache)
  : singleSourceCache :=
  match rMap c !! r with
  | Some _ => c
  | None =>
      {| vList := vList c; complete := complete c; vMap := vMap c;
         rMap := <[r := []]> (rMap c); infos := infos c; ptrees := ptrees c |}
  end.

(** Modelled from the spec: one paired version entered in both indices. *)
Definition addPair (acc : gmap string Revision * gmap string (list Version))
    (pv : PairedVersion) : gmap string Revision * gmap string (list Version) :=
  (<[pv.1 := pv.2]> acc.1,
   <[pv.2 := default [] (acc.2 !! pv.2) ++ [pv.1]]> acc.2).

(** Modelled from the spec: [store_version_map]; with [flush] both indices
    are replaced wholesale, without it the new pairs are merged in. *)
Definition storeVersionMap (pvl : list PairedVersion) (flush : bool)
    (c : singleSourceCache) : singleSourceCache :=
  let start := if flush then (∅, ∅) else (vMap c, rMap c) in
  let idx := foldl addPair start pvl in
  {| vList := if flush then pvl else vList c ++ pvl;
     complete := if flush then true else complete c;
     vMap := idx.1; rMap := idx.2; infos := infos c; ptrees := ptrees c |}.

(** Modelled from the spec: the memo of manifest and lock, keyed by the
    revision and the analyzer's (name, version). *)
Definition getManifestAndLock (c : singleSourceCache) (r : Revision)
    (an : ProjectAnalyzer) : option (Manifest * Lock) := infos c !! (r, Info an).

(** Modelled from the spec: the store of that memo. *)
Definition setManifestAndLock (r : Revision) (an : ProjectAnalyzer)
    (m : Manifest) (l : Lock) (c : singleSourceCache) : singleSourceCache :=
  {| vList := vList c; complete := complete c; vMap := vMap c; rMap := rMap c;
     infos := <[(r, Info an) := (m, l)]> (infos c); ptrees := ptrees c |}.

(** Modelled from the spec: the memo of package trees, keyed by revision. *)
Definition getPackageTree (c : singleSourceCache) (r : Revision)
  : option PackageTree := ptrees c !! r.

(** Modelled from the spec: the store of that memo. *)
Definition setPackageTree (r : Revision) (pt : PackageTree)
    (c : singleSourceCache) : singleSourceCache :=
  {| vList := vList c; complete := complete c; vMap := vMap c; rMap := rMap c;
     infos := infos c; ptrees := <[r := pt]> (ptrees c) |}.

End Cache.

Abbreviation singleSourceCache := Cache.singleSourceCache.

(** ** The interfaces the gateway talks to

    [W] is the world behind the adapter: the clone on disk, the network and
    whatever else decides what a backend call answers.  A method that does
    I/O takes the world and returns the new one. *)

Module Source.

(** The [source] interface, lines 524-536.  A value of this record is a
    Go interface value: the method table of one adapter. *)
Record source (W : Type) := {
  existsLocally : W → bool * W;
  existsUpstream : W → bool * W;
  upstreamURL : string;
  initLocal : W → option error * W;
  updateLocal : W → option error * W;
  listVersions : W → list PairedVersion * option error * W;
  getManifestAndLock :
    ProjectRoot → Revision → ProjectAnalyzer → W → (Manifest * Lock) * option error * W;
  listPackages : ProjectRoot → Revision → W → PackageTree * option error * W;
  revisionPresentIn : Revision → W → bool * option error * W;
  exportRevisionTo : Revision → string → W → option error * W;
  sourceType : string
}.

Arguments existsLocally {W}.
Arguments existsUpstream {W}.
Arguments upstreamURL {W}.
Arguments initLocal {W}.
Arguments updateLocal {W}.
Arguments listVersions {W}.
Arguments getManifestAndLock {W}.
Arguments listPackages {W}.
Arguments revisionPresentIn {W}.
Arguments exportRevisionTo {W}.
Arguments sourceType {W}.

End Source.

Abbreviation source := Source.source.

(** Modelled from the spec: the supervisor ([*supervisor], section 6).  Its
    [do] accounts for the call and then either refuses it (lifetime or
    context cancelled) or runs it; [refuse] is that decision. *)
Record supervisor (W : Type) := { refuse : callType → W → option error }.
Arguments refuse {W}.

(** What [maybeSource.try] hands back: the three Go results and what the
    probe did meanwhile to the cache and through the supervisor it was
    given.  Nothing is assumed of the probe: it may return an adapter
    together with an error, report any bits, rewrite the cache and dispatch
    any calls. *)
Record tryResult (W : Type) := {
  try_src : option (source W);
  try_state : sourceState;
  try_err : option error;
  try_cache : singleSourceCache;
  try_calls : list callType;
  try_world : W
}.
Arguments try_src {W}.
Arguments try_state {W}.
Arguments try_err {W}.
Arguments try_cache {W}.
Arguments try_calls {W}.
Arguments try_world {W}.

(** The [maybeSource] interface (the candidate probe).  Only its use at
    line 470 is in source.go, so a probe is a parameter: any function of
    what [try] is handed. *)
Record maybeSource (W : Type) := {
  try : string → singleSourceCache → supervisor W → W → tryResult W
}.
Arguments try {W}.

(** ** The gateway *)

(** [sourceGateway], lines 222-230.  [mu] has no content in a sequential
    model.  [calls] and [world] are not Go fields: they are what lies
    behind the pointers the gateway holds, namely the supervisor's record of
    the calls dispatched so far and the world behind the adapter. *)
Record sourceGateway (W : Type) := {
  cachedir : string;
  maybe : maybeSource W;
  srcState : sourceState;
  src : option (source W);
  cache : singleSourceCache;
  suprvsr : supervisor W;
  calls : list callType;
  world : W
}.
Arguments cachedir {W}.
Arguments maybe {W}.
Arguments srcState {W}.
Arguments src {W}.
Arguments cache {W}.
Arguments suprvsr {W}.
Arguments calls {W}.
Arguments world {W}.

(** How one call on a gateway can end. *)
Inductive outcome (W A : Type) :=
| Ret (a : A) (g : sourceGateway W)
| Panic (g : sourceGateway W)
| Spin.
Arguments Ret {W A}.
Arguments Panic {W A}.
Arguments Spin {W A}.

Section Gateway.
Context {W : Type}.

Abbreviation gateway := (sourceGateway W).

Definition setSrcState (st : sourceState) (g : gateway) : gateway :=
  {| cachedir := cachedir g; maybe := maybe g; srcState := st; src := src g;
     cache := cache g; suprvsr := suprvsr g; calls := calls g; world := world g |}.

Definition setCache (c : singleSourceCache) (g : gateway) : gateway :=
  {| cachedir := cachedir g; maybe := maybe g; srcState := srcState g; src := src g;
     cache := c; suprvsr := suprvsr g; calls := calls g; world := world g |}.

Definition setCalls (l : list callType) (g : gateway) : gateway :=
  {| cachedir := cachedir g; maybe := maybe g; srcState := srcState g; src := src g;
     cache := cache g; suprvsr := suprvsr g; calls := l; world := world g |}.

Definition setWorld (w : W) (g : gateway) : gateway :=
  {| cachedir := cachedir g; maybe := maybe g; srcState := srcState g; src := src g;
     cache := cache g; suprvsr := suprvsr g; calls := calls g; world := w |}.

(** The assignment of line 470 together with the probe's own effects. *)
Definition applyTry (t : tryResult W) (g : gateway) : gateway :=
  {| cachedir := cachedir g; maybe := maybe g; srcState := srcState g;
     src := try_src t; cache := try_cache t; suprvsr := suprvsr g;
     calls := calls g ++ try_calls t; world := try_world t |}.

(** [newSourceGateway], lines 232-241, in a given world. *)
Definition newSourceGateway (mb : maybeSource W) (superv : supervisor W)
    (dir : string) (log : list callType) (w : W) : gateway :=
  {| cachedir := dir; maybe := mb; srcState := 0; src := None;
     cache := Cache.newMemoryCache; suprvsr := superv; calls := log; world := w |}.

(** The monad of gateway methods. *)
Definition M (A : Type) : Type := gateway → outcome W A.

#[global] Instance M_ret : MRet M := λ A a g, Ret a g.
#[global] Instance M_bind : MBind M := λ A B f m g,
  match m g with
  | Ret a g' => f a g'
  | Panic g' => Panic g'
  | Spin => Spin
  end.

Definition modify (f : gateway → gateway) : M unit := λ g, Ret tt (f g).

(** Reading a field of the gateway. *)
Definition gets {A} (f : gateway → A) : M A := λ g, Ret (f g) g.

(** A method call on [sg.src]: a nil interface panics. *)
Definition theSrc : M (source W) :=
  λ g, match src g with Some a => Ret a g | None => Panic g end.

(** A backend call made directly, outside the supervisor. *)
Definition direct {A} (f : W → A * W) : M A :=
  λ g, let (a, w) := f (world g) in Ret a (setWorld w g).

(** Modelled from the spec: [supervisor.do] (section 6).  The call is
    recorded; a refused call returns the supervisor's error and the
    closure does not run, so what the closure would have assigned keeps
    its [zero] value. *)
Definition do {A} (typ : callType) (zero : A)
    (f : W → A * option error * W) : M (A * option error) :=
  λ g, let g1 := setCalls (calls g ++ [typ]) g in
       match refuse (suprvsr g1) typ (world g1) with
       | Some e => Ret (zero, Some e) g1
       | None => let '(a, e, w) := f (world g1) in Ret (a, e) (setWorld w g1)
       end.

(** A closure that returns only an error. *)
Definition errOnly (f : W → option error * W) : W → unit * option error * W :=
  λ w, let (e, w') := f w in (tt, e, w').

(** The [switch] of [require], lines 468-504: the work for one bit.
    Returns [addlState] and [err]. *)
Definition requireStep (flag : sourceState) : M (sourceState * option error) :=
  if flag =? sourceIsSetUp then
    λ g, let t := try (maybe g) (cachedir g) (cache g) (suprvsr g) (world g) in
         Ret (try_state t, try_err t) (applyTry t g)
  else if flag =? sourceExistsUpstream then
    a ← theSrc;
    '(_, err) ← do ctSourcePing tt (λ w,
       let (up, w') := Source.existsUpstream a w in
       (tt, if up then None else Some (errNotUpstream (Source.upstreamURL a)), w'));
    mret (0, err)
  else if flag =? sourceExistsLocally then
    a ← theSrc;
    loc ← direct (Source.existsLocally a);
    if loc : bool then mret (0, None)
    else
      '(_, err) ← do ctSourceInit tt (errOnly (Source.initLocal a));
      match err with
      | None => mret (Z.lor 0 sourceHasLatestLocally, None)
      | Some e => mret (0, Some (errFetchFailed (Source.upstreamURL a) e))
      end
  else if flag =? sourceHasLatestVersionList then
    a ← theSrc;
    '(pvl, err) ← do ctListVersions [] (Source.listVersions a);
    match err with
    | Some e =>
        _ ← modify (λ g, setCache (Cache.storeVersionMap pvl true (cache g)) g);
        mret (0, Some e)
    | None => mret (0, None)
    end
  else if flag =? sourceHasLatestLocally then
    a ← theSrc;
    '(_, err) ← do ctSourceFetch tt (errOnly (Source.updateLocal a));
    mret (0, err)
  else mret (0, None).

(** The loop of [require], lines 458-516.  [fuel] counts the passes left
    before [flag] has been shifted out of its 32 bits; from then on
    [flag] is 0 and a non-zero [todo] keeps the Go loop going for ever. *)
Fixpoint requireLoop (fuel : nat) (flag todo : sourceState)
  : M (sourceState * option error) :=
  if todo =? 0 then mret (0, None)
  else
    match fuel with
    | O => λ _, Spin
    | S fuel' =>
        if Z.land todo flag =? 0 then requireLoop fuel' (shl1 flag) todo
        else
          '(addlState, err) ← requireStep flag;
          match err with
          | Some e => mret (flag, Some e)
          | None =>
              let checked := Z.lor flag addlState in
              _ ← modify (λ g, setSrcState (Z.lor (srcState g) checked) g);
              requireLoop fuel' (shl1 flag) (Z.land todo (Z.lnot checked))
          end
    end.

(** [sourceGateway.require], lines 454-519. *)
Definition require (wanted : sourceState) : M (sourceState * option error) :=
  λ g, requireLoop 32 1 (Z.land (Z.lnot (srcState g)) wanted) g.

(** [syncLocal], lines 243-249. *)
Definition syncLocal : M (option error) :=
  '(_, err) ← require
     (Z.lor (Z.lor sourceIsSetUp sourceExistsLocally) sourceHasLatestLocally);
  mret err.

(** [checkExistence], lines 251-271. *)
Definition checkExistence (ex : sourceExistence) : M bool :=
  up ← (if negb (Z.land ex existsUpstream =? 0)
        then '(_, err) ← require (Z.lor sourceIsSetUp sourceExistsUpstream); mret err
        else mret None);
  match up with
  | Some _ => mret false
  | None =>
      loc ← (if negb (Z.land ex existsInCache =? 0)
             then '(_, err) ← require (Z.lor sourceIsSetUp sourceExistsLocally); mret err
             else mret None);
      match loc with
      | Some _ => mret false
      | None => mret true
      end
  end.

(** [convertToRevision], lines 359-397. *)
Definition convertToRevision (v : Version) : M (Revision * option error) :=
  hit ← gets (λ g, Cache.toRevision (cache g) v);
  match hit with
  | Some r => mret (r, None)
  | None =>
      st ← gets srcState;
      if hasState st sourceHasLatestVersionList
      then mret (""%string, Some (errNoSuchVersion v))
      else
        '(_, err) ← require (Z.lor sourceIsSetUp sourceHasLatestVersionList);
        match err with
        | Some e => mret (""%string, Some e)
        | None =>
            hit ← gets (λ g, Cache.toRevision (cache g) v);
            match hit with
            | Some r => mret (r, None)
            | None => mret (""%string, Some (errNoSuchVersion v))
            end
        end
  end.

(** [exportVersionTo], lines 273-290. *)
Definition exportVersionTo (v : Version) (to : string) : M (option error) :=
  '(_, err) ← require (Z.lor sourceIsSetUp sourceExistsLocally);
  match err with
  | Some e => mret (Some e)
  | None =>
      '(r, err) ← convertToRevision v;
      match err with
      | Some e => mret (Some e)
      | None =>
          a ← theSrc;
          '(_, err) ← do ctExportTree tt (errOnly (Source.exportRevisionTo a r to));
          mret err
      end
  end.

(** [getManifestAndLock], lines 292-323. *)
Definition getManifestAndLock (pr : ProjectRoot) (v : Version) (an : ProjectAnalyzer)
  : M (Manifest * Lock * option error) :=
  '(r, err) ← convertToRevision v;
  match err with
  | Some e => mret (None, None, Some e)
  | None =>
      hit ← gets (λ g, Cache.getManifestAndLock (cache g) r an);
      match hit with
      | Some (m, l) => mret (m, l, None)
      | None =>
          '(_, err) ← require (Z.lor sourceIsSetUp sourceExistsLocally);
          match err with
          | Some e => mret (None, None, Some e)
          | None =>
              a ← theSrc;
              '(ml, err) ← do ctGetManifestAndLock (None, None)
                              (Source.getManifestAndLock a pr r an);
              match err with
              | Some e => mret (None, None, Some e)
              | None =>
                  _ ← modify (λ g, setCache
                         (Cache.setManifestAndLock r an ml.1 ml.2 (cache g)) g);
                  mret (ml.1, ml.2, None)
              end
          end
      end
  end.

(** [listPackages], lines 327-357. *)
Definition listPackages (pr : ProjectRoot) (v : Version)
  : M (PackageTree * option error) :=
  '(r, err) ← convertToRevision v;
  match err with
  | Some e => mret (noPackageTree, Some e)
  | None =>
      hit ← gets (λ g, Cache.getPackageTree (cache g) r);
      match hit with
      | Some ptree => mret (ptree, None)
      | None =>
          '(_, err) ← require (Z.lor sourceIsSetUp sourceExistsLocally);
          match err with
          | Some e => mret (noPackageTree, Some e)
          | None =>
              a ← theSrc;
              '(ptree, err) ← do ctListPackages noPackageTree
                                 (Source.listPackages a pr r);
              match err with
              | Some e => mret (noPackageTree, Some e)
              | None =>
                  _ ← modify (λ g, setCache
                         (Cache.setPackageTree r ptree (cache g)) g);
                  mret (ptree, None)
              end
          end
      end
  end.

(** [listVersions], lines 399-412. *)
Definition listVersions : M (list PairedVersion * option error) :=
  '(_, err) ← require
     (Z.lor (Z.lor sourceIsSetUp sourceExistsUpstream) sourceHasLatestVersionList);
  match err with
  | Some e => mret ([], Some e)
  | None => all ← gets (λ g, Cache.getAllVersions (cache g)); mret (all, None)
  end.

(** [revisionPresentIn], lines 414-432. *)
Definition revisionPresentIn (r : Revision) : M (bool * option error) :=
  '(_, err) ← require (Z.lor sourceIsSetUp sourceExistsLocally);
  match err with
  | Some e => mret (false, Some e)
  | None =>
      known ← gets (λ g, Cache.getVersionsFor (cache g) r);
      match known with
      | Some _ => mret (true, None)
      | None =>
          a ← theSrc;
          '(present, err) ← direct (Source.revisionPresentIn a r);
          _ ← (if bool_decide (err = None) && present
               then modify (λ g, setCache (Cache.markRevisionExists r (cache g)) g)
               else mret tt);
          mret (present, err)
      end
  end.

(** [sourceURL], lines 434-444. *)
Definition sourceURL : M (string * option error) :=
  '(_, err) ← require sourceIsSetUp;
  match err with
  | Some e => mret (""%string, Some e)
  | None => a ← theSrc; mret (Source.upstreamURL a, None)
  end.

End Gateway.

(** ** The operations on a gateway, as data

    The methods that take the gateway's lock, and the two they are built
    from. *)

Inductive operation :=
| opRequire (wanted : sourceState)
| opSourceURL
| opSyncLocal
| opCheckExistence (ex : sourceExistence)
| opListVersions
| opRevisionPresentIn (r : Revision)
| opConvertToRevision (v : Version)
| opListPackages (pr : ProjectRoot) (v : Version)
| opGetManifestAndLock (pr : ProjectRoot) (v : Version) (an : ProjectAnalyzer)
| opExportVersionTo (v : Version) (to : string).

Section Runs.
Context {W : Type}.

(** One operation, its result dropped. *)
Definition run (o : operation) : M (W := W) unit :=
  match o with
  | opRequire wanted => _ ← require wanted; mret tt
  | opSourceURL => _ ← sourceURL; mret tt
  | opSyncLocal => _ ← syncLocal; mret tt
  | opCheckExistence ex => _ ← checkExistence ex; mret tt
  | opListVersions => _ ← listVersions; mret tt
  | opRevisionPresentIn r => _ ← revisionPresentIn r; mret tt
  | opConvertToRevision v => _ ← convertToRevision v; mret tt
  | opListPackages pr v => _ ← listPackages pr v; mret tt
  | opGetManifestAndLock pr v an => _ ← getManifestAndLock pr v an; mret tt
  | opExportVersionTo v to => _ ← exportVersionTo v to; mret tt
  end.

(** A sequence of operations on one gateway; a panic ends it. *)
Fixpoint runAll (os : list operation) : M (W := W) unit :=
  match os with
  | [] => mret tt
  | o :: os' => _ ← run o; runAll os'
  end.

End Runs.

(** ** The base VCS adapter, lines 538-585 *)

Module BaseVCS.
Section Base.
Context {W : Type}.

(** The methods of the repository object [crepo.r] that the adapter
    calls here; the type itself is declared outside source.go. *)
Record ctxRepo := {
  Vcs : string;
  CheckLocal : W → bool * W;
  Ping : W → bool * W;
  Remote : string;
  IsReference : string → W → bool * W
}.

Record repo := { r : ctxRepo }.

Record baseVCSSource := { crepo : repo }.

Definition sourceType (bs : baseVCSSource) : string := Vcs (r (crepo bs)).

Definition existsLocally (bs : baseVCSSource) (w : W) : bool * W :=
  CheckLocal (r (crepo bs)) w.

Definition existsUpstream (bs : baseVCSSource) (w : W) : bool * W :=
  let (pong, w') := Ping (r (crepo bs)) w in (negb pong, w').

Definition upstreamURL (bs : baseVCSSource) : string := Remote (r (crepo bs)).

Definition revisionPresentIn (bs : baseVCSSource) (rev : Revision) (w : W)
  : bool * option error * W :=
  let (known, w') := IsReference (r (crepo bs)) rev w in (known, None, w').

End Base.
Arguments ctxRepo : clear implicits.
Arguments repo : clear implicits.
Arguments baseVCSSource : clear implicits.
End BaseVCS.

(** ** A small world to run the gateway in *)

Module Demo.

(** Is the clone on disk; does the network answer; does the upstream
    answer a version listing. *)
Record world := { cloned : bool; online : bool; listing : bool }.

Definition upstream : list PairedVersion := [("v1.2.3", "abc123")]%string.

Definition unreachable : error := errExternal "network unreachable".

Definition adapter : source world := {|
  Source.existsLocally w := (cloned w, w);
  Source.existsUpstream w := (online w, w);
  Source.upstreamURL := "https://example.org/x/y";
  Source.initLocal w :=
    if online w
    then (None, {| cloned := true; online := true; listing := listing w |})
    else (Some unreachable, w);
  Source.updateLocal w :=
    if online w then (None, w) else (Some unreachable, w);
  Source.listVersions w :=
    if online w && listing w then (upstream, None, w)
    else ([], Some unreachable, w);
  Source.getManifestAndLock pr rev an w :=
    if cloned w then ((Some "manifest", Some "lock"), None, w)%string
    else ((None, None), Some (errExternal "no working tree"), w);
  Source.listPackages pr rev w :=
    if cloned w then ({| ImportRoot := pr; Packages := [pr] |}, None, w)
    else (noPackageTree, Some (errExternal "no working tree"), w);
  Source.revisionPresentIn rev w := (bool_decide (rev = "abc123"%string), None, w);
  Source.exportRevisionTo rev to w := (None, w);
  Source.sourceType := "git"
|}.

(** A probe that only binds the adapter. *)
Definition plainProbe : maybeSource world := {|
  try dir c sup w :=
    {| try_src := Some adapter; try_state := 0; try_err := None;
       try_cache := c; try_calls := []; try_world := w |}
|}.

(** A probe that, like git's, lists the versions while probing: on
    success it stores them and reports the bits it satisfied on the way. *)
Definition listingProbe : maybeSource world := {|
  try dir c sup w :=
    if online w && listing w then
      {| try_src := Some adapter;
         try_state :=
           Z.lor (Z.lor (Z.lor sourceIsSetUp sourceExistsUpstream)
                    sourceHasLatestVersionList)
                 (if cloned w then sourceExistsLocally else 0);
         try_err := None;
         try_cache := Cache.storeVersionMap upstream true c;
         try_calls := [ctListVersions]; try_world := w |}
    else
      {| try_src := None; try_state := 0; try_err := Some unreachable;
         try_cache := c; try_calls := [ctListVersions]; try_world := w |}
|}.

(** A supervisor that never refuses. *)
Definition superv : supervisor world := {| refuse _ _ := None |}.

(** A supervisor whose context is cancelled by the time the manifest or the
    packages are asked for. *)
Definition cancelled : error := errExternal "context canceled".

Definition strict : supervisor world := {|
  refuse typ _ :=
    match typ with
    | ctGetManifestAndLock | ctListPackages => Some cancelled
    | _ => None
    end
|}.

Definition fresh (mb : maybeSource world) (sup : supervisor world) (w : world)
  : sourceGateway world :=
  newSourceGateway mb sup "/cache" [] w.

Definition analyzer : ProjectAnalyzer := {| an_name := "a"; an_version := 1 |}.

(** No clone yet, upstream reachable and listing. *)
Definition remote : world := {| cloned := false; online := true; listing := true |}.

(** No clone yet, upstream reachable but not listing its versions. *)
Definition unlisted : world := {| cloned := false; online := true; listing := false |}.

(** The gateway a call leaves behind. *)
Definition after {A} (o : outcome world A) : sourceGateway world :=
  match o with
  | Ret _ g => g
  | Panic g => g
  | Spin => fresh plainProbe superv remote
  end.

(** A fresh gateway, and the same one once it is set up by the probe that
    lists the versions. *)
Definition newcomer : sourceGateway world := fresh listingProbe superv remote.
Definition ready : sourceGateway world := after (require sourceIsSetUp newcomer).

(** A fresh gateway with the plain probe, once set up and cloned. *)
Definition plain : sourceGateway world := fresh plainProbe superv remote.
Definition local : sourceGateway world :=
  after (require (Z.lor sourceIsSetUp sourceExistsLocally) plain).

(** A fresh gateway whose upstream does not list its versions. *)
Definition stalled : sourceGateway world := fresh plainProbe superv unlisted.

(** A fresh gateway under the supervisor that cancels late. *)
Definition wary : sourceGateway world := fresh listingProbe strict remote.

(** The three states that ask for the version list after the clone. *)
Definition wantsList : sourceState :=
  Z.lor (Z.lor sourceIsSetUp sourceExistsLocally) sourceHasLatestVersionList.

End Demo.

(** ** Vocabulary of the statements *)

(** At pass [i] of the loop of [require] no bit below [i] is left in
    [todo]; once the flag has been shifted out, no bit at all. *)
Definition covered (i : nat) (todo : sourceState) : Prop :=
  ∀ j, 0 <= j → j < Z.of_nat i ∨ (32 <= i)%nat → Z.testbit todo j = false.

Section Vocabulary.
Context {W : Type}.

(** The call ends, returning or panicking, in a state that satisfies [P]. *)
Definition ends {A} (P : sourceGateway W → Prop) (o : outcome W A) : Prop :=
  match o with
  | Ret _ g' => P g'
  | Panic g' => P g'
  | Spin => False
  end.

(** A method that ends and never clears a bit of the state. *)
Definition growing {A} (m : M (W := W) A) : Prop :=
  ∀ g s0, stateIncl s0 (srcState g) →
          ends (λ g', stateIncl s0 (srcState g')) (m g).

(** What one step of [require] can do to the gateway, by flag. *)
Definition stepFrame (flag : sourceState) (g : sourceGateway W)
    (o : outcome W (sourceState * option error)) : Prop :=
  match o with
  | Ret (addl, err) g' =>
      srcState g' = srcState g ∧ cachedir g' = cachedir g ∧
      maybe g' = maybe g ∧ suprvsr g' = suprvsr g ∧
      (flag ≠ sourceIsSetUp →
         src g' = src g ∧
         (∃ l, calls g' = calls g ++ l ∧ ctExportTree ∉ l) ∧
         (addl = 0 ∨
          flag = sourceExistsLocally ∧ addl = sourceHasLatestLocally ∧ err = None) ∧
         (flag ≠ sourceHasLatestVersionList → cache g' = cache g))
  | Panic g' => g' = g
  | Spin => False
  end.

End Vocabulary.

(** ** What a [require] does on the way *)

(** The wanted bits below bit [k]. *)
Definition below (k : Z) (wanted : sourceState) : sourceState :=
  Z.land wanted (Z.ones k).

Section Incidental.
Context {W : Type}.

(** What the probe answers when the step of [sourceIsSetUp] runs it in
    [g], line 470. *)
Definition probe (g : sourceGateway W) : tryResult W :=
  try (maybe g) (cachedir g) (cache g) (suprvsr g) (world g).

(** The calls the probe dispatches when [require] is asked for
    [sourceIsSetUp] in [g]: none if the gateway is set up. *)
Definition probeCalls (g : sourceGateway W) : list callType :=
  if Z.testbit (srcState g) 0 then [] else try_calls (probe g).

(** In [g] the step of [sourceExistsLocally] finds no clone, and the
    [initLocal] it dispatches goes through and succeeds, lines 479-485. *)
Definition clones (g : sourceGateway W) : Prop :=
  ∃ a w1 w2, src g = Some a ∧
             Source.existsLocally a (world g) = (false, w1) ∧
             refuse (suprvsr g) ctSourceInit w1 = None ∧
             Source.initLocal a w1 = (None, w2).

(** The wanted bits below bit [i] are set in [g]: the passes of the loop
    of [require] before flag [i] have nothing to do. *)
Definition doneBelow (i : nat) (wanted : sourceState) (g : sourceGateway W) : Prop :=
  ∀ j, 0 <= j < Z.of_nat i → Z.testbit wanted j = true →
       Z.testbit (srcState g) j = true.

End Incidental.

(** ** Gateways whose methods cannot panic *)

Section Safety.
Context {W : Type}.

(** A gateway whose set-up bit is backed by an adapter. *)
Definition wellFormed (g : sourceGateway W) : Prop :=
  Z.testbit (srcState g) 0 = true → is_Some (src g).

(** A probe that hands back an adapter whenever it reports no error. *)
Definition soundProbe (mb : maybeSource W) : Prop :=
  ∀ dir c sup w, try_err (try mb dir c sup w) = None →
                 is_Some (try_src (try mb dir c sup w)).

Definition safe (g : sourceGateway W) : Prop := wellFormed g ∧ soundProbe (maybe g).

Definition safeUp (g : sourceGateway W) : Prop :=
  safe g ∧ Z.testbit (srcState g) 0 = true.

(** From a state in [P] the method returns, with a result and state in [Q]. *)
Definition returns {A} (P : sourceGateway W → Prop) (m : M (W := W) A)
    (Q : A → sourceGateway W → Prop) : Prop :=
  ∀ g, P g → match m g with Ret a g' => Q a g' | _ => False end.

(** A method that returns and leaves the state bits, the adapter and the
    probe alone. *)
Definition framed {A} (m : M (W := W) A) : Prop :=
  ∀ g, ∃ a g', m g = Ret a g' ∧ srcState g' = srcState g ∧ src g' = src g ∧
               maybe g' = maybe g.

End Safety.

(** The operations that ask for [sourceIsSetUp] before anything else: all
    the methods, and [require] when it is asked for that bit. *)
Definition asksSetUp (o : operation) : Prop :=
  match o with
  | opRequire wanted => Z.testbit wanted 0 = true
  | _ => True
  end.

(** ** More of the small world *)

Module Bench.

(** A gateway that is set up, holding [a], in the world [w]. *)
Definition setUpWith (a : source Demo.world) (w : Demo.world)
  : sourceGateway Demo.world :=
  {| cachedir := "/cache"; maybe := Demo.plainProbe; srcState := sourceIsSetUp;
     src := Some a; cache := Cache.newMemoryCache; suprvsr := Demo.superv;
     calls := []; world := w |}.

(** No clone and no network. *)
Definition cutOff : Demo.world :=
  {| Demo.cloned := false; Demo.online := false; Demo.listing := false |}.

(** The clone is on disk. *)
Definition atHome : Demo.world :=
  {| Demo.cloned := true; Demo.online := true; Demo.listing := true |}.

(** A repository object over the small world. *)
Definition repository : BaseVCS.baseVCSSource Demo.world :=
  {| BaseVCS.crepo := {| BaseVCS.r :=
       {| BaseVCS.Vcs := "git";
          BaseVCS.CheckLocal := λ w, (Demo.cloned w, w);
          BaseVCS.Ping := λ w, (Demo.online w, w);
          BaseVCS.Remote := "https://example.org/x/y";
          BaseVCS.IsReference := λ rev w, (bool_decide (rev = "abc123"), w) |} |} |}.

(** An adapter that embeds the base adapter: the methods the base adapter
    has are the base adapter's, the others are the demo adapter's. *)
Definition embedding : source Demo.world := {|
  Source.existsLocally := BaseVCS.existsLocally repository;
  Source.existsUpstream := BaseVCS.existsUpstream repository;
  Source.upstreamURL := BaseVCS.upstreamURL repository;
  Source.initLocal := Source.initLocal Demo.adapter;
  Source.updateLocal := Source.updateLocal Demo.adapter;
  Source.listVersions := Source.listVersions Demo.adapter;
  Source.getManifestAndLock := Source.getManifestAndLock Demo.adapter;
  Source.listPackages := Source.listPackages Demo.adapter;
  Source.revisionPresentIn := BaseVCS.revisionPresentIn repository;
  Source.exportRevisionTo := Source.exportRevisionTo Demo.adapter;
  Source.sourceType := BaseVCS.sourceType repository
|}.

(** The clone is on disk and the network is down. *)
Definition stranded : Demo.world :=
  {| Demo.cloned := true; Demo.online := false; Demo.listing := false |}.

End Bench.

(** ** The source coordinator, lines 59-218

    The coordinator is concurrent: [getSourceGatewayFor] starts a goroutine
    per request, and the goroutines meet at the two locks.  It is embedded
    as a machine whose steps are the stretches of code between two lock
    operations; an interleaving of the goroutines is a list of steps.

    A gateway is a pointer in Go: here a reference into [heap].  A pair of
    return channels is a number, and a send on it is recorded in [sent];
    the receiver of every pair is the request that made it, waiting in
    [awaitReturn].

    Three stretches that span more than one lock operation are one step
    each, since no step of another goroutine that falls in between reads
    what they write: the maps written at lines 208-216, under the write
    lock that is held until line 217 has returned; [doReturn] together
    with the deferred unlock that follows it; and the [sourceURL] of the
    new gateway, which works on that gateway and on the world and on
    nothing of the coordinator.  The deducer is outside source.go: what it
    answers comes with the step, and nothing is assumed of it. *)

Module Coordinator.

Definition gatewayRef := nat.
Definition srcReturnChans := nat.

(** What [doReturn] is called with: a gateway or an error. *)
Inductive answer :=
| gotGateway (sg : gatewayRef)
| gotError (err : error).

(** The ways the process can die: the panic of lines 111 and 181, and the
    nil adapter of [sourceURL]. *)
Inductive crash :=
| noGatewayForURL (url name : string)
| nilSource.

Section Machine.
Context {W : Type}.

(** Where a goroutine running [setUpSourceGateway] stands, with the local
    variables that are live there. *)
Inductive point :=
| atFold                                          (* line 130 *)
| atDeduce                                        (* line 160 *)
| atRecheck (mb : maybeSource W)                  (* line 174 *)
| atProbe (mb : maybeSource W)                    (* line 185 *)
| atInstall (url : string) (srcGate : gatewayRef) (* line 205 *)
| atReturn (res : answer) (locked : bool)         (* [doReturn], line 142;
                                                     [locked]: the deferred
                                                     unlock of line 206 is
                                                     pending *)
| returned.

Record goroutine := { normalizedName : string; at_ : point }.

(** [sourceCoordinator], lines 75-84.  [superv] is the field
    [supervisor], a name its type has taken.  [srcmut] is true while the
    write lock is held; read locks and [psrcmut] are taken and released within
    one step.  The deducer enters with its answers (see [advance]).  The
    other fields are not Go fields: the heap behind the gateway pointers,
    with every gateway as [sourceURL] left it at line 197, the number of
    gateways made so far, the goroutines started so far, by the channels
    they were given, what has been sent on the channels, what the fast
    path has answered, and whether the process has died. *)
Record sourceCoordinator := {
  superv : supervisor W;
  srcmut : bool;
  srcs : gmap string gatewayRef;
  nameToURL : gmap string string;
  protoSrcs : gmap string (list srcReturnChans);
  cachedir : string;
  heap : gmap gatewayRef (sourceGateway W);
  allocated : nat;
  goroutines : gmap srcReturnChans goroutine;
  sent : list (srcReturnChans * answer);
  answered : list (string * gatewayRef);
  crashed : option crash
}.

(** [newSourceCoordinator], lines 86-95. *)
Definition newSourceCoordinator (sup : supervisor W) (dir : string)
  : sourceCoordinator :=
  {| superv := sup; srcmut := false; srcs := ∅; nameToURL := ∅; protoSrcs := ∅;
     cachedir := dir; heap := ∅; allocated := 0%nat; goroutines := ∅;
     sent := []; answered := []; crashed := None |}.

Definition setSrcmut (b : bool) (c : sourceCoordinator) : sourceCoordinator :=
  {| superv := superv c; srcmut := b; srcs := srcs c; nameToURL := nameToURL c;
     protoSrcs := protoSrcs c; cachedir := cachedir c; heap := heap c;
     allocated := allocated c; goroutines := goroutines c; sent := sent c;
     answered := answered c; crashed := crashed c |}.

Definition setSrcs (m : gmap string gatewayRef) (c : sourceCoordinator)
  : sourceCoordinator :=
  {| superv := superv c; srcmut := srcmut c; srcs := m; nameToURL := nameToURL c;
     protoSrcs := protoSrcs c; cachedir := cachedir c; heap := heap c;
     allocated := allocated c; goroutines := goroutines c; sent := sent c;
     answered := answered c; crashed := crashed c |}.

Definition setNameToURL (m : gmap string string) (c : sourceCoordinator)
  : sourceCoordinator :=
  {| superv := superv c; srcmut := srcmut c; srcs := srcs c; nameToURL := m;
     protoSrcs := protoSrcs c; cachedir := cachedir c; heap := heap c;
     allocated := allocated c; goroutines := goroutines c; sent := sent c;
     answered := answered c; crashed := crashed c |}.

Definition setProtoSrcs (m : gmap string (list srcReturnChans))
    (c : sourceCoordinator) : sourceCoordinator :=
  {| superv := superv c; srcmut := srcmut c; srcs := srcs c;
     nameToURL := nameToURL c; protoSrcs := m; cachedir := cachedir c;
     heap := heap c; allocated := allocated c; goroutines := goroutines c;
     sent := sent c; answered := answered c; crashed := crashed c |}.

(** A gateway is allocated: the next reference is taken, and the gateway
    is kept in the heap if anything may still point to it. *)
Definition allocate (g : option (sourceGateway W)) (c : sourceCoordinator)
  : sourceCoordinator :=
  {| superv := superv c; srcmut := srcmut c; srcs := srcs c;
     nameToURL := nameToURL c; protoSrcs := protoSrcs c; cachedir := cachedir c;
     heap := match g with
             | Some g => <[allocated c := g]> (heap c)
             | None => heap c
             end;
     allocated := S (allocated c); goroutines := goroutines c; sent := sent c;
     answered := answered c; crashed := crashed c |}.

Definition setGoroutines (m : gmap srcReturnChans goroutine)
    (c : sourceCoordinator) : sourceCoordinator :=
  {| superv := superv c; srcmut := srcmut c; srcs := srcs c;
     nameToURL := nameToURL c; protoSrcs := protoSrcs c; cachedir := cachedir c;
     heap := heap c; allocated := allocated c; goroutines := m; sent := sent c;
     answered := answered c; crashed := crashed c |}.

Definition setSent (l : list (srcReturnChans * answer)) (c : sourceCoordinator)
  : sourceCoordinator :=
  {| superv := superv c; srcmut := srcmut c; srcs := srcs c;
     nameToURL := nameToURL c; protoSrcs := protoSrcs c; cachedir := cachedir c;
     heap := heap c; allocated := allocated c; goroutines := goroutines c;
     sent := l; answered := answered c; crashed := crashed c |}.

Definition setAnswered (l : list (string * gatewayRef)) (c : sourceCoordinator)
  : sourceCoordinator :=
  {| superv := superv c; srcmut := srcmut c; srcs := srcs c;
     nameToURL := nameToURL c; protoSrcs := protoSrcs c; cachedir := cachedir c;
     heap := heap c; allocated := allocated c; goroutines := goroutines c;
     sent := sent c; answered := l; crashed := crashed c |}.

Definition panic (k : crash) (c : sourceCoordinator) : sourceCoordinator :=
  {| superv := superv c; srcmut := srcmut c; srcs := srcs c;
     nameToURL := nameToURL c; protoSrcs := protoSrcs c; cachedir := cachedir c;
     heap := heap c; allocated := allocated c; goroutines := goroutines c;
     sent := sent c; answered := answered c; crashed := Some k |}.

(** The goroutine started with [rc] moves on to [p]. *)
Definition moveTo (rc : srcReturnChans) (name : string) (p : point)
    (c : sourceCoordinator) : sourceCoordinator :=
  setGoroutines (<[rc := {| normalizedName := name; at_ := p |}]> (goroutines c)) c.

(** [getSourceGatewayFor], lines 97-126, up to the [go] statement; the
    wait on the channels that follows changes nothing.  [terminated] is
    what the lifetime context answers, [rc] the channels made at line 117.
    A step that cannot be taken yet (a lock is held) gives [None]. *)
Definition getSourceGatewayFor (terminated : bool) (name : string)
    (rc : srcReturnChans) (c : sourceCoordinator) : option sourceCoordinator :=
  if terminated then Some c
  else if srcmut c then None
  else
    match nameToURL c !! name with
    | Some url =>
        match srcs c !! url with
        | Some srcGate => Some (setAnswered (answered c ++ [(name, srcGate)]) c)
        | None => Some (panic (noGatewayForURL url name) c)
        end
    | None =>
        match goroutines c !! rc with
        | Some _ => None
        | None => Some (moveTo rc name atFold c)
        end
    end.

(** [doReturn], lines 142-158, with the unlock of line 206 when it is
    pending.  The panic of line 153 has no counterpart: an [answer] is a
    gateway or an error. *)
Definition doReturn (rc : srcReturnChans) (name : string) (res : answer)
    (locked : bool) (c : sourceCoordinator) : sourceCoordinator :=
  let chans := default [] (protoSrcs c !! name) in
  let c := setSent (sent c ++ map (λ rc', (rc', res)) chans) c in
  let c := setProtoSrcs (delete name (protoSrcs c)) c in
  let c := if locked then setSrcmut false c else c in
  moveTo rc name returned c.

(** One step of the goroutine that runs [setUpSourceGateway] with the
    channels [rc], lines 129-218.  [deduced] is what the deducer answers
    at line 160; [cl] and [w] are the supervisor's record and the world
    that the new gateway of line 185 finds. *)
Definition advance (rc : srcReturnChans) (deduced : maybeSource W + error)
    (cl : list callType) (w : W) (c : sourceCoordinator)
  : option sourceCoordinator :=
  gr ← goroutines c !! rc;
  let name := normalizedName gr in
  match at_ gr with
  | atFold =>
      match protoSrcs c !! name with
      | Some chans =>
          Some (moveTo rc name returned
                  (setProtoSrcs (<[name := chans ++ [rc]]> (protoSrcs c)) c))
      | None =>
          Some (moveTo rc name atDeduce
                  (setProtoSrcs (<[name := [rc]]> (protoSrcs c)) c))
      end
  | atDeduce =>
      match deduced with
      | inr err => Some (moveTo rc name (atReturn (gotError err) false) c)
      | inl mb => Some (moveTo rc name (atRecheck mb) c)
      end
  | atRecheck mb =>
      if srcmut c then None
      else
        match nameToURL c !! name with
        | Some url =>
            match srcs c !! url with
            | Some srcGate =>
                Some (moveTo rc name (atReturn (gotGateway srcGate) false) c)
            | None => Some (panic (noGatewayForURL url name) c)
            end
        | None => Some (moveTo rc name (atProbe mb) c)
        end
  | atProbe mb =>
      match sourceURL (newSourceGateway mb (superv c) (cachedir c) cl w) with
      | Ret (url, None) srcGate =>
          Some (moveTo rc name (atInstall url (allocated c))
                  (allocate (Some srcGate) c))
      | Ret (_, Some err) _ =>
          Some (moveTo rc name (atReturn (gotError err) false) (allocate None c))
      | Panic _ => Some (panic nilSource c)
      | Spin => None
      end
  | atInstall url srcGate =>
      if srcmut c then None
      else
        let c := setNameToURL (<[name := url]> (nameToURL c)) (setSrcmut true c) in
        match srcs c !! url with
        | Some sa => Some (moveTo rc name (atReturn (gotGateway sa) true) c)
        | None =>
            Some (moveTo rc name (atReturn (gotGateway srcGate) true)
                    (setSrcs (<[url := srcGate]> (srcs c)) c))
        end
  | atReturn res locked => Some (doReturn rc name res locked c)
  | returned => None
  end.

(** What can happen next: a request comes in, or a goroutine moves. *)
Inductive event :=
| request (terminated : bool) (name : string) (rc : srcReturnChans)
| proceed (rc : srcReturnChans) (deduced : maybeSource W + error)
    (cl : list callType) (w : W).

(** Nothing moves once the process has died. *)
Definition fire (e : event) (c : sourceCoordinator) : option sourceCoordinator :=
  match crashed c with
  | Some _ => None
  | None =>
      match e with
      | request terminated name rc => getSourceGatewayFor terminated name rc c
      | proceed rc deduced cl w => advance rc deduced cl w c
      end
  end.

(** A schedule: the events in the order they happen. *)
Fixpoint play (es : list event) (c : sourceCoordinator) : option sourceCoordinator :=
  match es with
  | [] => Some c
  | e :: es => c' ← fire e c; play es c'
  end.

End Machine.

(** ** Vocabulary of the statements on the coordinator *)

Section Invariant.
Context {W : Type}.
Implicit Types (c : sourceCoordinator (W := W)) (p : point (W := W))
  (gr : goroutine (W := W)).

(** The goroutine owns the set-up of its name: it is past line 140 and has
    not yet run [doReturn]. *)
Definition working p : Prop :=
  match p with atFold | returned => False | _ => True end.

(** Past the second look at the maps, before the name is recorded. *)
Definition unresolved p : Prop :=
  match p with atProbe _ | atInstall _ _ => True | _ => False end.

(** [name] leads to the gateway [sg] through the two maps. *)
Definition registered c (name : string) (sg : gatewayRef) : Prop :=
  ∃ url, nameToURL c !! name = Some url ∧ srcs c !! url = Some sg.

(** The gateway behind [ref] is set up and its adapter reports [url]. *)
Definition servesURL c (url : string) (ref : gatewayRef) : Prop :=
  ∃ g a, heap c !! ref = Some g ∧ src g = Some a ∧
         Source.upstreamURL a = url ∧ Z.testbit (srcState g) 0 = true.

(** The request for [name] was answered with the gateway [sg], by the fast
    path or on the channels of the goroutine it started. *)
Definition handedOut c (name : string) (sg : gatewayRef) : Prop :=
  (name, sg) ∈ answered c ∨
  ∃ rc gr, goroutines c !! rc = Some gr ∧ normalizedName gr = name ∧
           (rc, gotGateway sg) ∈ sent c.

(** The channels [rc] wait in the list of [name]. *)
Definition waiting c (rc : srcReturnChans) (name : string) : Prop :=
  ∃ chans, protoSrcs c !! name = Some chans ∧ rc ∈ chans.

Record consistent c : Prop := {
  names_have_gateways :
    ∀ name url, nameToURL c !! name = Some url → is_Some (srcs c !! url);
  gateways_serve :
    ∀ url ref, srcs c !! url = Some ref → servesURL c url ref;
  heap_below :
    ∀ ref, is_Some (heap c !! ref) → (ref < allocated c)%nat;
  installing_serves :
    ∀ rc gr url ref, goroutines c !! rc = Some gr →
      at_ gr = atInstall url ref → servesURL c url ref;
  owner_heads :
    ∀ rc gr, goroutines c !! rc = Some gr → working (at_ gr) →
      ∃ chans, protoSrcs c !! normalizedName gr = Some (rc :: chans);
  headed_by_owner :
    ∀ name chans, protoSrcs c !! name = Some chans →
      ∃ rc chans' gr, chans = rc :: chans' ∧ goroutines c !! rc = Some gr ∧
                      working (at_ gr);
  unresolved_name :
    ∀ rc gr, goroutines c !! rc = Some gr → unresolved (at_ gr) →
      nameToURL c !! normalizedName gr = None;
  returning_registered :
    ∀ rc gr sg l, goroutines c !! rc = Some gr →
      at_ gr = atReturn (gotGateway sg) l → registered c (normalizedName gr) sg;
  waiting_name :
    ∀ name rc, waiting c rc name →
      ∃ gr, goroutines c !! rc = Some gr ∧ normalizedName gr = name ∧
            at_ gr ≠ atFold;
  waiting_once :
    ∀ name chans, protoSrcs c !! name = Some chans →
      NoDup chans ∧ ∀ rc, rc ∈ chans → rc ∉ (sent c).*1;
  sent_once : NoDup (sent c).*1;
  sent_started :
    ∀ rc, rc ∈ (sent c).*1 →
      ∃ gr, goroutines c !! rc = Some gr ∧ at_ gr = returned;
  sent_registered :
    ∀ rc sg, (rc, gotGateway sg) ∈ sent c →
      ∃ gr, goroutines c !! rc = Some gr ∧ registered c (normalizedName gr) sg;
  answered_registered :
    ∀ name sg, (name, sg) ∈ answered c → registered c name sg;
  returned_served :
    ∀ rc gr, goroutines c !! rc = Some gr → at_ gr = returned →
      rc ∈ (sent c).*1 ∨ waiting c rc (normalizedName gr);
  never_missing :
    ∀ url name, crashed c ≠ Some (noGatewayForURL url name)
}.

(** The goroutine holds the write lock of [srcmut]. *)
Definition holds p : Prop :=
  match p with atReturn _ true => True | _ => False end.

(** The write lock is held by exactly one goroutine, or by none. *)
Definition lockedByOne c : Prop :=
  (srcmut c = true → ∃ rc gr, goroutines c !! rc = Some gr ∧ holds (at_ gr)) ∧
  (∀ rc gr, goroutines c !! rc = Some gr → holds (at_ gr) → srcmut c = true) ∧
  (∀ rc1 rc2 gr1 gr2, goroutines c !! rc1 = Some gr1 → goroutines c !! rc2 = Some gr2 →
     holds (at_ gr1) → holds (at_ gr2) → rc1 = rc2).

(** What a step never takes back. *)
Definition extends c c' : Prop :=
  nameToURL c ⊆ nameToURL c' ∧ srcs c ⊆ srcs c' ∧
  (∀ x, x ∈ sent c → x ∈ sent c') ∧
  (∀ x, x ∈ answered c → x ∈ answered c') ∧
  (∀ rc gr, goroutines c !! rc = Some gr →
            ∃ gr', goroutines c' !! rc = Some gr' ∧
                   normalizedName gr' = normalizedName gr).

End Invariant.

End Coordinator.

(** ** A coordinator at work in the small world *)

Module Yard.
Import Coordinator.

Definition start : sourceCoordinator (W := Demo.world) :=
  newSourceCoordinator Demo.superv "/cache".

(** A goroutine moves; the deducer knows the source, the network is up. *)
Definition move (rc : srcReturnChans) : event (W := Demo.world) :=
  proceed rc (inl Demo.listingProbe) [] Demo.remote.

(** A goroutine moves; the deducer does not know the source. *)
Definition stray (rc : srcReturnChans) : event (W := Demo.world) :=
  proceed rc (inr (errExternal "unable to deduce")) [] Demo.remote.

(** Two requests for one name at once, then the same source asked for by
    its URL while the first set-up is under way. *)
Definition rush : list (event (W := Demo.world)) :=
  [ request false "example.org/x/y" 1%nat; request false "example.org/x/y" 2%nat;
    move 1%nat; move 2%nat; move 1%nat; move 1%nat; move 1%nat;
    request false "https://example.org/x/y" 3%nat;
    move 1%nat ].

(** The rest of the day: everyone is answered, a later request takes the
    fast path, an unknown source fails, and one set-up is left at work. *)
Definition calm : list (event (W := Demo.world)) :=
  [ move 1%nat;
    move 3%nat; move 3%nat; move 3%nat; move 3%nat; move 3%nat; move 3%nat;
    request false "example.org/x/y" 4%nat;
    request false "nowhere.example/z" 5%nat; stray 5%nat; stray 5%nat; stray 5%nat;
    request false "example.org/late" 6%nat; move 6%nat ].

(** The coordinator in the middle of line 205-217, the write lock held. *)
Definition busy : sourceCoordinator (W := Demo.world) :=
  default start (play rush start).

Definition evening : sourceCoordinator (W := Demo.world) :=
  default start (play (rush ++ calm) start).

End Yard.

(** * Facts *)

(** ** The bits of [flag] *)

Lemma wrap32_small z : - 2 ^ 31 <= z < 2 ^ 31 → wrap32 z = z.
Proof.
  intros Hz. unfold wrap32.
  rewrite Z.mod_small by lia. lia.
Qed.

Lemma flagAt_S i : flagAt (S i) = shl1 (flagAt i).
Proof. reflexivity. Qed.

Lemma flagAt_pow2 i : (i <= 30)%nat → flagAt i = 2 ^ Z.of_nat i.
Proof.
  induction i as [|i IH]; intros Hi; [reflexivity|].
  rewrite flagAt_S, IH by lia.
  unfold shl1. rewrite Z.shiftl_mul_pow2 by lia.
  replace (Z.of_nat (S i)) with (Z.of_nat i + 1) by lia.
  rewrite Z.pow_add_r by lia. change (2 ^ 1) with 2.
  apply wrap32_small.
  assert (0 < 2 ^ Z.of_nat i) by (apply Z.pow_pos_nonneg; lia).
  assert (2 ^ Z.of_nat i <= 2 ^ 29) by (apply Z.pow_le_mono_r; lia).
  lia.
Qed.

Lemma flagAt_31 : flagAt 31 = Z.lnot (Z.ones 31).
Proof. reflexivity. Qed.

(** After 32 shifts the flag is gone, and stays gone. *)
Lemma flagAt_32 : flagAt 32 = 0.
Proof. reflexivity. Qed.

Lemma shl1_0 : shl1 0 = 0.
Proof. reflexivity. Qed.

(** The bits of the flag of pass [i]: bit [i], which for the sign bit of an
    int32 means every bit from 31 upwards of the integer it denotes. *)
Lemma flagAt_bits (i : nat) (j : Z) :
  (i < 32)%nat → 0 <= j →
  Z.testbit (flagAt i) j =
    if decide (i = 31%nat) then bool_decide (31 <= j) else bool_decide (j = Z.of_nat i).
Proof.
  intros Hi Hj. destruct (decide (i = 31%nat)) as [->|Hne].
  - rewrite flagAt_31, Z.lnot_spec by lia.
    destruct (decide (31 <= j)) as [H|H].
    + rewrite Z.ones_spec_high by lia. by rewrite bool_decide_eq_true_2.
    + rewrite Z.ones_spec_low by lia. by rewrite bool_decide_eq_false_2.
  - rewrite flagAt_pow2 by lia. rewrite Z.pow2_bits_eqb by lia.
    destruct (decide (j = Z.of_nat i)) as [->|H].
    + rewrite Z.eqb_refl. by rewrite bool_decide_eq_true_2.
    + rewrite bool_decide_eq_false_2 by done. apply Z.eqb_neq. lia.
Qed.

Lemma flagAt_own_bit (i : nat) : (i < 32)%nat → Z.testbit (flagAt i) (Z.of_nat i) = true.
Proof.
  intros Hi. rewrite flagAt_bits by lia.
  destruct (decide (i = 31%nat)) as [->|]; by rewrite bool_decide_eq_true_2 by lia.
Qed.

Lemma land_flag_nonzero (todo : Z) (i : nat) :
  (i < 31)%nat → Z.land todo (flagAt i) ≠ 0 → Z.testbit todo (Z.of_nat i) = true.
Proof.
  intros Hi Hne. destruct (Z.testbit todo (Z.of_nat i)) eqn:Hb; [done|].
  exfalso. apply Hne. apply Z.bits_inj'. intros j Hj.
  rewrite Z.land_spec, Z.bits_0, flagAt_bits by lia.
  destruct (decide (i = 31%nat)); [lia|].
  destruct (decide (j = Z.of_nat i)) as [->|].
  - by rewrite Hb.
  - rewrite bool_decide_eq_false_2 by done. apply andb_false_r.
Qed.

Lemma land_flag_zero (todo : Z) (i : nat) (j : Z) :
  (i < 32)%nat → 0 <= j → Z.land todo (flagAt i) = 0 →
  Z.testbit (flagAt i) j = true → Z.testbit todo j = false.
Proof.
  intros Hi Hj Hz Hf.
  assert (Z.testbit (Z.land todo (flagAt i)) j = false) as Hl
    by (rewrite Hz; apply Z.bits_0).
  rewrite Z.land_spec, Hf, andb_true_r in Hl. done.
Qed.

(** ** Outcomes *)

Section Outcomes.
Context {W : Type}.
Implicit Types (g : sourceGateway W) (P R : sourceGateway W → Prop).

Lemma ends_bind {A B} (m : M A) (f : A → M B) g R P :
  ends R (m g) →
  (∀ g1, R g1 → P g1) →
  (∀ a g1, R g1 → ends P (f a g1)) →
  ends P ((m ≫= f) g).
Proof.
  intros Hm HRP Hf. unfold mbind, M_bind.
  destruct (m g) as [a g1| g1 |]; simpl in *; auto.
Qed.

Lemma ends_weaken {A} (o : outcome W A) R P :
  ends R o → (∀ g1, R g1 → P g1) → ends P o.
Proof. destruct o; simpl; auto. Qed.

Lemma bind_Ret {A B} (m : M A) (f : A → M B) g a g1 :
  m g = Ret a g1 → (m ≫= f) g = f a g1.
Proof. intros H. unfold mbind, M_bind. by rewrite H. Qed.

Lemma bind_Panic {A B} (m : M A) (f : A → M B) g g1 :
  m g = Panic g1 → (m ≫= f) g = Panic g1.
Proof. intros H. unfold mbind, M_bind. by rewrite H. Qed.

Lemma bind_Spin {A B} (m : M A) (f : A → M B) g :
  m g = Spin → (m ≫= f) g = Spin.
Proof. intros H. unfold mbind, M_bind. by rewrite H. Qed.

End Outcomes.

Section Loop.
Context {W : Type}.
Implicit Types (g : sourceGateway W).

Lemma covered_0 todo : covered 0 todo.
Proof. intros j Hj [?|?]; lia. Qed.

Lemma covered_all todo : covered 32 todo → todo = 0.
Proof.
  intros Hc. apply Z.bits_inj'. intros j Hj.
  rewrite Z.bits_0. apply Hc; [done|]. right. lia.
Qed.

Lemma covered_S i todo todo' :
  (i < 32)%nat → covered i todo →
  (∀ j, 0 <= j → Z.testbit todo j = false → Z.testbit todo' j = false) →
  (∀ j, 0 <= j → Z.testbit (flagAt i) j = true → Z.testbit todo' j = false) →
  covered (S i) todo'.
Proof.
  intros Hi Hc Hsub Hflag j Hj Hcase.
  destruct (decide (j < Z.of_nat i)) as [Hlt|Hge].
  { apply Hsub; [done|]. apply Hc; auto. }
  apply Hflag; [done|]. rewrite flagAt_bits by lia.
  destruct (decide (i = 31%nat)) as [->|Hne].
  - apply bool_decide_eq_true_2. lia.
  - apply bool_decide_eq_true_2. lia.
Qed.

Lemma covered_skip i todo :
  (i < 32)%nat → covered i todo → Z.land todo (flagAt i) = 0 → covered (S i) todo.
Proof.
  intros Hi Hc Hz. apply (covered_S i todo); auto.
  intros j Hj Hf. by apply (land_flag_zero todo i).
Qed.

Lemma covered_step i todo checked :
  (i < 32)%nat → covered i todo →
  (∀ j, 0 <= j → Z.testbit (flagAt i) j = true → Z.testbit checked j = true) →
  covered (S i) (Z.land todo (Z.lnot checked)).
Proof.
  intros Hi Hc Hch. apply (covered_S i todo); auto.
  - intros j Hj Hb. by rewrite Z.land_spec, Hb.
  - intros j Hj Hf. rewrite Z.land_spec, Z.lnot_spec, (Hch j) by done.
    apply andb_false_r.
Qed.

(** The proof rule of the loop: an invariant [I] of the pass number, of
    [todo] and of the gateway, kept by a skipped pass and by a step that
    succeeds, gives [Q] of the outcome; the loop never spins. *)
Lemma requireLoop_rule
    (I : nat → sourceState → sourceGateway W → Prop)
    (Q : outcome W (sourceState * option error) → Prop) :
  (∀ i g, I i 0 g → Q (Ret (0, None) g)) →
  (∀ i todo g, (i < 32)%nat → I i todo g → todo ≠ 0 → covered i todo →
               Z.land todo (flagAt i) = 0 → I (S i) todo g) →
  (∀ i todo g, (i < 32)%nat → I i todo g → todo ≠ 0 → covered i todo →
               Z.land todo (flagAt i) ≠ 0 →
     match requireStep (flagAt i) g with
     | Ret (addl, None) g' =>
         I (S i) (Z.land todo (Z.lnot (Z.lor (flagAt i) addl)))
           (setSrcState (Z.lor (srcState g') (Z.lor (flagAt i) addl)) g')
     | Ret (addl, Some e) g' => Q (Ret (flagAt i, Some e) g')
     | Panic g' => Q (Panic g')
     | Spin => False
     end) →
  ∀ fuel i todo g, (fuel + i = 32)%nat → covered i todo → I i todo g →
    Q (requireLoop fuel (flagAt i) todo g).
Proof.
  intros Hexit Hskip Hstep fuel.
  induction fuel as [|fuel IH]; intros i todo g Hfi Hc HI.
  - assert (i = 32%nat) as -> by lia.
    rewrite (covered_all todo Hc) in *. simpl. by apply (Hexit 32%nat).
  - simpl. destruct (Z.eqb_spec todo 0) as [->|Hne].
    { by apply (Hexit i). }
    assert (i < 32)%nat as Hi by lia.
    destruct (Z.eqb_spec (Z.land todo (flagAt i)) 0) as [Hz|Hnz].
    + rewrite <- flagAt_S. apply IH; [lia| |].
      * by apply covered_skip.
      * by apply Hskip.
    + specialize (Hstep i todo g Hi HI Hne Hc Hnz).
      unfold mbind, M_bind.
      destruct (requireStep (flagAt i) g) as [[addl [e|]] g'| g' |]; try done.
      simpl. rewrite <- flagAt_S. apply IH; [lia| |done].
      apply covered_step; [done..|].
      intros j Hj Hf. by rewrite Z.lor_spec, Hf.
Qed.

Lemma require_rule
    (I : nat → sourceState → sourceGateway W → Prop)
    (Q : outcome W (sourceState * option error) → Prop) wanted g :
  (∀ i g, I i 0 g → Q (Ret (0, None) g)) →
  (∀ i todo g, (i < 32)%nat → I i todo g → todo ≠ 0 → covered i todo →
               Z.land todo (flagAt i) = 0 → I (S i) todo g) →
  (∀ i todo g, (i < 32)%nat → I i todo g → todo ≠ 0 → covered i todo →
               Z.land todo (flagAt i) ≠ 0 →
     match requireStep (flagAt i) g with
     | Ret (addl, None) g' =>
         I (S i) (Z.land todo (Z.lnot (Z.lor (flagAt i) addl)))
           (setSrcState (Z.lor (srcState g') (Z.lor (flagAt i) addl)) g')
     | Ret (addl, Some e) g' => Q (Ret (flagAt i, Some e) g')
     | Panic g' => Q (Panic g')
     | Spin => False
     end) →
  I 0%nat (Z.land (Z.lnot (srcState g)) wanted) g →
  Q (require wanted g).
Proof.
  intros Hexit Hskip Hstep HI. unfold require.
  apply (requireLoop_rule I Q Hexit Hskip Hstep 32 0); auto using covered_0.
Qed.
End Loop.

Ltac solve_no_export :=
  first [ apply not_elem_of_nil
        | intros Hin; apply list_elem_of_singleton in Hin; discriminate Hin ].

Section Steps.
Context {W : Type}.
Implicit Types (g : sourceGateway W).

(** What [supervisor.do] leaves behind: one more recorded call, possibly
    another world, nothing else. *)
Lemma do_spec {A} typ (zero : A) f g :
  ∃ r w, do typ zero f g = Ret r (setWorld w (setCalls (calls g ++ [typ]) g)).
Proof.
  unfold do. simpl.
  destruct (refuse (suprvsr g) typ (world g)) as [e|].
  - exists (zero, Some e), (world g). by destruct g.
  - destruct (f (world g)) as [[a e] w]. by exists (a, e), w.
Qed.

Lemma direct_spec {A} (f : W → A * W) g :
  direct f g = Ret (f (world g)).1 (setWorld (f (world g)).2 g).
Proof. unfold direct. by destruct (f (world g)). Qed.

Lemma requireStep_frame flag g : stepFrame flag g (requireStep flag g).
Proof.
  unfold requireStep.
  destruct (Z.eqb_spec flag sourceIsSetUp) as [->|H1].
  { simpl. done. }
  destruct (Z.eqb_spec flag sourceExistsUpstream) as [->|H2].
  { unfold mbind, M_bind, theSrc. destruct (src g) as [a|] eqn:Hsrc; [|done].
    edestruct (do_spec (A := unit) ctSourcePing tt) as ([[] err] & w & ->).
    simpl. repeat split; auto.
    - exists [ctSourcePing]. split; [done|]. solve_no_export. }
  destruct (Z.eqb_spec flag sourceExistsLocally) as [->|H3].
  { unfold mbind, M_bind, theSrc. destruct (src g) as [a|] eqn:Hsrc; [|done].
    rewrite direct_spec.
    destruct (Source.existsLocally a (world g)) as [[] w1]; simpl.
    - repeat split; auto. exists []. rewrite app_nil_r. split; [done|]. solve_no_export.
    - edestruct (do_spec (A := unit) ctSourceInit tt) as ([[] err] & w & ->).
      destruct err as [e|]; simpl; repeat split; auto.
      + exists [ctSourceInit]. split; [done|]. solve_no_export.
      + exists [ctSourceInit]. split; [done|]. solve_no_export. }
  destruct (Z.eqb_spec flag sourceHasLatestVersionList) as [->|H4].
  { unfold mbind, M_bind, theSrc. destruct (src g) as [a|] eqn:Hsrc; [|done].
    edestruct (do_spec (A := list PairedVersion) ctListVersions []) as ([pvl err] & w & ->).
    destruct err as [e|]; simpl; repeat split; auto; try done.
    + exists [ctListVersions]. split; [done|]. solve_no_export.
    + exists [ctListVersions]. split; [done|]. solve_no_export. }
  destruct (Z.eqb_spec flag sourceHasLatestLocally) as [->|H5].
  { unfold mbind, M_bind, theSrc. destruct (src g) as [a|] eqn:Hsrc; [|done].
    edestruct (do_spec (A := unit) ctSourceFetch tt) as ([[] err] & w & ->).
    simpl. repeat split; auto.
    exists [ctSourceFetch]. split; [done|]. solve_no_export. }
  simpl. repeat split; auto. exists []. rewrite app_nil_r. split; [done|]. solve_no_export.
Qed.
End Steps.

Section Require.
Context {W : Type}.
Implicit Types (g : sourceGateway W).

Lemma stateIncl_refl s : stateIncl s s.
Proof. by intros j Hj. Qed.

Lemma stateIncl_trans a b c : stateIncl a b → stateIncl b c → stateIncl a c.
Proof. intros Hab Hbc j Hj H. auto. Qed.

Lemma stateIncl_lor_l a b : stateIncl a (Z.lor a b).
Proof. intros j Hj H. by rewrite Z.lor_spec, H. Qed.

(** Pass [i] has the flag of a declared state only when [i] is that
    state's bit. *)
Lemma flagAt_is_pow2 (i : nat) (k : Z) :
  (i < 32)%nat → 0 <= k → flagAt i = 2 ^ k → Z.of_nat i = k.
Proof.
  intros Hi Hk Heq.
  assert (Z.testbit (flagAt i) k = true) as Hb
    by (rewrite Heq; apply Z.pow2_bits_true; lia).
  rewrite flagAt_bits in Hb by lia.
  destruct (decide (i = 31%nat)) as [->|Hne].
  - exfalso. assert (0 < 2 ^ k) as Hpos by (apply Z.pow_pos_nonneg; lia).
    rewrite <- Heq in Hpos. vm_compute in Hpos. discriminate Hpos.
  - apply bool_decide_eq_true_1 in Hb. lia.
Qed.

Lemma step_flag_bit (todo : Z) (i : nat) (k : Z) :
  (i < 32)%nat → 0 <= k → Z.land todo (flagAt i) ≠ 0 → flagAt i = 2 ^ k →
  Z.testbit todo k = true.
Proof.
  intros Hi Hk Hnz Heq.
  pose proof (flagAt_is_pow2 i k Hi Hk Heq) as <-.
  apply land_flag_nonzero; [|done].
  destruct (decide (i = 31%nat)) as [->|]; [|lia].
  exfalso. vm_compute in Heq. discriminate Heq.
Qed.

(** [require] ends, and whatever way it ends the state has only grown. *)
Lemma require_grows wanted g s0 :
  stateIncl s0 (srcState g) →
  ends (λ g', stateIncl s0 (srcState g')) (require wanted g).
Proof.
  intros H0.
  apply (require_rule (λ _ _ g', stateIncl s0 (srcState g'))); auto.
  intros i todo g1 Hi HI Hne Hc Hnz.
  pose proof (requireStep_frame (flagAt i) g1) as Hf.
  destruct (requireStep (flagAt i) g1) as [[addl [e|]] g'| g' |]; simpl in *.
  - destruct Hf as (-> & _). done.
  - destruct Hf as (-> & _). eapply stateIncl_trans; [done|apply stateIncl_lor_l].
  - by subst.
  - done.
Qed.

Lemma require_never_spins wanted g : require wanted g ≠ Spin.
Proof.
  pose proof (require_grows wanted g (srcState g) (stateIncl_refl _)) as H.
  intros Heq. by rewrite Heq in H.
Qed.

(** A [require] that returns without error has returned [0, nil] and
    every wanted bit is set. *)
Lemma require_ok wanted g st g' :
  require wanted g = Ret (st, None) g' →
  st = 0 ∧ stateIncl wanted (srcState g').
Proof.
  intros Hreq.
  pose (I := λ (_ : nat) (todo : sourceState) (g1 : sourceGateway W),
          ∀ j, 0 <= j → Z.testbit wanted j = true →
               Z.testbit (srcState g1) j = true ∨ Z.testbit todo j = true).
  pose (Q := λ o : outcome W (sourceState * option error),
          match o with
          | Ret (st, None) g1 => st = 0 ∧ stateIncl wanted (srcState g1)
          | _ => True
          end).
  enough (Q (require wanted g)) as HQ by (by rewrite Hreq in HQ).
  apply (require_rule I Q); unfold I, Q.
  - intros _ g1 HI. split; [done|]. intros j Hj Hw.
    destruct (HI j Hj Hw) as [?|Hb]; [done|]. by rewrite Z.bits_0 in Hb.
  - auto.
  - intros i todo g1 Hi HI Hne Hc Hnz.
    pose proof (requireStep_frame (flagAt i) g1) as Hf.
    destruct (requireStep (flagAt i) g1) as [[addl [e|]] g1'| g1' |]; simpl in *; try done.
    destruct Hf as (-> & _). intros j Hj Hw.
    rewrite Z.lor_spec, Z.land_spec, Z.lnot_spec by done.
    destruct (HI j Hj Hw) as [Hs | Ht]; [left; by rewrite Hs|]. rewrite Ht.
    destruct (Z.testbit (Z.lor (flagAt i) addl) j); simpl.
    + left. apply orb_true_r.
    + by right.
  - intros j Hj Hw. rewrite Z.land_spec, Z.lnot_spec, Hw by done.
    destruct (Z.testbit (srcState g) j); simpl; auto.
Qed.

(** On a gateway that is set up, a [require] that does not have to fetch
    the version list leaves the adapter and the cache alone and
    dispatches no export. *)
Lemma require_set_up wanted g :
  Z.testbit (srcState g) 0 = true →
  ends (λ g', src g' = src g ∧
              (∃ l, calls g' = calls g ++ l ∧ ctExportTree ∉ l) ∧
              (Z.testbit (Z.land (Z.lnot (srcState g)) wanted) 3 = false →
               cache g' = cache g))
       (require wanted g).
Proof.
  intros Hup.
  pose (P := λ g' : sourceGateway W,
          src g' = src g ∧ (∃ l, calls g' = calls g ++ l ∧ ctExportTree ∉ l)).
  pose (I := λ (_ : nat) (todo : sourceState) (g1 : sourceGateway W),
          Z.testbit todo 0 = false ∧ P g1 ∧
          (Z.testbit (Z.land (Z.lnot (srcState g)) wanted) 3 = false →
           Z.testbit todo 3 = false ∧ cache g1 = cache g)).
  apply (require_rule I (ends (λ g',
           src g' = src g ∧ (∃ l, calls g' = calls g ++ l ∧ ctExportTree ∉ l) ∧
           (Z.testbit (Z.land (Z.lnot (srcState g)) wanted) 3 = false →
            cache g' = cache g)))); unfold I, P.
  - intros _ g1 (_ & [Hs Hl] & Hc). simpl. split; [done|]. split; [done|].
    intros H. by apply Hc.
  - auto.
  - intros i todo g1 Hi (Hb0 & (Hsrc & l & Hl & Hnl) & Hc3) Hne Hc Hnz.
    assert (flagAt i ≠ sourceIsSetUp) as Hn1.
    { intros Heq. pose proof (step_flag_bit todo i 0 Hi (Z.le_refl 0) Hnz Heq).
      congruence. }
    pose proof (requireStep_frame (flagAt i) g1) as Hf.
    destruct (requireStep (flagAt i) g1) as [[addl err] g1'| g1' |];
      simpl in Hf;
      [|subst; simpl; split; [done|]; split; [eauto|]; intros H3; by apply Hc3|done].
    destruct Hf as (Hst & _ & _ & _ & Hrest).
    destruct (Hrest Hn1) as (Hsrc' & (l' & Hl' & Hnl') & Haddl & Hcache).
    assert (src g1' = src g ∧ ∃ l0, calls g1' = calls g ++ l0 ∧ ctExportTree ∉ l0) as HP.
    { split; [congruence|]. exists (l ++ l'). rewrite Hl', Hl, app_assoc.
      split; [done|]. by apply not_elem_of_app. }
    assert (Z.testbit (Z.land (Z.lnot (srcState g)) wanted) 3 = false →
            cache g1' = cache g) as HC.
    { intros H3. destruct (Hc3 H3) as [Ht3 Hcg]. rewrite <- Hcg. apply Hcache.
      intros Heq. pose proof (step_flag_bit todo i 3 Hi ltac:(lia) Hnz Heq).
      congruence. }
    destruct err as [e|]; [simpl; by destruct HP|].
    split; [|split; [done|]].
    + by rewrite Z.land_spec, Hb0.
    + intros H3. split; [|by apply HC].
      rewrite Z.land_spec. destruct (Hc3 H3) as [-> _]. done.
  - split; [|split].
    + by rewrite Z.land_spec, Z.lnot_spec, Hup.
    + split; [done|]. exists []. rewrite app_nil_r. split; [done|apply not_elem_of_nil].
    + intros H3. done.
Qed.
End Require.

(** ** No operation clears a bit *)

Section Growing.
Context {W : Type}.
Implicit Types (g : sourceGateway W).

Lemma growing_ret {A} (a : A) : growing (W := W) (mret a).
Proof. intros g s0 H. done. Qed.

Lemma growing_bind {A B} (m : M A) (f : A → M B) :
  growing (W := W) m → (∀ a, growing (f a)) → growing (m ≫= f).
Proof.
  intros Hm Hf g s0 H.
  apply (ends_bind m f g (λ g', stateIncl s0 (srcState g'))); auto.
  intros a g1 H1. by apply Hf.
Qed.

Lemma growing_require wanted : growing (W := W) (require wanted).
Proof. intros g s0 H. by apply require_grows. Qed.

Lemma growing_do {A} typ (zero : A) f : growing (W := W) (do typ zero f).
Proof.
  intros g s0 H. destruct (do_spec typ zero f g) as (r & w & ->). done.
Qed.

Lemma growing_direct {A} (f : W → A * W) : growing (direct f).
Proof. intros g s0 H. by rewrite direct_spec. Qed.

Lemma growing_gets {A} (f : sourceGateway W → A) : growing (gets f).
Proof. intros g s0 H. done. Qed.

Lemma growing_theSrc : growing (W := W) theSrc.
Proof. intros g s0 H. unfold theSrc. by destruct (src g). Qed.

Lemma growing_setCache (c : sourceGateway W → singleSourceCache) :
  growing (modify (λ g, setCache (c g) g)).
Proof. intros g s0 H. done. Qed.

Ltac growing_tac :=
  repeat match goal with
    | |- growing (mret _) => apply growing_ret
    | |- growing (require _) => apply growing_require
    | |- growing (do _ _ _) => apply growing_do
    | |- growing (direct _) => apply growing_direct
    | |- growing (gets _) => apply growing_gets
    | |- growing theSrc => apply growing_theSrc
    | |- growing (modify _) => apply growing_setCache
    | |- growing (_ ≫= _) => apply growing_bind; [|intros ?]
    | |- growing (match ?x with _ => _ end) => destruct x
    end.

Lemma growing_convertToRevision v : growing (W := W) (convertToRevision v).
Proof. unfold convertToRevision. growing_tac. Qed.

Lemma growing_run o : growing (W := W) (run o).
Proof.
  destruct o; simpl;
    unfold sourceURL, syncLocal, checkExistence, listVersions, revisionPresentIn,
      listPackages, getManifestAndLock, exportVersionTo;
    growing_tac; try apply growing_convertToRevision; growing_tac.
Qed.

Lemma growing_runAll os : growing (W := W) (runAll os).
Proof.
  induction os as [|o os IH]; simpl.
  - apply growing_ret.
  - apply growing_bind; [apply growing_run|]. by intros [].
Qed.

(** C4. The state bitset is monotone.  From any state of the gateway,
    every operation, and every sequence of operations, whether each of them
    succeeds, returns an error or panics, ends in a state in which every
    bit that was set at the start is still set; none loops for ever. *)
Theorem state_bits_monotone (o : operation) (os : list operation) g :
  ends (λ g', stateIncl (srcState g) (srcState g')) (run o g) ∧
  ends (λ g', stateIncl (srcState g) (srcState g')) (runAll os g).
Proof.
  split.
  - apply growing_run. apply stateIncl_refl.
  - apply growing_runAll. apply stateIncl_refl.
Qed.

End Growing.

Section Operations.
Context {W : Type}.
Implicit Types (g : sourceGateway W).

Lemma bind_gets {A B} (f : sourceGateway W → A) (k : A → M B) g :
  (gets f ≫= k) g = k (f g) g.
Proof. reflexivity. Qed.

Lemma bind_mret {A B} (a : A) (k : A → M B) g : (mret a ≫= k) g = k a g.
Proof. reflexivity. Qed.

Lemma bind_modify {B} (f : sourceGateway W → sourceGateway W) (k : unit → M B) g :
  (modify f ≫= k) g = k tt (f g).
Proof. reflexivity. Qed.

Lemma bind_theSrc {B} (k : source W → M B) g a :
  src g = Some a → (theSrc ≫= k) g = k a g.
Proof. intros H. unfold mbind, M_bind, theSrc. by rewrite H. Qed.

(** C10. [checkExistence] asked for neither [existsUpstream] nor
    [existsInCache] returns true and leaves the gateway, the record of
    dispatched calls and the world exactly as they were: nothing is
    required, not even [sourceIsSetUp], and nothing is dispatched. *)
Theorem checkExistence_without_flags (ex : sourceExistence) g :
  Z.land ex existsUpstream = 0 →
  Z.land ex existsInCache = 0 →
  checkExistence ex g = Ret true g.
Proof.
  intros Hup Hloc. unfold checkExistence. rewrite Hup, Hloc. reflexivity.
Qed.

(** C2. The algorithm of [convertToRevision]: (a) a cache hit is returned
    as it is; (b) on a miss with [sourceHasLatestVersionList] already set
    the call fails with the no-such-version error and the gateway, the
    record of dispatched calls and the world are untouched; (c) otherwise
    it requires [sourceHasLatestVersionList], passes on an error of that
    step, and else looks the version up again in the cache as it then is,
    failing with the no-such-version error on this second miss. *)
Theorem convertToRevision_algorithm (v : Version) g :
  (∀ r, Cache.toRevision (cache g) v = Some r →
        convertToRevision v g = Ret (r, None) g) ∧
  (Cache.toRevision (cache g) v = None →
   hasState (srcState g) sourceHasLatestVersionList = true →
   convertToRevision v g = Ret (""%string, Some (errNoSuchVersion v)) g) ∧
  (Cache.toRevision (cache g) v = None →
   hasState (srcState g) sourceHasLatestVersionList = false →
   match require (Z.lor sourceIsSetUp sourceHasLatestVersionList) g with
   | Ret (_, Some e) g1 => convertToRevision v g = Ret (""%string, Some e) g1
   | Ret (_, None) g1 =>
       hasState (srcState g1) sourceHasLatestVersionList = true ∧
       convertToRevision v g =
         Ret (match Cache.toRevision (cache g1) v with
              | Some r => (r, None)
              | None => (""%string, Some (errNoSuchVersion v))
              end) g1
   | Panic g1 => convertToRevision v g = Panic g1
   | Spin => False
   end).
Proof.
  split; [|split].
  - intros r Hhit. unfold convertToRevision. rewrite bind_gets, Hhit. reflexivity.
  - intros Hmiss Hhas. unfold convertToRevision.
    rewrite bind_gets, Hmiss, bind_gets, Hhas. reflexivity.
  - intros Hmiss Hhas.
    destruct (require (Z.lor sourceIsSetUp sourceHasLatestVersionList) g)
      as [[st [e|]] g1| g1 |] eqn:Hreq.
    + unfold convertToRevision. rewrite bind_gets, Hmiss, bind_gets, Hhas.
      by rewrite (bind_Ret _ _ _ _ _ Hreq).
    + split.
      * apply require_ok in Hreq as [_ Hincl].
        unfold hasState. apply negb_true_iff, Z.eqb_neq. intros Hz.
        assert (Z.testbit (Z.land (srcState g1) sourceHasLatestVersionList) 3 = true) as Hb.
        { rewrite Z.land_spec. rewrite (Hincl 3) by (done || lia). done. }
        by rewrite Hz in Hb.
      * unfold convertToRevision. rewrite bind_gets, Hmiss, bind_gets, Hhas.
        rewrite (bind_Ret _ _ _ _ _ Hreq), bind_gets.
        by destruct (Cache.toRevision (cache g1) v).
    + unfold convertToRevision. rewrite bind_gets, Hmiss, bind_gets, Hhas.
      by rewrite (bind_Panic _ _ _ _ Hreq).
    + by apply require_never_spins in Hreq.
Qed.

(** C7. [revisionPresentIn] once [sourceIsSetUp] and [sourceExistsLocally]
    have been required: a revision whose versions the cache knows is
    reported present and the adapter is not asked (the world is as the
    requirement left it); otherwise the adapter is asked, its answer is
    returned as it is, and the revision is marked in the cache exactly when
    the answer is a positive one without error.  In particular an absent
    revision comes back as [false] with no error and the cache unchanged. *)
Theorem revisionPresentIn_behaviour (r : Revision) g st g1 :
  require (Z.lor sourceIsSetUp sourceExistsLocally) g = Ret (st, None) g1 →
  (∀ vs, Cache.getVersionsFor (cache g1) r = Some vs →
         revisionPresentIn r g = Ret (true, None) g1) ∧
  (∀ a present err w,
     Cache.getVersionsFor (cache g1) r = None →
     src g1 = Some a →
     Source.revisionPresentIn a r (world g1) = (present, err, w) →
     revisionPresentIn r g =
       Ret (present, err)
           (if bool_decide (err = None) && present
            then setCache (Cache.markRevisionExists r (cache g1)) (setWorld w g1)
            else setWorld w g1)) ∧
  (∀ a w,
     Cache.getVersionsFor (cache g1) r = None →
     src g1 = Some a →
     Source.revisionPresentIn a r (world g1) = (false, None, w) →
     revisionPresentIn r g = Ret (false, None) (setWorld w g1) ∧
     cache (setWorld w g1) = cache g1).
Proof.
  intros Hreq.
  assert (∀ a present err w,
     Cache.getVersionsFor (cache g1) r = None →
     src g1 = Some a →
     Source.revisionPresentIn a r (world g1) = (present, err, w) →
     revisionPresentIn r g =
       Ret (present, err)
           (if bool_decide (err = None) && present
            then setCache (Cache.markRevisionExists r (cache g1)) (setWorld w g1)
            else setWorld w g1)) as Hask.
  { intros a present err w Hmiss Hsrc Hans. unfold revisionPresentIn.
    rewrite (bind_Ret _ _ _ _ _ Hreq), bind_gets, Hmiss.
    rewrite (bind_theSrc _ _ _ Hsrc).
    unfold mbind at 1, M_bind at 1. rewrite direct_spec, Hans. simpl.
    by destruct (bool_decide (err = None) && present). }
  split; [|split].
  - intros vs Hhit. unfold revisionPresentIn.
    rewrite (bind_Ret _ _ _ _ _ Hreq), bind_gets, Hhit. reflexivity.
  - done.
  - intros a w Hmiss Hsrc Hans. split; [|done].
    by rewrite (Hask a false None w).
Qed.

End Operations.

(** C8. The base adapter's [existsUpstream] answers the negation of what
    the repository's [Ping] answers: true exactly when [Ping] says false. *)
Theorem baseVCS_existsUpstream_negates_Ping {W} (bs : BaseVCS.baseVCSSource W) (w : W) :
  (BaseVCS.existsUpstream bs w).1 = negb (BaseVCS.Ping (BaseVCS.r (BaseVCS.crepo bs)) w).1 ∧
  ((BaseVCS.existsUpstream bs w).1 = true ↔
   (BaseVCS.Ping (BaseVCS.r (BaseVCS.crepo bs)) w).1 = false).
Proof.
  unfold BaseVCS.existsUpstream.
  destruct (BaseVCS.Ping (BaseVCS.r (BaseVCS.crepo bs)) w) as [pong w']. simpl.
  split; [done|]. by destruct pong.
Qed.

Section Caching.
Context {W : Type}.
Implicit Types (g : sourceGateway W).

(** A dispatched call touches the record of calls and the world only. *)
Lemma do_frame {A} typ (zero : A) f g r g' :
  do typ zero f g = Ret r g' →
  cache g' = cache g ∧ srcState g' = srcState g ∧ src g' = src g ∧
  calls g' = calls g ++ [typ].
Proof.
  intros Hdo. destruct (do_spec typ zero f g) as (r0 & w & Heq).
  rewrite Heq in Hdo. by injection Hdo as _ <-.
Qed.

Lemma do_returns {A} typ (zero : A) f g : ∃ r g', do typ zero f g = Ret r g'.
Proof. destruct (do_spec typ zero f g) as (r & w & ->). eauto. Qed.

(** A version that was resolved is in the cache afterwards; it was there
    before, or the version list had to be required and the gateway is set
    up. *)
Lemma convertToRevision_resolved v g r g1 :
  convertToRevision v g = Ret (r, None) g1 →
  Cache.toRevision (cache g1) v = Some r ∧
  (g1 = g ∨
   Cache.toRevision (cache g) v = None ∧ Z.testbit (srcState g1) 0 = true).
Proof.
  unfold convertToRevision. rewrite bind_gets.
  destruct (Cache.toRevision (cache g) v) as [r0|] eqn:Hhit.
  { intros [= -> ->]. auto. }
  rewrite bind_gets.
  destruct (hasState (srcState g) sourceHasLatestVersionList); [done|].
  destruct (require (Z.lor sourceIsSetUp sourceHasLatestVersionList) g)
    as [[st [e|]] g2| g2 |] eqn:Hreq.
  - by rewrite (bind_Ret _ _ _ _ _ Hreq).
  - rewrite (bind_Ret _ _ _ _ _ Hreq), bind_gets.
    destruct (Cache.toRevision (cache g2) v) as [r2|] eqn:Hhit2; [|done].
    intros [= -> ->]. split; [done|]. right. split; [done|].
    apply require_ok in Hreq as [_ Hincl]. by apply Hincl.
  - by rewrite (bind_Panic _ _ _ _ Hreq).
  - by rewrite (bind_Spin _ _ _ Hreq).
Qed.

Lemma convertToRevision_hit v g r :
  Cache.toRevision (cache g) v = Some r → convertToRevision v g = Ret (r, None) g.
Proof. intros H. unfold convertToRevision. by rewrite bind_gets, H. Qed.

(** Requiring [sourceIsSetUp] and [sourceExistsLocally] of a gateway that is
    set up leaves the cache alone. *)
Lemma require_local_keeps_cache g st err g' :
  Z.testbit (srcState g) 0 = true →
  require (Z.lor sourceIsSetUp sourceExistsLocally) g = Ret (st, err) g' →
  cache g' = cache g.
Proof.
  intros Hup Hreq.
  pose proof (require_set_up (Z.lor sourceIsSetUp sourceExistsLocally) g Hup) as H.
  rewrite Hreq in H. destruct H as (_ & _ & Hc). apply Hc.
  by rewrite Z.land_spec, andb_false_r.
Qed.

(** C9. When the backend call dispatched by [getManifestAndLock] or by
    [listPackages] comes back with an error (from the supervisor or from
    the adapter), the method returns that error and the cache is the one it
    had when the call was dispatched: no manifest and lock, and no package
    tree, has been stored.  On a gateway that was set up once the version
    was resolved, that is also the cache as the resolution left it. *)
Theorem backend_error_leaves_cache (pr : ProjectRoot) (v : Version) g r g1 st g2 a e :
  convertToRevision v g = Ret (r, None) g1 →
  require (Z.lor sourceIsSetUp sourceExistsLocally) g1 = Ret (st, None) g2 →
  src g2 = Some a →
  (∀ an ml g3,
     Cache.getManifestAndLock (cache g1) r an = None →
     do ctGetManifestAndLock (None, None) (Source.getManifestAndLock a pr r an) g2
       = Ret (ml, Some e) g3 →
     getManifestAndLock pr v an g = Ret (None, None, Some e) g3 ∧
     cache g3 = cache g2) ∧
  (∀ pt g3,
     Cache.getPackageTree (cache g1) r = None →
     do ctListPackages noPackageTree (Source.listPackages a pr r) g2
       = Ret (pt, Some e) g3 →
     listPackages pr v g = Ret (noPackageTree, Some e) g3 ∧
     cache g3 = cache g2) ∧
  (Z.testbit (srcState g1) 0 = true → cache g2 = cache g1).
Proof.
  intros Hconv Hreq Hsrc. split; [|split].
  - intros an ml g3 Hmiss Hdo. split; [|by apply do_frame in Hdo as [? _]].
    unfold getManifestAndLock.
    rewrite (bind_Ret _ _ _ _ _ Hconv), bind_gets, Hmiss.
    rewrite (bind_Ret _ _ _ _ _ Hreq), (bind_theSrc _ _ _ Hsrc).
    by rewrite (bind_Ret _ _ _ _ _ Hdo).
  - intros pt g3 Hmiss Hdo. split; [|by apply do_frame in Hdo as [? _]].
    unfold listPackages.
    rewrite (bind_Ret _ _ _ _ _ Hconv), bind_gets, Hmiss.
    rewrite (bind_Ret _ _ _ _ _ Hreq), (bind_theSrc _ _ _ Hsrc).
    by rewrite (bind_Ret _ _ _ _ _ Hdo).
  - intros Hup. by apply (require_local_keeps_cache g1 st None g2).
Qed.

(** C6. A cached manifest and lock for the resolved revision and the
    analyzer is returned at once: the gateway ends in the very state the
    resolution left, so [sourceExistsLocally] is not required and nothing
    is dispatched.  Hence, on a gateway that is set up or whose cache does
    not yet resolve [v] (every fresh gateway), a call that succeeded can
    be repeated: the second call returns the same pair and changes
    nothing, in particular it dispatches nothing. *)
Theorem getManifestAndLock_cached (pr : ProjectRoot) (v : Version)
    (an : ProjectAnalyzer) g :
  (∀ r g1 m l,
     convertToRevision v g = Ret (r, None) g1 →
     Cache.getManifestAndLock (cache g1) r an = Some (m, l) →
     getManifestAndLock pr v an g = Ret (m, l, None) g1) ∧
  (∀ m l g',
     Z.testbit (srcState g) 0 = true ∨ Cache.toRevision (cache g) v = None →
     getManifestAndLock pr v an g = Ret (m, l, None) g' →
     getManifestAndLock pr v an g' = Ret (m, l, None) g').
Proof.
  assert (∀ g0 r g1 m l,
     convertToRevision v g0 = Ret (r, None) g1 →
     Cache.getManifestAndLock (cache g1) r an = Some (m, l) →
     getManifestAndLock pr v an g0 = Ret (m, l, None) g1) as Hhit.
  { intros g0 r g1 m l Hconv Hget. unfold getManifestAndLock.
    by rewrite (bind_Ret _ _ _ _ _ Hconv), bind_gets, Hget. }
  split; [by apply Hhit|].
  intros m l g' Hstart Hfirst.
  unfold getManifestAndLock in Hfirst.
  destruct (convertToRevision v g) as [[r [e|]] g1| g1 |] eqn:Hconv;
    [ by rewrite (bind_Ret _ _ _ _ _ Hconv) in Hfirst
    | rewrite (bind_Ret _ _ _ _ _ Hconv) in Hfirst
    | by rewrite (bind_Panic _ _ _ _ Hconv) in Hfirst
    | by rewrite (bind_Spin _ _ _ Hconv) in Hfirst ].
  pose proof (convertToRevision_resolved v g r g1 Hconv) as [Hr Hhow].
  rewrite bind_gets in Hfirst.
  destruct (Cache.getManifestAndLock (cache g1) r an) as [[m0 l0]|] eqn:Hget.
  { injection Hfirst as -> -> ->.
    apply (Hhit g' r g' m l); [by apply convertToRevision_hit|done]. }
  assert (Z.testbit (srcState g1) 0 = true) as Hup.
  { destruct Hhow as [->|[_ ?]]; [|done].
    destruct Hstart as [?|Hmiss]; [done|]. congruence. }
  destruct (require (Z.lor sourceIsSetUp sourceExistsLocally) g1)
    as [[st [e|]] g2| g2 |] eqn:Hreq;
    [ by rewrite (bind_Ret _ _ _ _ _ Hreq) in Hfirst
    | rewrite (bind_Ret _ _ _ _ _ Hreq) in Hfirst
    | by rewrite (bind_Panic _ _ _ _ Hreq) in Hfirst
    | by rewrite (bind_Spin _ _ _ Hreq) in Hfirst ].
  pose proof (require_local_keeps_cache g1 st None g2 Hup Hreq) as Hc2.
  destruct (src g2) as [a|] eqn:Hsrc;
    [ rewrite (bind_theSrc _ _ _ Hsrc) in Hfirst
    | unfold mbind, M_bind, theSrc in Hfirst; by rewrite Hsrc in Hfirst ].
  destruct (do ctGetManifestAndLock (None, None)
              (Source.getManifestAndLock a pr r an) g2)
    as [[ml [e|]] g3| g3 |] eqn:Hdo;
    [ by rewrite (bind_Ret _ _ _ _ _ Hdo) in Hfirst
    | rewrite (bind_Ret _ _ _ _ _ Hdo) in Hfirst
    | by rewrite (bind_Panic _ _ _ _ Hdo) in Hfirst
    | by rewrite (bind_Spin _ _ _ Hdo) in Hfirst ].
  apply do_frame in Hdo as (Hc3 & _).
  rewrite bind_modify in Hfirst. injection Hfirst as <- <- <-.
  apply (Hhit _ r).
  - apply convertToRevision_hit. simpl. unfold Cache.toRevision in *. simpl.
    by rewrite Hc3, Hc2.
  - unfold Cache.getManifestAndLock. simpl. by rewrite lookup_insert_eq.
Qed.

End Caching.

Lemma bit_of_16 (j : Z) : 0 <= j → Z.testbit sourceHasLatestLocally j = true → j = 4.
Proof.
  intros Hj Hb. change sourceHasLatestLocally with (2 ^ 4) in Hb.
  rewrite Z.pow2_bits_eqb in Hb by lia. apply Z.eqb_eq in Hb. lia.
Qed.

Section Exporting.
Context {W : Type}.
Implicit Types (g : sourceGateway W).

(** On a gateway that is set up, resolving a version dispatches no export. *)
Lemma convertToRevision_no_export v g :
  Z.testbit (srcState g) 0 = true →
  ends (λ g', ∃ l, calls g' = calls g ++ l ∧ ctExportTree ∉ l)
       (convertToRevision v g).
Proof.
  intros Hup.
  assert (∃ l, calls g = calls g ++ l ∧ ctExportTree ∉ l) as Hnil.
  { exists []. rewrite app_nil_r. split; [done|apply not_elem_of_nil]. }
  unfold convertToRevision. rewrite bind_gets.
  destruct (Cache.toRevision (cache g) v); [done|].
  rewrite bind_gets.
  destruct (hasState (srcState g) sourceHasLatestVersionList); [done|].
  pose proof (require_set_up (Z.lor sourceIsSetUp sourceHasLatestVersionList) g Hup) as H.
  destruct (require (Z.lor sourceIsSetUp sourceHasLatestVersionList) g)
    as [[st [e|]] g1| g1 |] eqn:Hreq.
  - rewrite (bind_Ret _ _ _ _ _ Hreq). by destruct H as (_ & ? & _).
  - rewrite (bind_Ret _ _ _ _ _ Hreq), bind_gets.
    destruct H as (_ & ? & _). by destruct (Cache.toRevision (cache g1) v).
  - rewrite (bind_Panic _ _ _ _ Hreq). by destruct H as (_ & ? & _).
  - done.
Qed.

Lemma convertToRevision_never_spins v g : convertToRevision v g ≠ Spin.
Proof.
  intros Heq.
  pose proof (growing_convertToRevision v g (srcState g) (stateIncl_refl _)) as H.
  by rewrite Heq in H.
Qed.

(** The step of [sourceIsSetUp] is the probe and nothing else. *)
Lemma requireStep_probe_run g :
  requireStep sourceIsSetUp g =
    Ret (try_state (probe g), try_err (probe g)) (applyTry (probe g) g).
Proof. reflexivity. Qed.

(** Asked for [sourceIsSetUp] among other states, [require] dispatches
    the calls of the probe, if it has to run it, and after them no
    export. *)
Lemma require_calls wanted g :
  Z.testbit wanted 0 = true →
  ends (λ g', ∃ l, calls g' = calls g ++ probeCalls g ++ l ∧ ctExportTree ∉ l)
       (require wanted g).
Proof.
  intros Hw0.
  set (todo0 := Z.land (Z.lnot (srcState g)) wanted).
  pose (P := λ g' : sourceGateway W,
          ∃ l, calls g' = calls g ++ probeCalls g ++ l ∧ ctExportTree ∉ l).
  pose (I := λ (i : nat) (todo : sourceState) (g1 : sourceGateway W),
          (i = 0%nat ∧ g1 = g ∧ todo = todo0) ∨ (i ≠ 0%nat ∧ P g1)).
  assert (Z.testbit todo0 0 = false → P g) as Hstart.
  { intros Ht. exists []. split; [|apply not_elem_of_nil].
    unfold probeCalls.
    destruct (Z.testbit (srcState g) 0) eqn:Hs; [by rewrite !app_nil_r|].
    unfold todo0 in Ht. by rewrite Z.land_spec, Z.lnot_spec, Hs, Hw0 in Ht. }
  apply (require_rule I (ends P)); unfold I.
  - intros i g1 [(-> & -> & Ht)|[_ HP]]; [|done]. simpl. apply Hstart.
    by rewrite <- Ht, Z.bits_0.
  - intros i todo g1 Hi [(-> & -> & ->)|[_ HP]] Hne Hc Hz; right; [|done].
    split; [done|]. apply Hstart.
    apply (land_flag_zero todo0 0 0); [lia|lia|done|reflexivity].
  - intros i todo g1 Hi [(-> & -> & ->)|[Hi0 HP]] Hne Hc Hnz.
    + change (flagAt 0) with sourceIsSetUp. rewrite requireStep_probe_run.
      assert (Z.testbit (srcState g) 0 = false) as Hs.
      { pose proof (land_flag_nonzero todo0 0 ltac:(lia) Hnz) as Ht.
        unfold todo0 in Ht. rewrite Z.land_spec, Z.lnot_spec in Ht by lia.
        apply andb_true_iff in Ht as [Ht _]. by apply negb_true_iff in Ht. }
      assert (P (applyTry (probe g) g)) as HP.
      { exists []. split; [|apply not_elem_of_nil].
        unfold probeCalls. rewrite Hs. cbn. by rewrite app_nil_r. }
      destruct (try_err (probe g)) as [e|]; [done|]. right. split; [done|].
      destruct HP as (l & Hl & Hn). by exists l.
    + assert (flagAt i ≠ sourceIsSetUp) as Hn1.
      { intros Heq. apply (flagAt_is_pow2 i 0) in Heq; [|lia..]. lia. }
      pose proof (requireStep_frame (flagAt i) g1) as Hf.
      destruct HP as (l & Hl & Hnl).
      destruct (requireStep (flagAt i) g1) as [[addl err] g1'| g1' |];
        simpl in Hf; [|subst; simpl; by exists l|done].
      destruct Hf as (_ & _ & _ & _ & Hrest).
      destruct (Hrest Hn1) as (_ & (l' & Hl' & Hnl') & _).
      assert (P g1') as HP.
      { exists (l ++ l'). rewrite Hl', Hl, <- !app_assoc. split; [done|].
        by apply not_elem_of_app. }
      destruct err as [e|]; [done|]. right. split; [done|].
      destruct HP as (l0 & Hl0 & Hn0). by exists l0.
  - by left.
Qed.

(** C3 (as amended). [exportVersionTo] first requires [sourceIsSetUp] and
    [sourceExistsLocally] and returns the error if that fails; only then
    does it resolve the version, and if the version does not resolve it
    returns that error in the state the resolution left: nothing is
    dispatched after it, and whatever the gateway, the calls dispatched
    since the call began are those of the probe, when the gateway was not
    set up and the step of [sourceIsSetUp] ran it, followed by calls none
    of which is an export.  With the version resolved it dispatches the
    adapter's export of the resolved revision. *)
Theorem exportVersionTo_order (v : Version) (to : string) g :
  match require (Z.lor sourceIsSetUp sourceExistsLocally) g with
  | Ret (_, Some e) g1 => exportVersionTo v to g = Ret (Some e) g1
  | Ret (_, None) g1 =>
      match convertToRevision v g1 with
      | Ret (_, Some e) g2 =>
          exportVersionTo v to g = Ret (Some e) g2 ∧
          ∃ l, calls g2 = calls g ++ probeCalls g ++ l ∧ ctExportTree ∉ l
      | Ret (r, None) g2 =>
          ∀ a, src g2 = Some a →
            ∃ err g3,
              do ctExportTree tt (errOnly (Source.exportRevisionTo a r to)) g2
                = Ret (tt, err) g3 ∧
              calls g3 = calls g2 ++ [ctExportTree] ∧
              exportVersionTo v to g = Ret err g3
      | Panic g2 => exportVersionTo v to g = Panic g2
      | Spin => False
      end
  | Panic g1 => exportVersionTo v to g = Panic g1
  | Spin => False
  end.
Proof.
  destruct (require (Z.lor sourceIsSetUp sourceExistsLocally) g)
    as [[st [e|]] g1| g1 |] eqn:Hreq.
  - unfold exportVersionTo. by rewrite (bind_Ret _ _ _ _ _ Hreq).
  - destruct (convertToRevision v g1) as [[r [e|]] g2| g2 |] eqn:Hconv.
    + split.
      * unfold exportVersionTo.
        by rewrite (bind_Ret _ _ _ _ _ Hreq), (bind_Ret _ _ _ _ _ Hconv).
      * pose proof (require_calls (Z.lor sourceIsSetUp sourceExistsLocally) g
                      eq_refl) as H1.
        rewrite Hreq in H1. destruct H1 as (l1 & Hl1 & Hn1).
        apply require_ok in Hreq as [_ Hincl].
        pose proof (convertToRevision_no_export v g1
                      (Hincl 0 (Z.le_refl 0) eq_refl)) as H2.
        rewrite Hconv in H2. destruct H2 as (l2 & Hl2 & Hn2).
        exists (l1 ++ l2). rewrite Hl2, Hl1, <- !app_assoc. split; [done|].
        by apply not_elem_of_app.
    + intros a Hsrc.
      destruct (do ctExportTree tt (errOnly (Source.exportRevisionTo a r to)) g2)
        as [[[] err] g3| g3 |] eqn:Hdo.
      * exists err, g3. split; [done|]. split; [by apply do_frame in Hdo as (_ & _ & _ & ?)|].
        unfold exportVersionTo.
        rewrite (bind_Ret _ _ _ _ _ Hreq), (bind_Ret _ _ _ _ _ Hconv).
        by rewrite (bind_theSrc _ _ _ Hsrc), (bind_Ret _ _ _ _ _ Hdo).
      * destruct (do_returns ctExportTree tt
                    (errOnly (Source.exportRevisionTo a r to)) g2) as (? & ? & Heq).
        congruence.
      * destruct (do_returns ctExportTree tt
                    (errOnly (Source.exportRevisionTo a r to)) g2) as (? & ? & Heq).
        congruence.
    + unfold exportVersionTo.
      by rewrite (bind_Ret _ _ _ _ _ Hreq), (bind_Panic _ _ _ _ Hconv).
    + by apply convertToRevision_never_spins in Hconv.
  - unfold exportVersionTo. by rewrite (bind_Panic _ _ _ _ Hreq).
  - by apply require_never_spins in Hreq.
Qed.

(** The step of [sourceHasLatestVersionList], lines 490-499, as the code
    has it: the list is stored when the dispatch has failed and is dropped
    when it has succeeded. *)
Lemma requireStep_version_list g a :
  src g = Some a →
  match do ctListVersions [] (Source.listVersions a) g with
  | Ret (pvl, Some e) g1 =>
      requireStep sourceHasLatestVersionList g =
        Ret (0, Some e) (setCache (Cache.storeVersionMap pvl true (cache g)) g1)
  | Ret (pvl, None) g1 =>
      requireStep sourceHasLatestVersionList g = Ret (0, None) g1 ∧
      cache g1 = cache g
  | _ => False
  end.
Proof.
  intros Hsrc.
  destruct (do ctListVersions [] (Source.listVersions a) g)
    as [[pvl [e|]] g1| g1 |] eqn:Hdo.
  - unfold requireStep. simpl.
    rewrite (bind_theSrc _ _ _ Hsrc), (bind_Ret _ _ _ _ _ Hdo), bind_modify.
    apply do_frame in Hdo as (<- & _). reflexivity.
  - split; [|by apply do_frame in Hdo as (? & _)].
    unfold requireStep. simpl.
    by rewrite (bind_theSrc _ _ _ Hsrc), (bind_Ret _ _ _ _ _ Hdo).
  - destruct (do_returns ctListVersions [] (Source.listVersions a) g) as (? & ? & Heq).
    congruence.
  - destruct (do_returns ctListVersions [] (Source.listVersions a) g) as (? & ? & Heq).
    congruence.
Qed.

End Exporting.

(** * More of the gateway *)

(** ** [require] by hand *)

(** ** Running the loop of [require] by hand *)

Lemma low_bits_only (a n j : Z) : 0 <= a < 2 ^ n → 0 <= n <= j → Z.testbit a j = false.
Proof.
  intros Ha Hj. destruct (decide (a = 0)) as [->|Hne]; [apply Z.bits_0|].
  apply Z.bits_above_log2; [lia|].
  assert (Z.log2 a < n) by (apply Z.log2_lt_pow2; lia). lia.
Qed.

Lemma land_pow2_zero (todo k : Z) :
  0 <= k → Z.testbit todo k = false → Z.land todo (2 ^ k) = 0.
Proof.
  intros Hk Hb. apply Z.bits_inj'. intros j Hj.
  rewrite Z.land_spec, Z.bits_0, Z.pow2_bits_eqb by lia.
  destruct (Z.eqb_spec k j) as [<-|]; [by rewrite Hb|apply andb_false_r].
Qed.

Lemma land_pow2_nonzero (todo k : Z) :
  0 <= k → Z.testbit todo k = true → Z.land todo (2 ^ k) ≠ 0.
Proof.
  intros Hk Hb Hz.
  assert (Z.testbit (Z.land todo (2 ^ k)) k = true) as H
    by (rewrite Z.land_spec, Hb, Z.pow2_bits_true; [done|lia]).
  by rewrite Hz, Z.bits_0 in H.
Qed.

Lemma bit_nonzero (todo k : Z) : Z.testbit todo k = true → todo ≠ 0.
Proof. intros Hb ->. by rewrite Z.bits_0 in Hb. Qed.

(** The wanted bits that are set already are not to do. *)
Lemma land_lnot_incl (st wanted : sourceState) :
  stateIncl wanted st → Z.land (Z.lnot st) wanted = 0.
Proof.
  intros Hincl. apply Z.bits_inj'. intros j Hj.
  rewrite Z.land_spec, Z.lnot_spec, Z.bits_0 by done.
  destruct (Z.testbit wanted j) eqn:Hw; [|apply andb_false_r].
  by rewrite (Hincl j Hj Hw).
Qed.

Section ByHand.
Context {W : Type}.
Implicit Types (g : sourceGateway W).

Lemma requireLoop_done fuel flag g : requireLoop fuel flag 0 g = Ret (0, None) g.
Proof. by destruct fuel. Qed.

Lemma requireLoop_skip fuel flag todo g :
  todo ≠ 0 → Z.land todo flag = 0 →
  requireLoop (S fuel) flag todo g = requireLoop fuel (shl1 flag) todo g.
Proof.
  intros Hne Hz. simpl.
  destruct (Z.eqb_spec todo 0) as [?|_]; [done|]. by rewrite Hz.
Qed.

Lemma requireLoop_fail fuel flag todo g addl e g' :
  todo ≠ 0 → Z.land todo flag ≠ 0 →
  requireStep flag g = Ret (addl, Some e) g' →
  requireLoop (S fuel) flag todo g = Ret (flag, Some e) g'.
Proof.
  intros Hne Hnz Hstep. simpl.
  destruct (Z.eqb_spec todo 0) as [?|_]; [done|].
  destruct (Z.eqb_spec (Z.land todo flag) 0) as [?|_]; [done|].
  by rewrite (bind_Ret _ _ _ _ _ Hstep).
Qed.

Lemma requireLoop_pass fuel flag todo g addl g' :
  todo ≠ 0 → Z.land todo flag ≠ 0 →
  requireStep flag g = Ret (addl, None) g' →
  requireLoop (S fuel) flag todo g =
    requireLoop fuel (shl1 flag) (Z.land todo (Z.lnot (Z.lor flag addl)))
      (setSrcState (Z.lor (srcState g') (Z.lor flag addl)) g').
Proof.
  intros Hne Hnz Hstep. simpl.
  destruct (Z.eqb_spec todo 0) as [?|_]; [done|].
  destruct (Z.eqb_spec (Z.land todo flag) 0) as [?|_]; [done|].
  by rewrite (bind_Ret _ _ _ _ _ Hstep).
Qed.

(** X1. [require] of bits that are all set already does nothing: it
    returns [0, nil] and leaves the gateway, the record of calls and the
    world as they are. *)
Theorem require_satisfied_is_noop (wanted : sourceState) g :
  stateIncl wanted (srcState g) →
  require wanted g = Ret (0, None) g.
Proof.
  intros Hincl. unfold require. rewrite land_lnot_incl by done.
  apply requireLoop_done.
Qed.

(** X2. A [require] that returns without error has set every wanted bit,
    so asking again for the same bits, or for any of them, does nothing. *)
Theorem require_success_then_noop (wanted again : sourceState) g st g' :
  require wanted g = Ret (st, None) g' →
  stateIncl again wanted →
  st = 0 ∧ stateIncl wanted (srcState g') ∧
  require again g' = Ret (0, None) g'.
Proof.
  intros Hreq Hsub. apply require_ok in Hreq as [-> Hincl].
  split; [done|]. split; [done|].
  unfold require. rewrite land_lnot_incl; [apply requireLoop_done|].
  by eapply stateIncl_trans.
Qed.

End ByHand.

Lemma small_index (j : Z) : 0 <= j < 5 → j = 0 ∨ j = 1 ∨ j = 2 ∨ j = 3 ∨ j = 4.
Proof. lia. Qed.

(** A constant below 32 has the bits that computation shows. *)
Ltac bits_of_constant j Hj Hb :=
  let Hlt := fresh in
  destruct (decide (j < 5)) as [Hlt|Hlt];
  [ destruct (small_index j (conj Hj Hlt)) as [-> | [-> | [-> | [-> | ->]]]];
    vm_compute in Hb; try discriminate Hb
  | match type of Hb with
    | Z.testbit ?c _ = _ =>
        rewrite (low_bits_only c 5 j) in Hb
          by first [ lia | vm_compute; split; [discriminate|reflexivity] ]
    end;
    discriminate Hb ].

Lemma todo_cleared (st wanted checked : sourceState) :
  (∀ j, 0 <= j → Z.testbit wanted j = true → Z.testbit st j = false →
        Z.testbit checked j = true) →
  Z.land (Z.land (Z.lnot st) wanted) (Z.lnot checked) = 0.
Proof.
  intros H. apply Z.bits_inj'. intros j Hj.
  rewrite !Z.land_spec, !Z.lnot_spec, Z.bits_0 by done.
  destruct (Z.testbit wanted j) eqn:Hw; [|by rewrite andb_false_r].
  destruct (Z.testbit st j) eqn:Hs; [done|].
  by rewrite (H j Hj Hw Hs).
Qed.

Section OnDisk.
Context {W : Type}.
Implicit Types (g : sourceGateway W).

Lemma step_local_present g a w1 :
  src g = Some a → Source.existsLocally a (world g) = (true, w1) →
  requireStep sourceExistsLocally g = Ret (0, None) (setWorld w1 g).
Proof.
  intros Hsrc Hloc. unfold requireStep. simpl.
  rewrite (bind_theSrc _ _ _ Hsrc).
  unfold mbind at 1, M_bind at 1. rewrite direct_spec, Hloc. reflexivity.
Qed.

Lemma step_local_absent g a w1 :
  src g = Some a → Source.existsLocally a (world g) = (false, w1) →
  requireStep sourceExistsLocally g =
    ('(_, err) ← do ctSourceInit tt (errOnly (Source.initLocal a));
     match err with
     | None => mret (Z.lor 0 sourceHasLatestLocally, None)
     | Some e => mret (0, Some (errFetchFailed (Source.upstreamURL a) e))
     end) (setWorld w1 g).
Proof.
  intros Hsrc Hloc. unfold requireStep. simpl.
  rewrite (bind_theSrc _ _ _ Hsrc).
  unfold mbind at 1, M_bind at 1. rewrite direct_spec, Hloc. reflexivity.
Qed.

End OnDisk.

Section Sync.
Context {W : Type}.
Implicit Types (g : sourceGateway W).

Lemma todo_bit_true (st wanted j : Z) :
  0 <= j → Z.testbit wanted j = true → Z.testbit st j = false →
  Z.testbit (Z.land (Z.lnot st) wanted) j = true.
Proof. intros Hj Hw Hs. by rewrite Z.land_spec, Z.lnot_spec, Hw, Hs. Qed.

Lemma todo_bit_set (st wanted j : Z) :
  0 <= j → Z.testbit st j = true →
  Z.testbit (Z.land (Z.lnot st) wanted) j = false.
Proof. intros Hj Hs. by rewrite Z.land_spec, Z.lnot_spec, Hs. Qed.

Lemma todo_bit_unwanted (st wanted j : Z) :
  0 <= j → Z.testbit wanted j = false →
  Z.testbit (Z.land (Z.lnot st) wanted) j = false.
Proof. intros Hj Hw. by rewrite Z.land_spec, Hw, andb_false_r. Qed.

(** X3. A sync that has to clone does not fetch.  On a gateway that is set
    up and has no clone yet, when the dispatched [initLocal] succeeds,
    [syncLocal] returns nil after that one dispatch: both
    [sourceExistsLocally] and [sourceHasLatestLocally] are set and
    [updateLocal] is never called. *)
Theorem syncLocal_clone_skips_fetch g a w1 w2 :
  src g = Some a →
  Z.testbit (srcState g) 0 = true →
  Z.testbit (srcState g) 2 = false →
  Source.existsLocally a (world g) = (false, w1) →
  refuse (suprvsr g) ctSourceInit w1 = None →
  Source.initLocal a w1 = (None, w2) →
  ∃ g', syncLocal g = Ret None g' ∧
        calls g' = calls g ++ [ctSourceInit] ∧
        world g' = w2 ∧
        srcState g' =
          Z.lor (srcState g) (Z.lor sourceExistsLocally sourceHasLatestLocally) ∧
        cache g' = cache g ∧ src g' = src g.
Proof.
  intros Hsrc Hb0 Hb2 Hloc Hadm Hinit.
  set (wanted := Z.lor (Z.lor sourceIsSetUp sourceExistsLocally) sourceHasLatestLocally).
  set (todo := Z.land (Z.lnot (srcState g)) wanted).
  assert (Z.testbit todo 2 = true) as Ht2 by (by apply todo_bit_true).
  assert (todo ≠ 0) as Hne by (by eapply bit_nonzero).
  eexists. split.
  - unfold syncLocal. unfold mbind at 1, M_bind at 1. unfold require.
    fold wanted. fold todo.
    rewrite requireLoop_skip;
      [|done|apply (land_pow2_zero todo 0); [lia|by apply todo_bit_set]].
    change (shl1 1) with 2.
    rewrite requireLoop_skip;
      [|done|apply (land_pow2_zero todo 1); [lia|by apply todo_bit_unwanted]].
    change (shl1 2) with 4.
    erewrite requireLoop_pass;
      [|done|by apply (land_pow2_nonzero todo 2)|].
    2:{ change 4 with sourceExistsLocally.
        rewrite (step_local_absent g a w1 Hsrc Hloc).
        unfold mbind at 1, M_bind at 1, do. simpl. rewrite Hadm.
        unfold errOnly. rewrite Hinit. reflexivity. }
    unfold todo. rewrite todo_cleared; [rewrite requireLoop_done; reflexivity|].
    intros j Hj Hw Hs. unfold wanted in Hw.
    bits_of_constant j Hj Hw; try reflexivity. congruence.
  - simpl. repeat split; reflexivity.
Qed.

(** X4. When the clone that [syncLocal] dispatches fails, be it refused by
    the supervisor or failed in the adapter, the error comes back wrapped
    with the upstream URL, after that one dispatch and with no bit set: the
    next call will try the clone again. *)
Theorem syncLocal_clone_failure g a w1 u e g1 :
  src g = Some a →
  Z.testbit (srcState g) 0 = true →
  Z.testbit (srcState g) 2 = false →
  Source.existsLocally a (world g) = (false, w1) →
  do ctSourceInit tt (errOnly (Source.initLocal a)) (setWorld w1 g) = Ret (u, Some e) g1 →
  syncLocal g = Ret (Some (errFetchFailed (Source.upstreamURL a) e)) g1 ∧
  srcState g1 = srcState g ∧
  calls g1 = calls g ++ [ctSourceInit].
Proof.
  intros Hsrc Hb0 Hb2 Hloc Hdo.
  set (wanted := Z.lor (Z.lor sourceIsSetUp sourceExistsLocally) sourceHasLatestLocally).
  set (todo := Z.land (Z.lnot (srcState g)) wanted).
  assert (Z.testbit todo 2 = true) as Ht2 by (by apply todo_bit_true).
  assert (todo ≠ 0) as Hne by (by eapply bit_nonzero).
  split; [|by apply do_frame in Hdo as (_ & ? & _ & ?)].
  unfold syncLocal. unfold mbind at 1, M_bind at 1. unfold require.
  fold wanted. fold todo.
  rewrite requireLoop_skip;
    [|done|apply (land_pow2_zero todo 0); [lia|by apply todo_bit_set]].
  change (shl1 1) with 2.
  rewrite requireLoop_skip;
    [|done|apply (land_pow2_zero todo 1); [lia|by apply todo_bit_unwanted]].
  change (shl1 2) with 4.
  erewrite requireLoop_fail; [reflexivity|done|by apply (land_pow2_nonzero todo 2)|].
  change 4 with sourceExistsLocally.
  rewrite (step_local_absent g a w1 Hsrc Hloc).
  rewrite (bind_Ret _ _ _ _ _ Hdo). reflexivity.
Qed.

(** X5. A clone that is already on disk costs nothing: asked whether the
    source exists in the cache, a gateway that is set up answers true
    without dispatching anything, sets [sourceExistsLocally] and does not
    claim [sourceHasLatestLocally]. *)
Theorem checkExistence_local_clone_found g a w1 :
  src g = Some a →
  Z.testbit (srcState g) 0 = true →
  Z.testbit (srcState g) 2 = false →
  Source.existsLocally a (world g) = (true, w1) →
  checkExistence existsInCache g =
    Ret true (setSrcState (Z.lor (srcState g) sourceExistsLocally) (setWorld w1 g)).
Proof.
  intros Hsrc Hb0 Hb2 Hloc.
  set (wanted := Z.lor sourceIsSetUp sourceExistsLocally).
  set (todo := Z.land (Z.lnot (srcState g)) wanted).
  assert (Z.testbit todo 2 = true) as Ht2 by (by apply todo_bit_true).
  assert (todo ≠ 0) as Hne by (by eapply bit_nonzero).
  unfold checkExistence.
  change (negb (Z.land existsInCache existsUpstream =? 0)) with false.
  change (negb (Z.land existsInCache existsInCache =? 0)) with true.
  cbv iota. rewrite bind_mret.
  unfold mbind at 1, M_bind at 1. unfold mbind at 1, M_bind at 1. unfold require.
  fold wanted. fold todo.
  rewrite requireLoop_skip;
    [|done|apply (land_pow2_zero todo 0); [lia|by apply todo_bit_set]].
  change (shl1 1) with 2.
  rewrite requireLoop_skip;
    [|done|apply (land_pow2_zero todo 1); [lia|by apply todo_bit_unwanted]].
  change (shl1 2) with 4.
  erewrite requireLoop_pass;
    [|done|by apply (land_pow2_nonzero todo 2)
     |change 4 with sourceExistsLocally; by apply (step_local_present g a w1)].
  unfold todo. rewrite todo_cleared; [rewrite requireLoop_done; reflexivity|].
  intros j Hj Hw Hs. unfold wanted in Hw.
  bits_of_constant j Hj Hw; try reflexivity. congruence.
Qed.

End Sync.

Section Upstream.
Context {W : Type}.
Implicit Types (g : sourceGateway W).

Lemma step_upstream g a up w1 :
  src g = Some a →
  refuse (suprvsr g) ctSourcePing (world g) = None →
  Source.existsUpstream a (world g) = (up, w1) →
  requireStep sourceExistsUpstream g =
    Ret (0, if up then None else Some (errNotUpstream (Source.upstreamURL a)))
        (setWorld w1 (setCalls (calls g ++ [ctSourcePing]) g)).
Proof.
  intros Hsrc Hadm Hup. unfold requireStep. simpl.
  rewrite (bind_theSrc _ _ _ Hsrc).
  unfold mbind at 1, M_bind at 1, do. simpl. rewrite Hadm, Hup. reflexivity.
Qed.

(** The upstream check of a gateway that is set up, run by hand. *)
Lemma checkExistence_upstream_run g a up w1 :
  src g = Some a →
  Z.testbit (srcState g) 0 = true →
  Z.testbit (srcState g) 1 = false →
  refuse (suprvsr g) ctSourcePing (world g) = None →
  Source.existsUpstream a (world g) = (up, w1) →
  checkExistence existsUpstream g =
    Ret up (setSrcState (if up then Z.lor (srcState g) sourceExistsUpstream
                         else srcState g)
              (setWorld w1 (setCalls (calls g ++ [ctSourcePing]) g))).
Proof.
  intros Hsrc Hb0 Hb1 Hadm Hup.
  set (wanted := Z.lor sourceIsSetUp sourceExistsUpstream).
  set (todo := Z.land (Z.lnot (srcState g)) wanted).
  assert (Z.testbit todo 1 = true) as Ht1 by (by apply todo_bit_true).
  assert (todo ≠ 0) as Hne by (by eapply bit_nonzero).
  pose proof (step_upstream g a up w1 Hsrc Hadm Hup) as Hstep.
  unfold checkExistence.
  change (negb (Z.land existsUpstream existsUpstream =? 0)) with true.
  change (negb (Z.land existsUpstream existsInCache =? 0)) with false.
  cbv iota.
  unfold mbind at 1, M_bind at 1. unfold mbind at 1, M_bind at 1. unfold require.
  fold wanted. fold todo.
  rewrite requireLoop_skip;
    [|done|apply (land_pow2_zero todo 0); [lia|by apply todo_bit_set]].
  change (shl1 1) with 2. change 2 with sourceExistsUpstream at 1.
  destruct up.
  - erewrite requireLoop_pass; [|done|by apply (land_pow2_nonzero todo 1)|exact Hstep].
    unfold todo. rewrite todo_cleared; [rewrite requireLoop_done; reflexivity|].
    intros j Hj Hw Hs. unfold wanted in Hw.
    bits_of_constant j Hj Hw; try reflexivity. congruence.
  - erewrite requireLoop_fail; [|done|by apply (land_pow2_nonzero todo 1)|exact Hstep].
    simpl. by destruct g.
Qed.

(** X6. Asked whether the source exists upstream, a gateway that is set up
    dispatches one ping and answers what the adapter answers.  Only a
    positive answer sets [sourceExistsUpstream]; after a negative one the
    state is as before, so the next call pings again. *)
Theorem checkExistence_upstream_answer g a up w1 :
  src g = Some a →
  Z.testbit (srcState g) 0 = true →
  Z.testbit (srcState g) 1 = false →
  refuse (suprvsr g) ctSourcePing (world g) = None →
  Source.existsUpstream a (world g) = (up, w1) →
  ∃ g', checkExistence existsUpstream g = Ret up g' ∧
        calls g' = calls g ++ [ctSourcePing] ∧
        world g' = w1 ∧
        Z.testbit (srcState g') 1 = up ∧
        cache g' = cache g.
Proof.
  intros Hsrc Hb0 Hb1 Hadm Hup.
  eexists. split; [by apply (checkExistence_upstream_run g a up w1)|].
  cbn [srcState setSrcState calls world cache setWorld setCalls].
  repeat split; try reflexivity.
  destruct up; [|done]. rewrite Z.lor_spec, Hb1. reflexivity.
Qed.

(** X7. With an adapter that takes [existsUpstream] from the base VCS
    adapter, the gateway reports the source as existing upstream exactly
    when the repository does not answer the ping. *)
Theorem checkExistence_upstream_base_adapter g a (bs : BaseVCS.baseVCSSource W) pong w1 :
  src g = Some a →
  Source.existsUpstream a = BaseVCS.existsUpstream bs →
  Z.testbit (srcState g) 0 = true →
  Z.testbit (srcState g) 1 = false →
  refuse (suprvsr g) ctSourcePing (world g) = None →
  BaseVCS.Ping (BaseVCS.r (BaseVCS.crepo bs)) (world g) = (pong, w1) →
  ∃ g', checkExistence existsUpstream g = Ret (negb pong) g' ∧
        Z.testbit (srcState g') 1 = negb pong.
Proof.
  intros Hsrc Hbase Hb0 Hb1 Hadm Hping.
  assert (Source.existsUpstream a (world g) = (negb pong, w1)) as Hup.
  { rewrite Hbase. unfold BaseVCS.existsUpstream. by rewrite Hping. }
  eexists. split; [by apply (checkExistence_upstream_run g a (negb pong) w1)|].
  cbn [srcState setSrcState setWorld setCalls].
  destruct pong; cbn [negb]; [done|]. rewrite Z.lor_spec, Hb1. reflexivity.
Qed.

End Upstream.

Lemma hasState_testbit (st k : Z) : 0 <= k → hasState st (2 ^ k) = Z.testbit st k.
Proof.
  intros Hk. unfold hasState.
  destruct (Z.testbit st k) eqn:Hb.
  - apply negb_true_iff, Z.eqb_neq. by apply land_pow2_nonzero.
  - apply negb_false_iff, Z.eqb_eq. by apply land_pow2_zero.
Qed.

Lemma hasState_list (st : sourceState) :
  hasState st sourceHasLatestVersionList = Z.testbit st 3.
Proof. apply (hasState_testbit st 3). lia. Qed.

Section Settled.
Context {W : Type}.
Implicit Types (g : sourceGateway W).

(** X8. A package tree, once listed, is served from the cache: a cache hit
    for the resolved revision is returned in the state the resolution left,
    and after a successful call a second call dispatches nothing and
    returns the same tree.  The cache is keyed by the revision alone, so
    the second call gets that tree whatever project root it names. *)
Theorem listPackages_cached (pr : ProjectRoot) (v : Version) g :
  (∀ r g1 pt,
     convertToRevision v g = Ret (r, None) g1 →
     Cache.getPackageTree (cache g1) r = Some pt →
     listPackages pr v g = Ret (pt, None) g1) ∧
  (∀ pt g' pr',
     Z.testbit (srcState g) 0 = true ∨ Cache.toRevision (cache g) v = None →
     listPackages pr v g = Ret (pt, None) g' →
     listPackages pr' v g' = Ret (pt, None) g').
Proof.
  assert (∀ pr0 g0 r g1 pt,
     convertToRevision v g0 = Ret (r, None) g1 →
     Cache.getPackageTree (cache g1) r = Some pt →
     listPackages pr0 v g0 = Ret (pt, None) g1) as Hhit.
  { intros pr0 g0 r g1 pt Hconv Hget. unfold listPackages.
    by rewrite (bind_Ret _ _ _ _ _ Hconv), bind_gets, Hget. }
  split; [by apply Hhit|].
  intros pt g' pr' Hstart Hfirst.
  unfold listPackages in Hfirst.
  destruct (convertToRevision v g) as [[r [e|]] g1| g1 |] eqn:Hconv;
    [ by rewrite (bind_Ret _ _ _ _ _ Hconv) in Hfirst
    | rewrite (bind_Ret _ _ _ _ _ Hconv) in Hfirst
    | by rewrite (bind_Panic _ _ _ _ Hconv) in Hfirst
    | by rewrite (bind_Spin _ _ _ Hconv) in Hfirst ].
  pose proof (convertToRevision_resolved v g r g1 Hconv) as [Hr Hhow].
  rewrite bind_gets in Hfirst.
  destruct (Cache.getPackageTree (cache g1) r) as [pt0|] eqn:Hget.
  { injection Hfirst as -> ->.
    apply (Hhit pr' g' r g' pt); [by apply convertToRevision_hit|done]. }
  assert (Z.testbit (srcState g1) 0 = true) as Hup.
  { destruct Hhow as [->|[_ ?]]; [|done].
    destruct Hstart as [?|Hmiss]; [done|]. congruence. }
  destruct (require (Z.lor sourceIsSetUp sourceExistsLocally) g1)
    as [[st [e|]] g2| g2 |] eqn:Hreq;
    [ by rewrite (bind_Ret _ _ _ _ _ Hreq) in Hfirst
    | rewrite (bind_Ret _ _ _ _ _ Hreq) in Hfirst
    | by rewrite (bind_Panic _ _ _ _ Hreq) in Hfirst
    | by rewrite (bind_Spin _ _ _ Hreq) in Hfirst ].
  pose proof (require_local_keeps_cache g1 st None g2 Hup Hreq) as Hc2.
  destruct (src g2) as [a|] eqn:Hsrc;
    [ rewrite (bind_theSrc _ _ _ Hsrc) in Hfirst
    | unfold mbind, M_bind, theSrc in Hfirst; by rewrite Hsrc in Hfirst ].
  destruct (do ctListPackages noPackageTree (Source.listPackages a pr r) g2)
    as [[pt1 [e|]] g3| g3 |] eqn:Hdo;
    [ by rewrite (bind_Ret _ _ _ _ _ Hdo) in Hfirst
    | rewrite (bind_Ret _ _ _ _ _ Hdo) in Hfirst
    | by rewrite (bind_Panic _ _ _ _ Hdo) in Hfirst
    | by rewrite (bind_Spin _ _ _ Hdo) in Hfirst ].
  apply do_frame in Hdo as (Hc3 & _).
  rewrite bind_modify in Hfirst. injection Hfirst as <- <-.
  apply (Hhit pr' _ r).
  - apply convertToRevision_hit. unfold Cache.toRevision in *. simpl.
    by rewrite Hc3, Hc2.
  - unfold Cache.getPackageTree. simpl. by rewrite lookup_insert_eq.
Qed.

(** A failed requirement of the version list leaves its bit unset. *)
Lemma require_list_failure g f e g' :
  Z.testbit (srcState g) 3 = false →
  require (Z.lor sourceIsSetUp sourceHasLatestVersionList) g = Ret (f, Some e) g' →
  Z.testbit (srcState g') 3 = false.
Proof.
  intros Hb3 Hreq.
  set (wanted := Z.lor sourceIsSetUp sourceHasLatestVersionList).
  pose (I := λ (i : nat) (todo : sourceState) (g1 : sourceGateway W),
          (∀ j, 0 <= j → Z.testbit todo j = true →
                Z.testbit wanted j = true ∧ Z.testbit (srcState g1) j = false) ∧
          (i = 0%nat → srcState g1 = srcState g)).
  pose (Q := λ o : outcome W (sourceState * option error),
          match o with
          | Ret (_, Some _) g1 => Z.testbit (srcState g1) 3 = false
          | _ => True
          end).
  enough (Q (require wanted g)) as HQ
    by (unfold wanted in HQ; by rewrite Hreq in HQ).
  apply (require_rule I Q); unfold I, Q.
  - done.
  - intros i todo g1 Hi [Hb Hz] _ _ _. split; [done|lia].
  - intros i todo g1 Hi [Hb Hz] Hne Hc Hnz.
    pose proof (requireStep_frame (flagAt i) g1) as Hf.
    destruct (requireStep (flagAt i) g1) as [[addl [e1|]] g1'| g1' |];
      simpl in Hf; [| |done|done].
    + destruct Hf as (Hst & _). rewrite Hst.
      destruct (decide (i = 0%nat)) as [->|Hi0]; [by rewrite Hz|].
      assert (i < 31)%nat as Hi'.
      { destruct (decide (i = 31%nat)) as [->|]; [|lia]. exfalso. apply Hnz.
        apply Z.bits_inj'. intros j Hj. rewrite Z.land_spec, Z.bits_0.
        destruct (Z.testbit todo j) eqn:Ht; [|done].
        apply Hb in Ht as [Hw _]; [|done].
        unfold wanted in Hw. bits_of_constant j Hj Hw; reflexivity. }
      pose proof (land_flag_nonzero todo i Hi' Hnz) as Hti.
      destruct (Hb (Z.of_nat i) ltac:(lia) Hti) as [Hw Hs].
      unfold wanted in Hw.
      assert (Z.of_nat i = 3) as Hi3.
      { set (j := Z.of_nat i) in *. assert (0 <= j) as Hj by lia.
        assert (j ≠ 0) by lia.
        bits_of_constant j Hj Hw; done. }
      by rewrite Hi3 in Hs.
    + destruct Hf as (Hst & _). split; [|lia].
      intros j Hj Ht. rewrite Z.land_spec, Z.lnot_spec in Ht by done.
      apply andb_true_iff in Ht as [Ht Hn]. apply negb_true_iff in Hn.
      destruct (Hb j Hj Ht) as [Hw Hs]. split; [done|].
      cbn [srcState setSrcState]. by rewrite Z.lor_spec, Hst, Hs, Hn.
  - split; [|done]. intros j Hj Ht.
    rewrite Z.land_spec, Z.lnot_spec in Ht by done.
    apply andb_true_iff in Ht as [Hn Hw]. apply negb_true_iff in Hn. done.
Qed.

(** X9. A resolution settles.  A version that resolved resolves again to
    the same revision without touching anything.  A resolution that failed
    with the version list in place failed because the version is not in
    it: the error is the no-such-version error, and every later attempt
    fails the same way without dispatching anything. *)
Theorem convertToRevision_settles (v : Version) g r err g1 :
  convertToRevision v g = Ret (r, err) g1 →
  (err = None → convertToRevision v g1 = Ret (r, None) g1) ∧
  (err ≠ None → hasState (srcState g1) sourceHasLatestVersionList = true →
   r = ""%string ∧ err = Some (errNoSuchVersion v) ∧
   convertToRevision v g1 = Ret (""%string, Some (errNoSuchVersion v)) g1).
Proof.
  intros Hconv. split.
  - intros ->. apply convertToRevision_resolved in Hconv as [Hr _].
    by apply convertToRevision_hit.
  - intros Herr Hhas. unfold convertToRevision in Hconv.
    rewrite bind_gets in Hconv.
    destruct (Cache.toRevision (cache g) v) as [r0|] eqn:Hmiss.
    { injection Hconv as _ <- _. done. }
    rewrite bind_gets in Hconv.
    destruct (hasState (srcState g) sourceHasLatestVersionList) eqn:Hg.
    { injection Hconv as <- <- <-. repeat split.
      unfold convertToRevision. by rewrite bind_gets, Hmiss, bind_gets, Hg. }
    destruct (require (Z.lor sourceIsSetUp sourceHasLatestVersionList) g)
      as [[st [e|]] g2| g2 |] eqn:Hreq;
      [ rewrite (bind_Ret _ _ _ _ _ Hreq) in Hconv
      | rewrite (bind_Ret _ _ _ _ _ Hreq) in Hconv
      | by rewrite (bind_Panic _ _ _ _ Hreq) in Hconv
      | by rewrite (bind_Spin _ _ _ Hreq) in Hconv ].
    + injection Hconv as <- <- <-.
      rewrite hasState_list in Hhas, Hg.
      apply require_list_failure in Hreq; [congruence|done].
    + rewrite bind_gets in Hconv.
      destruct (Cache.toRevision (cache g2) v) as [r2|] eqn:Hmiss2.
      { injection Hconv as _ <- _. done. }
      injection Hconv as <- <- <-. repeat split.
      unfold convertToRevision. by rewrite bind_gets, Hmiss2, bind_gets, Hhas.
Qed.

End Settled.

Section Listing.
Context {W : Type}.
Implicit Types (g : sourceGateway W).

Lemma listVersions_failed g st e g1 :
  require (Z.lor (Z.lor sourceIsSetUp sourceExistsUpstream)
             sourceHasLatestVersionList) g = Ret (st, Some e) g1 →
  listVersions g = Ret ([], Some e) g1.
Proof. intros Hreq. unfold listVersions. by rewrite (bind_Ret _ _ _ _ _ Hreq). Qed.

Lemma listVersions_listed g st g1 :
  require (Z.lor (Z.lor sourceIsSetUp sourceExistsUpstream)
             sourceHasLatestVersionList) g = Ret (st, None) g1 →
  listVersions g = Ret (Cache.getAllVersions (cache g1), None) g1.
Proof. intros Hreq. unfold listVersions. by rewrite (bind_Ret _ _ _ _ _ Hreq). Qed.

Lemma listVersions_panics g g1 :
  require (Z.lor (Z.lor sourceIsSetUp sourceExistsUpstream)
             sourceHasLatestVersionList) g = Panic g1 →
  listVersions g = Panic g1.
Proof. intros Hreq. unfold listVersions. by rewrite (bind_Panic _ _ _ _ Hreq). Qed.

(** X10. [listVersions] returns the cache's list as it is once the three
    states are set, and nil with an error.  After it has succeeded the
    cache is the authority: a version the cache does not resolve fails at
    once with the no-such-version error, nothing dispatched. *)
Theorem listVersions_then_authoritative g vs err g' :
  listVersions g = Ret (vs, err) g' →
  (err = None →
   vs = Cache.getAllVersions (cache g') ∧
   stateIncl (Z.lor (Z.lor sourceIsSetUp sourceExistsUpstream)
                sourceHasLatestVersionList) (srcState g') ∧
   ∀ v, Cache.toRevision (cache g') v = None →
        convertToRevision v g' = Ret (""%string, Some (errNoSuchVersion v)) g') ∧
  (err ≠ None → vs = []).
Proof.
  intros Hlist.
  destruct (require (Z.lor (Z.lor sourceIsSetUp sourceExistsUpstream)
                       sourceHasLatestVersionList) g)
    as [[st [e|]] g1| g1 |] eqn:Hreq.
  - rewrite (listVersions_failed g st e g1 Hreq) in Hlist.
    injection Hlist as <- <- <-. split; [done|]. done.
  - rewrite (listVersions_listed g st g1 Hreq) in Hlist.
    injection Hlist as <- <- <-. split; [|done]. intros _.
    apply require_ok in Hreq as [_ Hincl].
    split; [done|]. split; [exact Hincl|].
    intros v Hmiss.
    assert (hasState (srcState g1) sourceHasLatestVersionList = true) as Hhas.
    { rewrite hasState_list. apply Hincl; [lia|reflexivity]. }
    unfold convertToRevision.
    by rewrite bind_gets, Hmiss, bind_gets, Hhas.
  - by rewrite (listVersions_panics g g1 Hreq) in Hlist.
  - by apply require_never_spins in Hreq.
Qed.

Lemma sourceURL_failed g st e g1 :
  require sourceIsSetUp g = Ret (st, Some e) g1 →
  sourceURL g = Ret (""%string, Some e) g1.
Proof. intros Hreq. unfold sourceURL. by rewrite (bind_Ret _ _ _ _ _ Hreq). Qed.

Lemma sourceURL_answered g st g1 :
  require sourceIsSetUp g = Ret (st, None) g1 →
  sourceURL g = match src g1 with
                | Some a => Ret (Source.upstreamURL a, None) g1
                | None => Panic g1
                end.
Proof.
  intros Hreq. unfold sourceURL. rewrite (bind_Ret _ _ _ _ _ Hreq).
  unfold mbind, M_bind, theSrc. by destruct (src g1).
Qed.

Lemma sourceURL_panics g g1 :
  require sourceIsSetUp g = Panic g1 → sourceURL g = Panic g1.
Proof. intros Hreq. unfold sourceURL. by rewrite (bind_Panic _ _ _ _ Hreq). Qed.

(** X11. [sourceURL] answers the URL of the adapter the gateway holds once
    it is set up, and a second call gives the same answer and changes
    nothing: the probe runs once. *)
Theorem sourceURL_stable g u g' :
  sourceURL g = Ret (u, None) g' →
  Z.testbit (srcState g') 0 = true ∧
  (∃ a, src g' = Some a ∧ u = Source.upstreamURL a) ∧
  sourceURL g' = Ret (u, None) g'.
Proof.
  intros Hurl.
  destruct (require sourceIsSetUp g) as [[st [e|]] g1| g1 |] eqn:Hreq.
  - by rewrite (sourceURL_failed g st e g1 Hreq) in Hurl.
  - rewrite (sourceURL_answered g st g1 Hreq) in Hurl.
    destruct (src g1) as [a|] eqn:Hsrc; [|done].
    injection Hurl as <- <-.
    apply require_ok in Hreq as [_ Hincl].
    split; [by apply Hincl|]. split; [by exists a|].
    assert (require sourceIsSetUp g1 = Ret (0, None) g1) as Hnoop.
    { unfold require. rewrite land_lnot_incl by done. apply requireLoop_done. }
    by rewrite (sourceURL_answered g1 0 g1 Hnoop), Hsrc.
  - by rewrite (sourceURL_panics g g1 Hreq) in Hurl.
  - by apply require_never_spins in Hreq.
Qed.

(** X12. An error comes with empty hands: whenever [convertToRevision],
    [getManifestAndLock], [listPackages] or [listVersions] returns an
    error, the values beside it are the zero values (the empty revision,
    nil manifest and lock, the empty package tree, the nil list). *)
Theorem errors_carry_zero_values (pr : ProjectRoot) (v : Version)
    (an : ProjectAnalyzer) g e :
  (∀ r g', convertToRevision v g = Ret (r, Some e) g' → r = ""%string) ∧
  (∀ m l g', getManifestAndLock pr v an g = Ret (m, l, Some e) g' →
             m = None ∧ l = None) ∧
  (∀ pt g', listPackages pr v g = Ret (pt, Some e) g' → pt = noPackageTree) ∧
  (∀ vs g', listVersions g = Ret (vs, Some e) g' → vs = []).
Proof.
  assert (∀ g0 r g', convertToRevision v g0 = Ret (r, Some e) g' → r = ""%string)
    as Hconv.
  { intros g0 r g' H. unfold convertToRevision in H. rewrite bind_gets in H.
    destruct (Cache.toRevision (cache g0) v); [done|].
    rewrite bind_gets in H.
    destruct (hasState (srcState g0) sourceHasLatestVersionList);
      [by injection H as <- _ _|].
    destruct (require (Z.lor sourceIsSetUp sourceHasLatestVersionList) g0)
      as [[st [e1|]] g1| g1 |] eqn:Hreq;
      [ rewrite (bind_Ret _ _ _ _ _ Hreq) in H
      | rewrite (bind_Ret _ _ _ _ _ Hreq) in H
      | by rewrite (bind_Panic _ _ _ _ Hreq) in H
      | by rewrite (bind_Spin _ _ _ Hreq) in H ].
    - by injection H as <- _ _.
    - rewrite bind_gets in H.
      destruct (Cache.toRevision (cache g1) v); [done|].
      by injection H as <- _ _. }
  split; [by apply Hconv|]. split; [|split].
  - intros m l g' H. unfold getManifestAndLock in H.
    destruct (convertToRevision v g) as [[r [e1|]] g1| g1 |] eqn:Hc;
      [ rewrite (bind_Ret _ _ _ _ _ Hc) in H
      | rewrite (bind_Ret _ _ _ _ _ Hc) in H
      | by rewrite (bind_Panic _ _ _ _ Hc) in H
      | by rewrite (bind_Spin _ _ _ Hc) in H ].
    { by injection H as <- <- _ _. }
    rewrite bind_gets in H.
    destruct (Cache.getManifestAndLock (cache g1) r an) as [[m0 l0]|]; [done|].
    destruct (require (Z.lor sourceIsSetUp sourceExistsLocally) g1)
      as [[st [e1|]] g2| g2 |] eqn:Hreq;
      [ rewrite (bind_Ret _ _ _ _ _ Hreq) in H
      | rewrite (bind_Ret _ _ _ _ _ Hreq) in H
      | by rewrite (bind_Panic _ _ _ _ Hreq) in H
      | by rewrite (bind_Spin _ _ _ Hreq) in H ].
    { by injection H as <- <- _ _. }
    destruct (src g2) as [a|] eqn:Hsrc;
      [ rewrite (bind_theSrc _ _ _ Hsrc) in H
      | unfold mbind, M_bind, theSrc in H; by rewrite Hsrc in H ].
    destruct (do ctGetManifestAndLock (None, None)
                (Source.getManifestAndLock a pr r an) g2)
      as [[ml [e1|]] g3| g3 |] eqn:Hdo;
      [ rewrite (bind_Ret _ _ _ _ _ Hdo) in H
      | rewrite (bind_Ret _ _ _ _ _ Hdo) in H
      | by rewrite (bind_Panic _ _ _ _ Hdo) in H
      | by rewrite (bind_Spin _ _ _ Hdo) in H ].
    + by injection H as <- <- _ _.
    + rewrite bind_modify in H. done.
  - intros pt g' H. unfold listPackages in H.
    destruct (convertToRevision v g) as [[r [e1|]] g1| g1 |] eqn:Hc;
      [ rewrite (bind_Ret _ _ _ _ _ Hc) in H
      | rewrite (bind_Ret _ _ _ _ _ Hc) in H
      | by rewrite (bind_Panic _ _ _ _ Hc) in H
      | by rewrite (bind_Spin _ _ _ Hc) in H ].
    { by injection H as <- _ _. }
    rewrite bind_gets in H.
    destruct (Cache.getPackageTree (cache g1) r) as [pt0|]; [done|].
    destruct (require (Z.lor sourceIsSetUp sourceExistsLocally) g1)
      as [[st [e1|]] g2| g2 |] eqn:Hreq;
      [ rewrite (bind_Ret _ _ _ _ _ Hreq) in H
      | rewrite (bind_Ret _ _ _ _ _ Hreq) in H
      | by rewrite (bind_Panic _ _ _ _ Hreq) in H
      | by rewrite (bind_Spin _ _ _ Hreq) in H ].
    { by injection H as <- _ _. }
    destruct (src g2) as [a|] eqn:Hsrc;
      [ rewrite (bind_theSrc _ _ _ Hsrc) in H
      | unfold mbind, M_bind, theSrc in H; by rewrite Hsrc in H ].
    destruct (do ctListPackages noPackageTree (Source.listPackages a pr r) g2)
      as [[pt1 [e1|]] g3| g3 |] eqn:Hdo;
      [ rewrite (bind_Ret _ _ _ _ _ Hdo) in H
      | rewrite (bind_Ret _ _ _ _ _ Hdo) in H
      | by rewrite (bind_Panic _ _ _ _ Hdo) in H
      | by rewrite (bind_Spin _ _ _ Hdo) in H ].
    + by injection H as <- _ _.
    + rewrite bind_modify in H. done.
  - intros vs g' H.
    destruct (require (Z.lor (Z.lor sourceIsSetUp sourceExistsUpstream)
                         sourceHasLatestVersionList) g)
      as [[st [e1|]] g1| g1 |] eqn:Hreq.
    + rewrite (listVersions_failed g st e1 g1 Hreq) in H. by injection H as <- _ _.
    + by rewrite (listVersions_listed g st g1 Hreq) in H.
    + by rewrite (listVersions_panics g g1 Hreq) in H.
    + by apply require_never_spins in Hreq.
Qed.

End Listing.

(** ** No method panics *)

Section NoPanic.
Context {W : Type}.
Implicit Types (g : sourceGateway W).

Lemma returns_ret {A} (P : sourceGateway W → Prop) (a : A) Q :
  (∀ g, P g → Q a g) → returns P (mret a) Q.
Proof. intros H g HP. by apply H. Qed.

Lemma returns_bind {A B} (P : sourceGateway W → Prop) (m : M A) (f : A → M B) R Q :
  returns P m R → (∀ a, returns (R a) (f a) Q) → returns P (m ≫= f) Q.
Proof.
  intros Hm Hf g HP. specialize (Hm g HP). unfold mbind, M_bind.
  destruct (m g) as [a g1| g1 |]; [|done|done]. by apply Hf.
Qed.

Lemma returns_weaken {A} (P P' : sourceGateway W → Prop) (m : M A) Q Q' :
  returns P' m Q' → (∀ g, P g → P' g) → (∀ a g, Q' a g → Q a g) → returns P m Q.
Proof.
  intros Hm HP HQ g Hg. specialize (Hm g (HP g Hg)).
  destruct (m g); [by apply HQ|done|done].
Qed.

Lemma requireStep_probe g :
  requireStep sourceIsSetUp g =
    Ret (try_state (try (maybe g) (cachedir g) (cache g) (suprvsr g) (world g)),
         try_err (try (maybe g) (cachedir g) (cache g) (suprvsr g) (world g)))
        (applyTry (try (maybe g) (cachedir g) (cache g) (suprvsr g) (world g)) g).
Proof. reflexivity. Qed.

Lemma requireStep_with_src flag g :
  is_Some (src g) → flag ≠ sourceIsSetUp → ∃ r g', requireStep flag g = Ret r g'.
Proof.
  intros [a Hsrc] Hn1.
  destruct (decide (flag = sourceExistsLocally)) as [->|Hn4].
  { destruct (Source.existsLocally a (world g)) as [[] w1] eqn:Hloc.
    - rewrite (step_local_present g a w1 Hsrc Hloc). eauto.
    - rewrite (step_local_absent g a w1 Hsrc Hloc).
      destruct (do_returns ctSourceInit tt (errOnly (Source.initLocal a))
                  (setWorld w1 g)) as ([[] e] & g1 & Hdo).
      rewrite (bind_Ret _ _ _ _ _ Hdo). destruct e; eauto. }
  unfold requireStep.
  destruct (Z.eqb_spec flag sourceIsSetUp) as [?|_]; [done|].
  destruct (Z.eqb_spec flag sourceExistsUpstream) as [_|_].
  { rewrite (bind_theSrc _ _ _ Hsrc).
    edestruct (do_returns (A := unit) (W := W) ctSourcePing tt) as ([[] e] & g1 & Hdo).
    rewrite (bind_Ret _ _ _ _ _ Hdo). eauto. }
  destruct (Z.eqb_spec flag sourceExistsLocally) as [?|_]; [done|].
  destruct (Z.eqb_spec flag sourceHasLatestVersionList) as [_|_].
  { rewrite (bind_theSrc _ _ _ Hsrc).
    edestruct (do_returns (W := W) ctListVersions ([] : list PairedVersion))
      as ([pvl e] & g1 & Hdo).
    rewrite (bind_Ret _ _ _ _ _ Hdo). destruct e; eauto. }
  destruct (Z.eqb_spec flag sourceHasLatestLocally) as [_|_].
  { rewrite (bind_theSrc _ _ _ Hsrc).
    edestruct (do_returns (A := unit) (W := W) ctSourceFetch tt) as ([[] e] & g1 & Hdo).
    rewrite (bind_Ret _ _ _ _ _ Hdo). eauto. }
  eauto.
Qed.

(** [require] of a safe gateway, asked for [sourceIsSetUp] or finding it
    set, returns; without error the gateway is set up, and safe at any
    rate. *)
Lemma require_safe wanted g :
  safe g →
  Z.testbit wanted 0 = true ∨ Z.testbit (srcState g) 0 = true →
  match require wanted g with
  | Ret (_, None) g' => safeUp g'
  | Ret (_, Some _) g' => safe g' ∧ (Z.testbit (srcState g) 0 = true → safeUp g')
  | _ => False
  end.
Proof.
  intros Hsafe Hask.
  pose (I := λ (i : nat) (todo : sourceState) (g1 : sourceGateway W),
          safe g1 ∧
          (∀ j, 0 <= j → Z.testbit todo j = true → Z.testbit (srcState g1) j = false) ∧
          (Z.testbit (srcState g1) 0 = true ∨ Z.testbit todo 0 = true) ∧
          (Z.testbit (srcState g) 0 = true → Z.testbit (srcState g1) 0 = true)).
  pose (Q := λ o : outcome W (sourceState * option error),
          match o with
          | Ret (_, None) g' => safeUp g'
          | Ret (_, Some _) g' =>
              safe g' ∧ (Z.testbit (srcState g) 0 = true → safeUp g')
          | _ => False
          end).
  change (Q (require wanted g)).
  apply (require_rule I Q); unfold I, Q.
  - intros _ g1 (Hs & _ & [Hup|Ht] & _); [by split|by rewrite Z.bits_0 in Ht].
  - auto.
  - intros i todo g1 Hi (Hs & Hb & Hor & Hmono) Hne Hc Hnz.
    destruct (decide (flagAt i = sourceIsSetUp)) as [Heq|Hn1].
    + (* the probe *)
      assert (i = 0%nat) as -> by (apply (flagAt_is_pow2 i 0) in Heq; lia).
      assert (Z.testbit todo 0 = true) as Ht0
        by (apply (land_flag_nonzero todo 0); [lia|done]).
      pose proof (Hb 0 (Z.le_refl 0) Ht0) as Hs0.
      rewrite Heq, requireStep_probe.
      set (t := try (maybe g1) (cachedir g1) (cache g1) (suprvsr g1) (world g1)).
      destruct Hs as [Hwf Hprobe].
      destruct (try_err t) as [e|] eqn:Herr.
      * split; [split; [|done]|].
        -- intros Hbit. cbn [srcState applyTry] in Hbit. congruence.
        -- intros Hg. specialize (Hmono Hg). congruence.
      * assert (is_Some (try_src t)) as Hsome by (by apply Hprobe).
        split; [split; [by intros _|done]|]. split; [|split].
        -- intros j Hj Ht. rewrite Z.land_spec, Z.lnot_spec in Ht by done.
           apply andb_true_iff in Ht as [Ht Hn]. apply negb_true_iff in Hn.
           cbn [srcState setSrcState applyTry].
           by rewrite Z.lor_spec, (Hb j Hj Ht), Hn.
        -- left. cbn [srcState setSrcState applyTry].
           rewrite !Z.lor_spec. by rewrite orb_true_r.
        -- intros _. cbn [srcState setSrcState applyTry].
           rewrite !Z.lor_spec. by rewrite orb_true_r.
    + (* a step on the adapter *)
      assert (i ≠ 0%nat) as Hi0 by (intros ->; by apply Hn1).
      assert (Z.testbit todo 0 = false) as Ht0 by (apply Hc; [lia|left; lia]).
      assert (Z.testbit (srcState g1) 0 = true) as Hup
        by (by destruct Hor as [?|?]; [|congruence]).
      destruct Hs as [Hwf Hprobe].
      destruct (requireStep_with_src (flagAt i) g1 (Hwf Hup) Hn1) as (r & g1' & Hstep).
      pose proof (requireStep_frame (flagAt i) g1) as Hf. rewrite Hstep in *.
      destruct r as [addl err]. simpl in Hf.
      destruct Hf as (Hst & _ & Hmb & _ & Hrest).
      destruct (Hrest Hn1) as (Hsrc' & _).
      assert (safe g1') as Hs'.
      { split; [|by rewrite Hmb]. intros _. rewrite Hsrc'. by apply Hwf. }
      destruct err as [e|].
      * split; [done|]. intros _. split; [done|congruence].
      * split; [|split; [|split]].
        -- destruct Hs' as [Hwf' Hp']. split; [|done]. intros _.
           cbn [src setSrcState]. rewrite Hsrc'. by apply Hwf.
        -- intros j Hj Ht. rewrite Z.land_spec, Z.lnot_spec in Ht by done.
           apply andb_true_iff in Ht as [Ht Hn]. apply negb_true_iff in Hn.
           cbn [srcState setSrcState].
           by rewrite Z.lor_spec, Hst, (Hb j Hj Ht), Hn.
        -- left. cbn [srcState setSrcState]. by rewrite Z.lor_spec, Hst, Hup.
        -- intros _. cbn [srcState setSrcState]. by rewrite Z.lor_spec, Hst, Hup.
  - split; [done|]. split; [|split; [|done]].
    + intros j Hj Ht. rewrite Z.land_spec, Z.lnot_spec in Ht by done.
      apply andb_true_iff in Ht as [Hn _]. by apply negb_true_iff in Hn.
    + destruct (Z.testbit (srcState g) 0) eqn:Hs0; [by left|right].
      destruct Hask as [Hw|?]; [|done].
      by rewrite Z.land_spec, Z.lnot_spec, Hs0, Hw.
Qed.

Lemma returns_require_asked wanted :
  Z.testbit wanted 0 = true →
  returns (W := W) safe (require wanted)
    (λ r g', match r.2 with None => safeUp g' | Some _ => safe g' end).
Proof.
  intros Hw g Hs. pose proof (require_safe wanted g Hs (or_introl Hw)) as H.
  destruct (require wanted g) as [[st [e|]] g'| |]; [|done..]. by destruct H.
Qed.

Lemma returns_require_up wanted :
  returns (W := W) safeUp (require wanted) (λ _ g', safeUp g').
Proof.
  intros g [Hs Hup]. pose proof (require_safe wanted g Hs (or_intror Hup)) as H.
  destruct (require wanted g) as [[st [e|]] g'| |]; [|done..]. destruct H as [_ H].
  by apply H.
Qed.

Lemma framed_do {A} typ (zero : A) f : framed (W := W) (do typ zero f).
Proof. intros g. destruct (do_spec typ zero f g) as (r & w & ->). by eexists _, _. Qed.

Lemma framed_direct {A} (f : W → A * W) : framed (direct f).
Proof. intros g. rewrite direct_spec. by eexists _, _. Qed.

Lemma framed_gets {A} (f : sourceGateway W → A) : framed (gets f).
Proof. intros g. by eexists _, _. Qed.

Lemma framed_setCache (c : sourceGateway W → singleSourceCache) :
  framed (modify (λ g, setCache (c g) g)).
Proof. intros g. by eexists _, _. Qed.

Lemma framed_ret {A} (a : A) : framed (W := W) (mret a).
Proof. intros g. by eexists _, _. Qed.

Lemma returns_framed_safe {A} (m : M A) :
  framed m → returns (W := W) safe m (λ _ g', safe g').
Proof.
  intros Hm g [Hwf Hp]. destruct (Hm g) as (a & g' & -> & Hst & Hsrc & Hmb).
  split; [|by rewrite Hmb]. intros Hb. rewrite Hsrc. apply Hwf. by rewrite <- Hst.
Qed.

Lemma returns_framed_up {A} (m : M A) :
  framed m → returns (W := W) safeUp m (λ _ g', safeUp g').
Proof.
  intros Hm g [[Hwf Hp] Hup]. destruct (Hm g) as (a & g' & -> & Hst & Hsrc & Hmb).
  split; [|by rewrite Hst]. split; [|by rewrite Hmb].
  intros Hb. rewrite Hsrc. apply Hwf. by rewrite <- Hst.
Qed.

Lemma returns_theSrc :
  returns (W := W) safeUp theSrc (λ _ g', safeUp g').
Proof.
  intros g [[Hwf Hp] Hup]. unfold theSrc.
  destruct (Hwf Hup) as [a ->]. done.
Qed.

Lemma safeUp_safe g : safeUp g → safe g.
Proof. by intros [? _]. Qed.

Ltac returns_tac :=
  repeat match goal with
    | |- returns _ (mret _) _ =>
        apply returns_ret; cbv beta; solve [auto using safeUp_safe]
    | |- returns safeUp theSrc _ => apply returns_theSrc
    | |- returns safeUp (require _) _ => apply returns_require_up
    | |- returns safe (require _) _ => apply returns_require_asked; reflexivity
    | |- returns safe (do _ _ _) _ => apply returns_framed_safe, framed_do
    | |- returns safeUp (do _ _ _) _ => apply returns_framed_up, framed_do
    | |- returns safe (direct _) _ => apply returns_framed_safe, framed_direct
    | |- returns safeUp (direct _) _ => apply returns_framed_up, framed_direct
    | |- returns safe (gets _) _ => apply returns_framed_safe, framed_gets
    | |- returns safeUp (gets _) _ => apply returns_framed_up, framed_gets
    | |- returns safe (modify _) _ => apply returns_framed_safe, framed_setCache
    | |- returns safeUp (modify _) _ => apply returns_framed_up, framed_setCache
    | |- returns _ (match ?x with _ => _ end) _ => destruct x
    | |- returns (match ?x with _ => _ end) _ _ => destruct x; cbn [snd]
    | |- returns (match ?x.2 with _ => _ end) _ _ => destruct x; cbn [snd]
    end.

(** After [require] of [sourceIsSetUp]: go on set up, or stop safe. *)
Ltac after_require :=
  eapply (returns_bind safe _ _
            (λ r g', match r.2 with None => safeUp g' | Some _ => safe g' end));
  [returns_tac|intros [? [?|]]; cbn [snd]].

Ltac then_safe0 lem :=
  eapply (returns_bind safe _ _ (λ _ g', safe g')); [apply lem|intros ?; returns_tac].
Ltac then_up := eapply (returns_bind safeUp _ _ (λ _ g', safeUp g')); [returns_tac|intros ?].
Ltac then_safe := eapply (returns_bind safe _ _ (λ _ g', safe g')); [returns_tac|intros ?].

Lemma returns_convert_safe v :
  returns (W := W) safe (convertToRevision v) (λ _ g', safe g').
Proof.
  unfold convertToRevision. then_safe. returns_tac. then_safe. returns_tac.
  after_require; [returns_tac|]. then_up. returns_tac.
Qed.

Lemma returns_convert_up v :
  returns (W := W) safeUp (convertToRevision v) (λ _ g', safeUp g').
Proof.
  unfold convertToRevision. then_up. returns_tac. then_up. returns_tac.
  then_up. returns_tac. then_up. returns_tac.
Qed.

Ltac then_convert :=
  first
    [ eapply (returns_bind safe _ _ (λ _ g', safe g'));
      [apply returns_convert_safe|intros ?]
    | eapply (returns_bind safeUp _ _ (λ _ g', safeUp g'));
      [apply returns_convert_up|intros ?] ].

Ltac finish_up := repeat (returns_tac; try then_up); returns_tac.

Lemma returns_sourceURL : returns (W := W) safe sourceURL (λ _ g', safe g').
Proof. unfold sourceURL. after_require; [returns_tac|finish_up]. Qed.

Lemma returns_syncLocal : returns (W := W) safe syncLocal (λ _ g', safe g').
Proof. unfold syncLocal. after_require; returns_tac. Qed.

Lemma returns_checkExistence ex :
  returns (W := W) safe (checkExistence ex) (λ _ g', safe g').
Proof.
  unfold checkExistence.
  eapply (returns_bind safe _ _ (λ _ g', safe g')).
  { destruct (negb (Z.land ex existsUpstream =? 0)); [|returns_tac].
    after_require; returns_tac. }
  intros [e|]; [returns_tac|].
  eapply (returns_bind safe _ _ (λ _ g', safe g')).
  { destruct (negb (Z.land ex existsInCache =? 0)); [|returns_tac].
    after_require; returns_tac. }
  intros [e|]; returns_tac.
Qed.

Lemma returns_listVersions : returns (W := W) safe listVersions (λ _ g', safe g').
Proof. unfold listVersions. after_require; [returns_tac|finish_up]. Qed.

Lemma returns_revisionPresentIn r :
  returns (W := W) safe (revisionPresentIn r) (λ _ g', safe g').
Proof.
  unfold revisionPresentIn. after_require; [returns_tac|].
  then_up. returns_tac. then_up. then_up. returns_tac.
  eapply (returns_bind safeUp _ _ (λ _ g', safeUp g')); [|intros ?; returns_tac].
  destruct (bool_decide _ && _); returns_tac.
Qed.

Lemma returns_exportVersionTo v to :
  returns (W := W) safe (exportVersionTo v to) (λ _ g', safe g').
Proof.
  unfold exportVersionTo. after_require; [returns_tac|].
  then_convert. finish_up.
Qed.

Lemma returns_getManifestAndLock pr v an :
  returns (W := W) safe (getManifestAndLock pr v an) (λ _ g', safe g').
Proof.
  unfold getManifestAndLock. then_convert. returns_tac.
  then_safe. returns_tac. after_require; [returns_tac|]. finish_up.
Qed.

Lemma returns_listPackages pr v :
  returns (W := W) safe (listPackages pr v) (λ _ g', safe g').
Proof.
  unfold listPackages. then_convert. returns_tac.
  then_safe. returns_tac. after_require; [returns_tac|]. finish_up.
Qed.

Lemma returns_run o : asksSetUp o → returns (W := W) safe (run o) (λ _ g', safe g').
Proof.
  intros Hask. destruct o; cbn [run].
  - eapply (returns_bind safe _ _
              (λ r g', match r.2 with None => safeUp g' | Some _ => safe g' end));
      [by apply returns_require_asked|intros [? [?|]]; cbn [snd]; returns_tac].
  - then_safe0 returns_sourceURL.
  - then_safe0 returns_syncLocal.
  - then_safe0 (returns_checkExistence ex).
  - then_safe0 returns_listVersions.
  - then_safe0 (returns_revisionPresentIn r).
  - then_safe0 (returns_convert_safe v).
  - then_safe0 (returns_listPackages pr v).
  - then_safe0 (returns_getManifestAndLock pr v an).
  - then_safe0 (returns_exportVersionTo v to).
Qed.

Lemma returns_runAll os :
  Forall asksSetUp os → returns (W := W) safe (runAll os) (λ _ g', safe g').
Proof.
  induction 1 as [|o os Ho _ IH]; cbn [runAll]; [returns_tac|].
  eapply (returns_bind safe _ _ (λ _ g', safe g')); [by apply returns_run|].
  intros []. apply IH.
Qed.

(** X13. No method dereferences a nil adapter.  On a gateway whose set-up
    bit is backed by an adapter (a fresh gateway is one), with a probe that
    hands back an adapter whenever it reports no error, every sequence of
    methods returns: none panics, none loops for ever, and the gateway is
    left in the same condition.  Every method asks for [sourceIsSetUp]
    before it touches the adapter; [require] itself is covered when asked
    for that bit. *)
Theorem methods_never_panic (os : list operation) g :
  wellFormed g → soundProbe (maybe g) → Forall asksSetUp os →
  ∃ g', runAll os g = Ret tt g' ∧ wellFormed g' ∧ soundProbe (maybe g').
Proof.
  intros Hwf Hp Hos. pose proof (returns_runAll os Hos g (conj Hwf Hp)) as H.
  destruct (runAll os g) as [[] g'| |]; [|done..]. by exists g'.
Qed.

End NoPanic.

(** ** The gateway over the base adapter *)

Section BaseAdapter.
Context {W : Type}.
Implicit Types (g : sourceGateway W).

Lemma revisionPresentIn_asks (r : Revision) g st g1 a :
  require (Z.lor sourceIsSetUp sourceExistsLocally) g = Ret (st, None) g1 →
  src g1 = Some a →
  Cache.getVersionsFor (cache g1) r = None →
  revisionPresentIn r g =
    let '(present, err, w) := Source.revisionPresentIn a r (world g1) in
    Ret (present, err)
      (if bool_decide (err = None) && present
       then setCache (Cache.markRevisionExists r (cache g1)) (setWorld w g1)
       else setWorld w g1).
Proof.
  intros Hreq Hsrc Hmiss. unfold revisionPresentIn.
  rewrite (bind_Ret _ _ _ _ _ Hreq). cbn beta iota.
  rewrite bind_gets, Hmiss.
  unfold mbind, M_bind, theSrc, direct, modify, mret, M_ret. rewrite Hsrc.
  destruct (Source.revisionPresentIn a r (world g1)) as [[present err] w].
  by destruct (bool_decide (err = None) && present).
Qed.

(** X14. With an adapter that takes [revisionPresentIn] from the base VCS
    adapter, the gateway's [revisionPresentIn] cannot fail once its
    requirements are met: on a cache miss it answers what [IsReference]
    says, with a nil error, and marks the revision in the cache exactly
    when the answer is true. *)
Theorem revisionPresentIn_base_adapter (r : Revision) g st g1 a
    (bs : BaseVCS.baseVCSSource W) known w1 :
  require (Z.lor sourceIsSetUp sourceExistsLocally) g = Ret (st, None) g1 →
  src g1 = Some a →
  Source.revisionPresentIn a = BaseVCS.revisionPresentIn bs →
  Cache.getVersionsFor (cache g1) r = None →
  BaseVCS.IsReference (BaseVCS.r (BaseVCS.crepo bs)) r (world g1) = (known, w1) →
  revisionPresentIn r g =
    Ret (known, None)
      (if known
       then setCache (Cache.markRevisionExists r (cache g1)) (setWorld w1 g1)
       else setWorld w1 g1).
Proof.
  intros Hreq Hsrc Hbase Hmiss Hknown.
  rewrite (revisionPresentIn_asks r g st g1 a Hreq Hsrc Hmiss), Hbase.
  unfold BaseVCS.revisionPresentIn. rewrite Hknown. by destruct known.
Qed.

End BaseAdapter.

Section Fetch.
Context {W : Type}.
Implicit Types (g : sourceGateway W).

Lemma step_fetch g a u fe g1 :
  src g = Some a →
  do ctSourceFetch tt (errOnly (Source.updateLocal a)) g = Ret (u, fe) g1 →
  requireStep sourceHasLatestLocally g = Ret (0, fe) g1.
Proof.
  intros Hsrc Hdo. unfold requireStep. simpl.
  rewrite (bind_theSrc _ _ _ Hsrc).
  by rewrite (bind_Ret _ _ _ _ _ Hdo).
Qed.

(** X15. A sync over a clone that is on disk fetches.  On a gateway that
    is set up, once the adapter has found the clone, [syncLocal] dispatches
    one [updateLocal]: if it succeeds [sourceHasLatestLocally] is set and
    nil is returned; if it fails the error comes back as it is, not
    wrapped like a failed clone, [sourceExistsLocally] stays set and
    [sourceHasLatestLocally] does not get set, so that the next sync
    fetches again. *)
Theorem syncLocal_fetches_existing_clone g a w1 u fe g1 :
  src g = Some a →
  Z.testbit (srcState g) 0 = true →
  Z.testbit (srcState g) 2 = false →
  Z.testbit (srcState g) 4 = false →
  Source.existsLocally a (world g) = (true, w1) →
  do ctSourceFetch tt (errOnly (Source.updateLocal a))
    (setSrcState (Z.lor (srcState g) sourceExistsLocally) (setWorld w1 g))
    = Ret (u, fe) g1 →
  syncLocal g =
    Ret fe (match fe with
            | None => setSrcState (Z.lor (srcState g1) sourceHasLatestLocally) g1
            | Some _ => g1
            end) ∧
  calls g1 = calls g ++ [ctSourceFetch] ∧
  srcState g1 = Z.lor (srcState g) sourceExistsLocally.
Proof.
  intros Hsrc Hb0 Hb2 Hb4 Hloc Hdo.
  set (wanted := Z.lor (Z.lor sourceIsSetUp sourceExistsLocally) sourceHasLatestLocally).
  set (todo := Z.land (Z.lnot (srcState g)) wanted).
  assert (Z.testbit todo 2 = true) as Ht2 by (by apply todo_bit_true).
  assert (todo ≠ 0) as Hne by (by eapply bit_nonzero).
  set (todo' := Z.land todo (Z.lnot (Z.lor 4 0))).
  assert (Z.testbit todo' 4 = true) as Ht4.
  { unfold todo'. rewrite Z.land_spec, Z.lnot_spec by lia.
    unfold todo. by rewrite todo_bit_true. }
  assert (Z.testbit todo' 3 = false) as Ht3.
  { unfold todo'. rewrite Z.land_spec.
    unfold todo. by rewrite todo_bit_unwanted. }
  assert (todo' ≠ 0) as Hne' by (by eapply bit_nonzero).
  assert (src (setSrcState (Z.lor (srcState g) sourceExistsLocally) (setWorld w1 g))
          = Some a) as Hsrc' by done.
  pose proof (step_fetch _ a u fe g1 Hsrc' Hdo) as Hstep.
  apply do_frame in Hdo as (_ & Hst & _ & Hcalls).
  split; [|by split].
  unfold syncLocal. unfold mbind at 1, M_bind at 1. unfold require.
  fold wanted. fold todo.
  rewrite requireLoop_skip;
    [|done|apply (land_pow2_zero todo 0); [lia|by apply todo_bit_set]].
  change (shl1 1) with 2.
  rewrite requireLoop_skip;
    [|done|apply (land_pow2_zero todo 1); [lia|by apply todo_bit_unwanted]].
  change (shl1 2) with 4.
  erewrite requireLoop_pass;
    [|done|by apply (land_pow2_nonzero todo 2)
     |change 4 with sourceExistsLocally; by apply (step_local_present g a w1)].
  change (shl1 4) with 8. fold todo'.
  change (srcState (setWorld w1 g)) with (srcState g).
  change (Z.lor 4 0) with sourceExistsLocally.
  rewrite requireLoop_skip; [|done|by apply (land_pow2_zero todo' 3)].
  change (shl1 8) with 16.
  destruct fe as [e|].
  - erewrite requireLoop_fail;
      [reflexivity|done|by apply (land_pow2_nonzero todo' 4)|exact Hstep].
  - erewrite requireLoop_pass;
      [|done|by apply (land_pow2_nonzero todo' 4)|exact Hstep].
    assert (Z.land todo' (Z.lnot (Z.lor 16 0)) = 0) as ->.
    { apply Z.bits_inj'. intros j Hj.
      rewrite Z.bits_0. unfold todo', todo.
      rewrite !Z.land_spec, !Z.lnot_spec by done.
      destruct (Z.testbit wanted j) eqn:Hw; [|by rewrite andb_false_r].
      unfold wanted in Hw.
      bits_of_constant j Hj Hw; rewrite ?Hb0, ?Hb2, ?Hb4; reflexivity. }
    rewrite requireLoop_done. reflexivity.
Qed.

End Fetch.

Section NilAdapter.
Context {W : Type}.
Implicit Types (g : sourceGateway W).

Lemma requireLoop_panic fuel flag todo g g' :
  todo ≠ 0 → Z.land todo flag ≠ 0 →
  requireStep flag g = Panic g' →
  requireLoop (S fuel) flag todo g = Panic g'.
Proof.
  intros Hne Hnz Hstep. simpl.
  destruct (Z.eqb_spec todo 0) as [?|_]; [done|].
  destruct (Z.eqb_spec (Z.land todo flag) 0) as [?|_]; [done|].
  by rewrite (bind_Panic _ _ _ _ Hstep).
Qed.

(** Every step but the first calls a method of [sg.src]. *)
Lemma step_nil_adapter (j : Z) g :
  src g = None → 1 <= j <= 4 → requireStep (2 ^ j) g = Panic g.
Proof.
  intros Hsrc Hj.
  assert (j = 1 ∨ j = 2 ∨ j = 3 ∨ j = 4) as [-> | [-> | [-> | ->]]] by lia;
    unfold requireStep; simpl; unfold mbind, M_bind, theSrc; by rewrite Hsrc.
Qed.

(** X23. [require] needs [sourceIsSetUp] among the wanted bits of a
    gateway that has no adapter yet: asked only for other states, at least
    one of which is not established, it calls a method of the nil [sg.src]
    at the first such state and panics, the gateway unchanged.  (Every
    caller in this file asks for [sourceIsSetUp].) *)
Theorem require_without_set_up_panics (wanted : sourceState) g :
  src g = None →
  0 <= wanted < 32 →
  Z.testbit wanted 0 = false →
  ¬ stateIncl wanted (srcState g) →
  require wanted g = Panic g.
Proof.
  intros Hsrc Hrange Hw0 Hmissing.
  set (todo := Z.land (Z.lnot (srcState g)) wanted).
  assert (∀ j, 0 <= j → Z.testbit todo j = true → 1 <= j <= 4) as Hbits.
  { intros j Hj Hb. unfold todo in Hb.
    rewrite Z.land_spec in Hb. apply andb_true_iff in Hb as [_ Hb].
    destruct (decide (j = 0)) as [->|]; [congruence|].
    destruct (decide (j < 5)); [lia|].
    rewrite (low_bits_only wanted 5 j) in Hb; [done| |lia].
    change (2 ^ 5) with 32. lia. }
  assert (todo ≠ 0) as Hne.
  { intros Hz. apply Hmissing. intros j Hj Hw.
    destruct (Z.testbit (srcState g) j) eqn:Hs; [done|].
    assert (Z.testbit todo j = true) as Hb by (by apply todo_bit_true).
    by rewrite Hz, Z.bits_0 in Hb. }
  assert (Z.testbit todo 0 = false) as Ht0.
  { destruct (Z.testbit todo 0) eqn:Hb; [|done]. apply Hbits in Hb; lia. }
  unfold require. fold todo.
  rewrite requireLoop_skip; [|done|by apply (land_pow2_zero todo 0)].
  change (shl1 1) with 2.
  destruct (Z.testbit todo 1) eqn:H1.
  { apply requireLoop_panic;
      [done|by apply (land_pow2_nonzero todo 1)|by apply (step_nil_adapter 1)]. }
  rewrite requireLoop_skip; [|done|by apply (land_pow2_zero todo 1)].
  change (shl1 2) with 4.
  destruct (Z.testbit todo 2) eqn:H2.
  { apply requireLoop_panic;
      [done|by apply (land_pow2_nonzero todo 2)|by apply (step_nil_adapter 2)]. }
  rewrite requireLoop_skip; [|done|by apply (land_pow2_zero todo 2)].
  change (shl1 4) with 8.
  destruct (Z.testbit todo 3) eqn:H3.
  { apply requireLoop_panic;
      [done|by apply (land_pow2_nonzero todo 3)|by apply (step_nil_adapter 3)]. }
  rewrite requireLoop_skip; [|done|by apply (land_pow2_zero todo 3)].
  change (shl1 8) with 16.
  destruct (Z.testbit todo 4) eqn:H4.
  { apply requireLoop_panic;
      [done|by apply (land_pow2_nonzero todo 4)|by apply (step_nil_adapter 4)]. }
  exfalso. apply Hne. apply Z.bits_inj'. intros j Hj. rewrite Z.bits_0.
  destruct (Z.testbit todo j) eqn:Hb; [|done].
  pose proof (Hbits j Hj Hb).
  assert (j = 1 ∨ j = 2 ∨ j = 3 ∨ j = 4) as [-> | [-> | [-> | ->]]] by lia;
    congruence.
Qed.

End NilAdapter.

(** ** A [require] that fails *)

Lemma below_bit (k : Z) (wanted : sourceState) (j : Z) :
  0 <= k → 0 <= j →
  Z.testbit (below k wanted) j = Z.testbit wanted j && bool_decide (j < k).
Proof.
  intros Hk Hj. unfold below. rewrite Z.land_spec, Z.testbit_ones_nonneg by lia.
  destruct (Z.ltb_spec j k).
  - by rewrite bool_decide_eq_true_2.
  - by rewrite bool_decide_eq_false_2 by lia.
Qed.

Lemma below_below (i k : Z) (wanted : sourceState) :
  0 <= i <= k → below i (below k wanted) = below i wanted.
Proof.
  intros H. apply Z.bits_inj'. intros j Hj.
  rewrite !below_bit by lia.
  destruct (Z.testbit wanted j); [|done]. cbn.
  destruct (decide (j < i)).
  - by rewrite !bool_decide_eq_true_2 by lia.
  - by rewrite (bool_decide_eq_false_2 (j < i)), andb_false_r by lia.
Qed.

Lemma below_0 (wanted : sourceState) : below 0 wanted = 0.
Proof. unfold below. change (Z.ones 0) with 0. apply Z.land_0_r. Qed.

(** What is left to do after a step. *)
Lemma todo_after (s wanted checked : sourceState) :
  Z.land (Z.land (Z.lnot s) wanted) (Z.lnot checked) =
  Z.land (Z.lnot (Z.lor s checked)) wanted.
Proof.
  apply Z.bits_inj'. intros j Hj.
  rewrite !Z.land_spec, !Z.lnot_spec, Z.lor_spec by done.
  destruct (Z.testbit s j), (Z.testbit wanted j), (Z.testbit checked j); done.
Qed.

Section Passes.
Context {W : Type}.
Implicit Types (g : sourceGateway W).

Lemma require_noop wanted g :
  stateIncl wanted (srcState g) → require wanted g = Ret (0, None) g.
Proof.
  intros Hincl. unfold require. rewrite land_lnot_incl by done.
  apply requireLoop_done.
Qed.

(** The loop, when it reaches flag [i], is [require] started afresh: the
    passes before it have nothing to do. *)
Lemma loop_restart (i : nat) wanted g fuel :
  (fuel + i = 32)%nat → (i <= 31)%nat → doneBelow i wanted g →
  requireLoop fuel (flagAt i) (Z.land (Z.lnot (srcState g)) wanted) g
    = require wanted g.
Proof.
  revert fuel. induction i as [|i IH]; intros fuel Hf Hi Hdone.
  { assert (fuel = 32%nat) as -> by lia. unfold require. reflexivity. }
  rewrite <- (IH (S fuel)); [|lia|lia|intros j Hj; apply Hdone; lia].
  set (todo := Z.land (Z.lnot (srcState g)) wanted).
  destruct (decide (todo = 0)) as [->|Hne]; [by rewrite !requireLoop_done|].
  symmetry. rewrite flagAt_S. apply requireLoop_skip; [done|].
  rewrite flagAt_pow2 by lia. apply land_pow2_zero; [lia|].
  unfold todo. rewrite Z.land_spec, Z.lnot_spec by lia.
  destruct (Z.testbit wanted (Z.of_nat i)) eqn:Hw; [|apply andb_false_r].
  rewrite (Hdone (Z.of_nat i)); [done|lia|done].
Qed.

(** One pass: the step of the lowest wanted bit that is not set, and then
    [require] again on what the step has left. *)
Lemma require_pass (i : nat) wanted g :
  (i <= 30)%nat → doneBelow i wanted g →
  Z.testbit wanted (Z.of_nat i) = true →
  Z.testbit (srcState g) (Z.of_nat i) = false →
  require wanted g =
    match requireStep (2 ^ Z.of_nat i) g with
    | Ret (addl, None) g1 =>
        require wanted
          (setSrcState (Z.lor (srcState g1) (Z.lor (2 ^ Z.of_nat i) addl)) g1)
    | Ret (addl, Some e) g1 => Ret (2 ^ Z.of_nat i, Some e) g1
    | Panic g1 => Panic g1
    | Spin => Spin
    end.
Proof.
  intros Hi Hdone Hw Hs.
  rewrite <- (loop_restart i wanted g (S (31 - i))) by (done || lia).
  set (todo := Z.land (Z.lnot (srcState g)) wanted).
  assert (Z.testbit todo (Z.of_nat i) = true) as Ht.
  { unfold todo. rewrite Z.land_spec, Z.lnot_spec, Hw, Hs by lia. done. }
  assert (todo ≠ 0) as Hne by (by eapply bit_nonzero).
  assert (Z.land todo (2 ^ Z.of_nat i) ≠ 0) as Hnz
    by (apply land_pow2_nonzero; [lia|done]).
  rewrite flagAt_pow2 by lia.
  pose proof (requireStep_frame (2 ^ Z.of_nat i) g) as Hf.
  destruct (requireStep (2 ^ Z.of_nat i) g) as [[addl [e|]] g1| g1 |] eqn:Hstep.
  - by apply (requireLoop_fail _ _ _ _ addl).
  - rewrite (requireLoop_pass _ _ _ _ addl g1) by done.
    destruct Hf as (Hst & _).
    set (gA := setSrcState (Z.lor (srcState g1) (Z.lor (2 ^ Z.of_nat i) addl)) g1).
    rewrite <- (loop_restart (S i) wanted gA (31 - i)); [|lia|lia|].
    + rewrite flagAt_S, flagAt_pow2 by lia. unfold todo.
      rewrite todo_after. cbn [gA srcState setSrcState]. by rewrite Hst.
    + intros j Hj Hwj. cbn [gA srcState setSrcState]. rewrite Hst, !Z.lor_spec.
      destruct (decide (j = Z.of_nat i)) as [->|Hne'].
      * rewrite Z.pow2_bits_true by lia. apply orb_true_iff. right. done.
      * rewrite (Hdone j); [done|lia|done].
  - by apply requireLoop_panic.
  - done.
Qed.

(** A pass that has nothing to do. *)
Lemma done_below_S (i : nat) wanted g :
  doneBelow i wanted g →
  Z.testbit wanted (Z.of_nat i) && negb (Z.testbit (srcState g) (Z.of_nat i)) = false →
  doneBelow (S i) wanted g.
Proof.
  intros Hdone Hb j Hj Hw.
  destruct (decide (j = Z.of_nat i)) as [->|Hne]; [|apply Hdone; [lia|done]].
  rewrite Hw in Hb. by apply negb_false_iff in Hb.
Qed.

(** After the step of bit [i]. *)
Lemma done_below_step (i : nat) wanted g g1 addl :
  doneBelow i wanted g → srcState g1 = srcState g →
  doneBelow (S i) wanted
    (setSrcState (Z.lor (srcState g1) (Z.lor (2 ^ Z.of_nat i) addl)) g1).
Proof.
  intros Hdone Hst j Hj Hw. cbn [srcState setSrcState]. rewrite Hst, !Z.lor_spec.
  destruct (decide (j = Z.of_nat i)) as [->|Hne].
  - rewrite Z.pow2_bits_true by lia. apply orb_true_iff. right. done.
  - rewrite (Hdone j); [done|lia|done].
Qed.

Lemma done_below_incl (i : nat) wanted g :
  doneBelow i wanted g → stateIncl (below (Z.of_nat i) wanted) (srcState g).
Proof.
  intros Hdone j Hj Hb. rewrite below_bit in Hb by lia.
  apply andb_true_iff in Hb as [Hw Hlt]. apply bool_decide_eq_true_1 in Hlt.
  apply Hdone; [lia|done].
Qed.

Lemma done_below_sub (i : nat) (k : Z) wanted g :
  0 <= k → doneBelow i wanted g → doneBelow i (below k wanted) g.
Proof.
  intros Hk Hdone j Hj Hb. rewrite below_bit in Hb by lia.
  apply andb_true_iff in Hb as [Hw _]. by apply Hdone.
Qed.

(** [require] of the wanted bits below [i] is the beginning of [require]:
    if it fails or panics so does [require], in the same way, and if it
    goes through [require] goes on from the gateway it leaves. *)
Lemma require_prefix (i : nat) wanted g :
  (i <= 31)%nat →
  match require (below (Z.of_nat i) wanted) g with
  | Ret (_, None) gi =>
      require wanted g = require wanted gi ∧ doneBelow i wanted gi
  | Ret (f, Some e) g' => require wanted g = Ret (f, Some e) g'
  | Panic g' => require wanted g = Panic g'
  | Spin => False
  end.
Proof.
  intros Hi.
  enough (∀ m j g, (j + m = i)%nat → doneBelow j wanted g →
            match require (below (Z.of_nat i) wanted) g with
            | Ret (_, None) gi =>
                require wanted g = require wanted gi ∧ doneBelow i wanted gi
            | Ret (f, Some e) g' => require wanted g = Ret (f, Some e) g'
            | Panic g' => require wanted g = Panic g'
            | Spin => False
            end) as H.
  { apply (H i 0%nat g); [lia|]. intros j Hj. lia. }
  clear g. induction m as [|m IH]; intros j g Hjm Hdone.
  - assert (j = i) as -> by lia.
    rewrite require_noop by (by apply done_below_incl). done.
  - destruct (Z.testbit wanted (Z.of_nat j) &&
              negb (Z.testbit (srcState g) (Z.of_nat j))) eqn:Hb.
    + apply andb_true_iff in Hb as [Hw Hs]. apply negb_true_iff in Hs.
      rewrite (require_pass j (below (Z.of_nat i) wanted) g);
        [|lia|apply done_below_sub; [lia|done]| |done].
      2:{ rewrite below_bit, Hw by lia. by rewrite bool_decide_eq_true_2 by lia. }
      rewrite (require_pass j wanted g) by (done || lia).
      pose proof (requireStep_frame (2 ^ Z.of_nat j) g) as Hf.
      destruct (requireStep (2 ^ Z.of_nat j) g) as [[addl [e|]] g1| g1 |];
        [done| |done|done].
      destruct Hf as (Hst & _).
      apply (IH (S j)); [lia|]. by apply (done_below_step j wanted g).
    + apply (IH (S j)); [lia|]. by apply done_below_S.
Qed.

(** The flags above [sourceHasLatestLocally] have no case in the switch. *)
Lemma step_unknown (i : nat) g :
  (5 <= i < 32)%nat → requireStep (flagAt i) g = Ret (0, None) g.
Proof.
  intros Hi. unfold requireStep.
  assert (∀ k, 0 <= k < 5 → flagAt i ≠ 2 ^ k) as Hne.
  { intros k Hk Heq. apply flagAt_is_pow2 in Heq; lia. }
  destruct (Z.eqb_spec (flagAt i) sourceIsSetUp) as [H|_];
    [by apply (Hne 0) in H|].
  destruct (Z.eqb_spec (flagAt i) sourceExistsUpstream) as [H|_];
    [by apply (Hne 1) in H|].
  destruct (Z.eqb_spec (flagAt i) sourceExistsLocally) as [H|_];
    [by apply (Hne 2) in H|].
  destruct (Z.eqb_spec (flagAt i) sourceHasLatestVersionList) as [H|_];
    [by apply (Hne 3) in H|].
  destruct (Z.eqb_spec (flagAt i) sourceHasLatestLocally) as [H|_];
    [by apply (Hne 4) in H|].
  reflexivity.
Qed.

Lemma high_never_fails fuel (i : nat) todo g f e g' :
  (fuel + i = 32)%nat → (5 <= i)%nat →
  requireLoop fuel (flagAt i) todo g ≠ Ret (f, Some e) g'.
Proof.
  revert i todo g. induction fuel as [|fuel IH]; intros i todo g Hfi Hi.
  - simpl. by destruct (todo =? 0).
  - destruct (decide (todo = 0)) as [->|Hne]; [by rewrite requireLoop_done|].
    destruct (decide (Z.land todo (flagAt i) = 0)) as [Hz|Hnz].
    + rewrite requireLoop_skip by done. rewrite <- flagAt_S. apply IH; lia.
    + rewrite (requireLoop_pass _ _ _ _ 0 g) by (done || apply step_unknown; lia).
      rewrite <- flagAt_S. apply IH; lia.
Qed.

(** A failure is the failure of one of the five steps, in the gateway
    that [require] of the bits below it has left. *)
Lemma failure_chain wanted f e g' :
  ∀ m (j : nat) g, (j + m = 5)%nat → doneBelow j wanted g →
    require wanted g = Ret (f, Some e) g' →
    ∃ (k : nat) gk addl,
      (j <= k < 5)%nat ∧ f = 2 ^ Z.of_nat k ∧
      Z.testbit wanted (Z.of_nat k) = true ∧
      Z.testbit (srcState gk) (Z.of_nat k) = false ∧
      require (below (Z.of_nat k) wanted) g = Ret (0, None) gk ∧
      requireStep f gk = Ret (addl, Some e) g'.
Proof.
  induction m as [|m IH]; intros j g Hjm Hdone Hreq.
  - assert (j = 5%nat) as -> by lia.
    rewrite <- (loop_restart 5 wanted g 27) in Hreq by (done || lia).
    by apply high_never_fails in Hreq.
  - destruct (Z.testbit wanted (Z.of_nat j) &&
              negb (Z.testbit (srcState g) (Z.of_nat j))) eqn:Hb.
    + apply andb_true_iff in Hb as [Hw Hs]. apply negb_true_iff in Hs.
      rewrite (require_pass j wanted g) in Hreq by (done || lia).
      pose proof (requireStep_frame (2 ^ Z.of_nat j) g) as Hf.
      destruct (requireStep (2 ^ Z.of_nat j) g) as [[addl [e1|]] g1| g1 |] eqn:Hstep;
        [| |done|done].
      * injection Hreq as <- <- <-. exists j, g, addl.
        split; [lia|]. split; [done|]. split; [done|]. split; [done|].
        split; [|done]. apply require_noop. by apply done_below_incl.
      * destruct Hf as (Hst & _).
        set (gA := setSrcState (Z.lor (srcState g1) (Z.lor (2 ^ Z.of_nat j) addl)) g1)
          in *.
        assert (doneBelow (S j) wanted gA) as HdoneA
          by (by apply (done_below_step j wanted g)).
        destruct (IH (S j) gA ltac:(lia) HdoneA Hreq)
          as (k & gk & addl' & Hk & Hf' & Hwk & Hsk & Hlow & Hfail).
        exists k, gk, addl'. split; [lia|]. split; [done|]. split; [done|].
        split; [done|]. split; [|done].
        rewrite (require_pass j (below (Z.of_nat k) wanted) g);
          [|lia|apply done_below_sub; [lia|done]| |done].
        -- rewrite Hstep. exact Hlow.
        -- rewrite below_bit, Hw by lia. by rewrite bool_decide_eq_true_2 by lia.
    + destruct (IH (S j) g ltac:(lia) (done_below_S j wanted g Hdone Hb) Hreq)
        as (k & gk & addl' & Hk & Hrest).
      exists k, gk, addl'. split; [lia|done].
Qed.

End Passes.

Section Failure.
Context {W : Type}.
Implicit Types (g : sourceGateway W).

(** What a step that succeeds reports besides its own bit: the bits of
    the probe, [sourceHasLatestLocally] after a clone, or nothing. *)
Lemma step_addl flag g addl g1 :
  requireStep flag g = Ret (addl, None) g1 →
  (flag = sourceIsSetUp ∧ addl = try_state (probe g)) ∨
  (flag = sourceExistsLocally ∧ addl = sourceHasLatestLocally ∧ clones g) ∨
  addl = 0.
Proof.
  unfold requireStep.
  destruct (Z.eqb_spec flag sourceIsSetUp) as [->|H1].
  { intros [= <- _ _]. by left. }
  destruct (Z.eqb_spec flag sourceExistsUpstream) as [->|H2].
  { unfold mbind, M_bind, theSrc. destruct (src g) as [a|]; [|done].
    edestruct (do_spec (W := W) (A := unit) ctSourcePing tt) as ([[] err] & w & ->).
    intros [= <- _ _]. by right; right. }
  destruct (Z.eqb_spec flag sourceExistsLocally) as [->|H3].
  { unfold mbind, M_bind, theSrc. destruct (src g) as [a|] eqn:Hsrc; [|done].
    rewrite direct_spec.
    destruct (Source.existsLocally a (world g)) as [[] w1] eqn:Hloc; cbn [fst snd].
    - intros [= <- _]. by right; right.
    - unfold do. cbn [suprvsr setCalls setWorld world].
      destruct (refuse (suprvsr g) ctSourceInit w1) eqn:Hr; [done|].
      unfold errOnly.
      destruct (Source.initLocal a w1) as [[e|] w2] eqn:Hinit; [done|].
      intros [= <- _]. right; left. split; [done|]. split; [done|].
      by exists a, w1, w2. }
  destruct (Z.eqb_spec flag sourceHasLatestVersionList) as [->|H4].
  { unfold mbind, M_bind, theSrc. destruct (src g) as [a|]; [|done].
    edestruct (do_spec (W := W) (A := list PairedVersion) ctListVersions [])
      as ([pvl err] & w & ->).
    destruct err; [done|]. intros [= <- _]. by right; right. }
  destruct (Z.eqb_spec flag sourceHasLatestLocally) as [->|H5].
  { unfold mbind, M_bind, theSrc. destruct (src g) as [a|]; [|done].
    edestruct (do_spec (W := W) (A := unit) ctSourceFetch tt) as ([[] err] & w & ->).
    intros [= <- _ _]. by right; right. }
  intros [= <- _]. by right; right.
Qed.

Lemma step_clones g :
  clones g →
  ∃ g1, requireStep sourceExistsLocally g = Ret (sourceHasLatestLocally, None) g1.
Proof.
  intros (a & w1 & w2 & Hsrc & Hloc & Hadm & Hinit). eexists.
  rewrite (step_local_absent g a w1 Hsrc Hloc).
  unfold mbind at 1, M_bind at 1, do. simpl. rewrite Hadm.
  unfold errOnly. rewrite Hinit. reflexivity.
Qed.

(** The bits the probe reports are in the state. *)
Lemma probe_bits_in wanted g g1 :
  require wanted g = Ret (0, None) g1 →
  Z.testbit wanted 0 = true → Z.testbit (srcState g) 0 = false →
  stateIncl (try_state (probe g)) (srcState g1).
Proof.
  intros Hreq Hw Hs.
  rewrite (require_pass 0 wanted g) in Hreq; [|lia|intros j Hj; lia|done|done].
  change (2 ^ Z.of_nat 0) with sourceIsSetUp in Hreq.
  rewrite requireStep_probe_run in Hreq.
  destruct (try_err (probe g)); [done|].
  set (gA := setSrcState _ _) in Hreq.
  pose proof (require_grows wanted gA (srcState gA) (stateIncl_refl _)) as Hg.
  rewrite Hreq in Hg. intros j Hj Hb. apply Hg; [done|].
  cbn [gA srcState setSrcState]. rewrite !Z.lor_spec, Hb. by rewrite !orb_true_r.
Qed.

(** After a clone [sourceHasLatestLocally] is in the state. *)
Lemma clone_bit_in wanted g g1 :
  require wanted g = Ret (0, None) g1 →
  doneBelow 2 wanted g →
  Z.testbit wanted 2 = true → Z.testbit (srcState g) 2 = false →
  clones g →
  Z.testbit (srcState g1) 4 = true.
Proof.
  intros Hreq Hdone Hw Hs Hclone.
  rewrite (require_pass 2 wanted g) in Hreq by (done || lia).
  change (2 ^ Z.of_nat 2) with sourceExistsLocally in Hreq.
  destruct (step_clones g Hclone) as (g3 & Hstep). rewrite Hstep in Hreq.
  set (gA := setSrcState _ _) in Hreq.
  pose proof (require_grows wanted gA (srcState gA) (stateIncl_refl _)) as Hg.
  rewrite Hreq in Hg. apply Hg; [lia|].
  cbn [gA srcState setSrcState]. rewrite !Z.lor_spec.
  change (Z.testbit sourceHasLatestLocally 4) with true. by rewrite !orb_true_r.
Qed.

(** A [require] that goes through has gone through for the bits below
    [i] first. *)
Lemma prefix_success (i k : nat) wanted g gk :
  (i <= k <= 31)%nat →
  require (below (Z.of_nat k) wanted) g = Ret (0, None) gk →
  ∃ gi, require (below (Z.of_nat i) wanted) g = Ret (0, None) gi ∧
        require (below (Z.of_nat k) wanted) gi = Ret (0, None) gk ∧
        doneBelow i (below (Z.of_nat k) wanted) gi.
Proof.
  intros Hik Hreq.
  pose proof (require_prefix i (below (Z.of_nat k) wanted) g ltac:(lia)) as H.
  rewrite below_below in H by lia.
  destruct (require (below (Z.of_nat i) wanted) g) as [[st [e|]] gi| gi |] eqn:Hi;
    [congruence| |congruence|done].
  apply require_ok in Hi as Hz. destruct Hz as [-> _].
  destruct H as [Heq Hdone]. exists gi. split; [done|]. split; [congruence|done].
Qed.

(** One more bit: what [require] of the bits below [S i] adds to what
    [require] of the bits below [i] has left. *)
Lemma stage (i : nat) wanted g hi h' :
  (i <= 30)%nat →
  require (below (Z.of_nat i) wanted) g = Ret (0, None) hi →
  require (below (Z.of_nat (S i)) wanted) g = Ret (0, None) h' →
  h' = hi ∨
  (Z.testbit wanted (Z.of_nat i) = true ∧
   Z.testbit (srcState hi) (Z.of_nat i) = false ∧
   ∃ addl g1, requireStep (2 ^ Z.of_nat i) hi = Ret (addl, None) g1 ∧
              srcState h' =
                Z.lor (srcState hi) (Z.lor (2 ^ Z.of_nat i) addl)).
Proof.
  intros Hi Hlow Hnext.
  destruct (prefix_success i (S i) wanted g h' ltac:(lia) Hnext)
    as (gi & Hgi & Hrest & Hdone).
  rewrite Hlow in Hgi. injection Hgi as <-.
  set (w := below (Z.of_nat (S i)) wanted) in *.
  destruct (Z.testbit w (Z.of_nat i) &&
            negb (Z.testbit (srcState hi) (Z.of_nat i))) eqn:Hb.
  - right. apply andb_true_iff in Hb as [Hw Hs]. apply negb_true_iff in Hs.
    rewrite (require_pass i w hi) in Hrest by (done || lia).
    pose proof (requireStep_frame (2 ^ Z.of_nat i) hi) as Hf.
    destruct (requireStep (2 ^ Z.of_nat i) hi) as [[addl [e|]] g1| g1 |];
      [done| |done|done].
    destruct Hf as (Hst & _).
    rewrite require_noop in Hrest.
    + injection Hrest as <-.
      unfold w in Hw. rewrite below_bit in Hw by lia.
      apply andb_true_iff in Hw as [Hw _].
      split; [done|]. split; [done|]. exists addl, g1. split; [done|].
      cbn [srcState setSrcState]. by rewrite Hst.
    + intros j Hj Hbj. unfold w in Hbj. rewrite below_bit in Hbj by lia.
      apply andb_true_iff in Hbj as [Hwj Hlt]. apply bool_decide_eq_true_1 in Hlt.
      apply (done_below_step i w hi g1 addl Hdone Hst j); [lia|].
      unfold w. rewrite below_bit, Hwj by lia. by rewrite bool_decide_eq_true_2.
  - left. rewrite require_noop in Hrest; [by injection Hrest|].
    intros j Hj Hbj.
    apply (done_below_S i w hi Hdone Hb j); [|done].
    unfold w in Hbj. rewrite below_bit in Hbj by lia.
    apply andb_true_iff in Hbj as [_ Hlt]. apply bool_decide_eq_true_1 in Hlt. lia.
Qed.

(** Where a bit of the state comes from. *)
Lemma state_bits_from (i : nat) wanted g hi :
  (i <= 31)%nat →
  require (below (Z.of_nat i) wanted) g = Ret (0, None) hi →
  ∀ j, 0 <= j → Z.testbit (srcState hi) j = true →
    Z.testbit (srcState g) j = true ∨
    (j < Z.of_nat i ∧ Z.testbit wanted j = true) ∨
    ((0 < i)%nat ∧ Z.testbit wanted 0 = true ∧ Z.testbit (srcState g) 0 = false ∧
     Z.testbit (try_state (probe g)) j = true) ∨
    (j = 4 ∧ (2 < i)%nat ∧ Z.testbit wanted 2 = true ∧
     ∃ g2, require (below 2 wanted) g = Ret (0, None) g2 ∧
           Z.testbit (srcState g2) 2 = false ∧ clones g2).
Proof.
  revert hi. induction i as [|i IH]; intros h' Hi Hreq j Hj Hb.
  { change (Z.of_nat 0) with 0 in Hreq. rewrite below_0 in Hreq.
    rewrite require_noop in Hreq by (intros ? ? H; by rewrite Z.bits_0 in H).
    injection Hreq as <-. by left. }
  destruct (prefix_success i (S i) wanted g h' ltac:(lia) Hreq)
    as (hi & Hlow & _ & _).
  assert (Z.testbit (srcState hi) j = true →
          Z.testbit (srcState g) j = true ∨
          (j < Z.of_nat (S i) ∧ Z.testbit wanted j = true) ∨
          ((0 < S i)%nat ∧ Z.testbit wanted 0 = true ∧
           Z.testbit (srcState g) 0 = false ∧
           Z.testbit (try_state (probe g)) j = true) ∨
          (j = 4 ∧ (2 < S i)%nat ∧ Z.testbit wanted 2 = true ∧
           ∃ g2, require (below 2 wanted) g = Ret (0, None) g2 ∧
                 Z.testbit (srcState g2) 2 = false ∧ clones g2)) as Hold.
  { intros Hbi.
    destruct (IH hi ltac:(lia) Hlow j Hj Hbi)
      as [?|[[? ?]|[(? & ? & ? & ?)|(? & ? & ? & ?)]]].
    - by left.
    - right; left. split; [lia|done].
    - right; right; left. split; [lia|done].
    - right; right; right. split; [done|]. split; [lia|done]. }
  destruct (stage i wanted g hi h' ltac:(lia) Hlow Hreq)
    as [->|(Hw & Hs & addl & g1 & Hstep & Hst)]; [by apply Hold|].
  rewrite Hst, !Z.lor_spec in Hb.
  apply orb_true_iff in Hb as [Hb|Hb]; [by apply Hold|].
  apply orb_true_iff in Hb as [Hb|Hb].
  - rewrite Z.pow2_bits_eqb in Hb by lia. apply Z.eqb_eq in Hb as <-.
    right; left. split; [lia|done].
  - destruct (step_addl _ _ _ _ Hstep) as [[Hf ->] | [(Hf & -> & Hclone) | ->]].
    + assert (i = 0%nat) as ->.
      { change sourceIsSetUp with (2 ^ 0) in Hf.
        apply Z.pow_inj_r in Hf; lia. }
      change (Z.of_nat 0) with 0 in *. rewrite below_0 in Hlow.
      rewrite require_noop in Hlow by (intros ? ? H; by rewrite Z.bits_0 in H).
      injection Hlow as <-.
      right; right; left. split; [lia|done].
    + assert (i = 2%nat) as ->.
      { change sourceExistsLocally with (2 ^ 2) in Hf.
        apply Z.pow_inj_r in Hf; lia. }
      right; right; right. split; [by apply bit_of_16|]. split; [lia|].
      split; [done|]. exists hi. done.
    + by rewrite Z.bits_0 in Hb.
Qed.

(** C5 (as amended). A [require] that fails has failed in one of the five
    steps, say that of bit [k], a wanted bit that was not set.  The steps
    before it are [require] of the wanted bits below [k], which went
    through and left [g1]; the step of bit [k] ran in [g1] and failed, and
    what it left and the error it gave are what [require] returns, with
    the flag of bit [k]: nothing runs after it and its bit is not set.

    In the state returned no bit has been cleared and every wanted bit
    below [k] is set.  The bits satisfied on the way are set too: those
    the probe reported, if [sourceIsSetUp] was to do, and
    [sourceHasLatestLocally] if the step of [sourceExistsLocally] ran and
    cloned the source.  And no other bit is newly set. *)
Theorem require_failure (wanted : sourceState) g f e g' :
  require wanted g = Ret (f, Some e) g' →
  ∃ (k : nat) g1 addl,
    (k < 5)%nat ∧ f = 2 ^ Z.of_nat k ∧
    Z.testbit wanted (Z.of_nat k) = true ∧
    Z.testbit (srcState g) (Z.of_nat k) = false ∧
    require (below (Z.of_nat k) wanted) g = Ret (0, None) g1 ∧
    requireStep f g1 = Ret (addl, Some e) g' ∧
    srcState g' = srcState g1 ∧
    Z.testbit (srcState g') (Z.of_nat k) = false ∧
    (∀ j, 0 <= j < Z.of_nat k → Z.testbit wanted j = true →
          Z.testbit (srcState g') j = true) ∧
    stateIncl (srcState g) (srcState g') ∧
    ((0 < k)%nat → Z.testbit wanted 0 = true → Z.testbit (srcState g) 0 = false →
     stateIncl (try_state (probe g)) (srcState g')) ∧
    ((2 < k)%nat →
     ∃ g2, require (below 2 wanted) g = Ret (0, None) g2 ∧
           (Z.testbit wanted 2 = true → Z.testbit (srcState g2) 2 = false →
            clones g2 → Z.testbit (srcState g') 4 = true)) ∧
    (∀ j, 0 <= j → Z.testbit (srcState g') j = true →
          Z.testbit (srcState g) j = false →
          (j < Z.of_nat k ∧ Z.testbit wanted j = true) ∨
          ((0 < k)%nat ∧ Z.testbit wanted 0 = true ∧
           Z.testbit (srcState g) 0 = false ∧
           Z.testbit (try_state (probe g)) j = true) ∨
          (j = 4 ∧ (2 < k)%nat ∧ Z.testbit wanted 2 = true ∧
           ∃ g2, require (below 2 wanted) g = Ret (0, None) g2 ∧
                 Z.testbit (srcState g2) 2 = false ∧ clones g2)).
Proof.
  intros Hreq.
  destruct (failure_chain wanted f e g' 5 0%nat g eq_refl ltac:(intros j Hj; lia) Hreq)
    as (k & g1 & addl & Hk & -> & Hwk & Hsk & Hlow & Hfail).
  pose proof (requireStep_frame (2 ^ Z.of_nat k) g1) as Hf.
  rewrite Hfail in Hf. destruct Hf as (Hst & _).
  pose proof (require_grows (below (Z.of_nat k) wanted) g (srcState g)
                (stateIncl_refl _)) as Hgrow.
  rewrite Hlow in Hgrow. cbn [ends] in Hgrow.
  pose proof (require_ok _ _ _ _ Hlow) as [_ Hincl].
  exists k, g1, addl.
  split; [lia|]. split; [done|]. split; [done|]. split.
  { destruct (Z.testbit (srcState g) (Z.of_nat k)) eqn:Hb; [|done].
    rewrite (Hgrow (Z.of_nat k) ltac:(lia) Hb) in Hsk. done. }
  split; [done|]. split; [done|]. split; [done|]. split; [by rewrite Hst|].
  split.
  { intros j Hj Hw. rewrite Hst. apply Hincl; [lia|].
    rewrite below_bit, Hw by lia. by rewrite bool_decide_eq_true_2 by lia. }
  split; [by rewrite Hst|]. split.
  { intros Hk0 Hw0 Hs0. rewrite Hst.
    apply (probe_bits_in (below (Z.of_nat k) wanted)); [done| |done].
    rewrite below_bit, Hw0 by lia. by rewrite bool_decide_eq_true_2 by lia. }
  split.
  { intros Hk2.
    destruct (prefix_success 2 k wanted g g1 ltac:(lia) Hlow)
      as (g2 & Hg2 & Hrest & Hdone).
    exists g2. split; [done|]. intros Hw2 Hs2 Hclone. rewrite Hst.
    apply (clone_bit_in (below (Z.of_nat k) wanted) g2); try done.
    rewrite below_bit, Hw2 by lia. by rewrite bool_decide_eq_true_2 by lia. }
  intros j Hj Hb Hn. rewrite Hst in Hb.
  destruct (state_bits_from k wanted g g1 ltac:(lia) Hlow j Hj Hb)
    as [?|[?|[?|?]]]; [congruence|auto..].
Qed.

End Failure.

(** * The coordinator *)

Section CoordinatorSteps.
Import Coordinator.
Context {W : Type}.
Implicit Types (c : sourceCoordinator (W := W)) (p : point (W := W))
  (gr : goroutine (W := W)).

Ltac moved H :=
  apply lookup_insert_Some in H as [[<- <-] | [? H]]; cbn [normalizedName at_] in *.

Ltac fields :=
  unfold waiting in *;
  cbn [moveTo setGoroutines setSrcmut setSrcs setNameToURL setProtoSrcs
       allocate setSent setAnswered panic doReturn
       srcs nameToURL protoSrcs heap allocated goroutines sent answered
       crashed srcmut superv cachedir normalizedName at_] in *.

Lemma not_fold_cases p : p ≠ atFold → working p ∨ p = returned.
Proof. destruct p; cbn; auto; congruence. Qed.

Lemma working_not_returned p : working p → p ≠ returned.
Proof. destruct p; cbn; auto; congruence. Qed.

Lemma working_not_fold p : working p → p ≠ atFold.
Proof. destruct p; cbn; auto; congruence. Qed.

(** A step of an owner that stays the owner and leaves the maps alone. *)
Lemma move_consistent c rc gr p :
  consistent c →
  goroutines c !! rc = Some gr →
  working (at_ gr) → working p →
  (unresolved p → nameToURL c !! normalizedName gr = None) →
  (∀ url ref, p = atInstall url ref → servesURL c url ref) →
  (∀ sg l, p = atReturn (gotGateway sg) l → registered c (normalizedName gr) sg) →
  consistent (moveTo rc (normalizedName gr) p c).
Proof.
  intros [] Hgr Hw Hp Hu Hi Hr.
  split; fields; try assumption.
  - intros rc0 gr0 url ref H E. moved H; eauto.
  - intros rc0 gr0 H Hw0. moved H; eauto.
  - intros name chans H.
    destruct (headed_by_owner0 _ _ H) as (rc0 & chans' & gr0 & -> & Hg & Hw0).
    destruct (decide (rc0 = rc)) as [->|Hne].
    + exists rc, chans'. eexists. split; [done|]. rewrite lookup_insert_eq. done.
    + exists rc0, chans', gr0. rewrite lookup_insert_ne by done. done.
  - intros rc0 gr0 H Hu0. moved H; eauto.
  - intros rc0 gr0 sg l H E. moved H; eauto.
  - intros name rc0 Hwait. destruct (waiting_name0 _ _ Hwait) as (gr0 & Hg & Hn & Hf).
    destruct (decide (rc0 = rc)) as [->|Hne].
    + eexists. rewrite lookup_insert_eq. split; [done|]. cbn.
      rewrite Hgr in Hg. injection Hg as <-. split; [done|].
      by apply working_not_fold.
    + exists gr0. rewrite lookup_insert_ne by done. done.
  - intros rc0 Hin. destruct (sent_started0 _ Hin) as (gr0 & Hg & Hr0).
    destruct (decide (rc0 = rc)) as [->|Hne].
    + rewrite Hgr in Hg. injection Hg as <-.
      exfalso. by apply (working_not_returned _ Hw).
    + exists gr0. rewrite lookup_insert_ne by done. done.
  - intros rc0 sg Hin. destruct (sent_registered0 _ _ Hin) as (gr0 & Hg & Hr0).
    destruct (decide (rc0 = rc)) as [->|Hne].
    + rewrite Hgr in Hg. injection Hg as <-.
      eexists. rewrite lookup_insert_eq. done.
    + exists gr0. rewrite lookup_insert_ne by done. done.
  - intros rc0 gr0 H E. moved H.
    + exfalso. by apply (working_not_returned _ Hp).
    + eauto.
Qed.

Lemma registered_mono c c' name sg :
  nameToURL c ⊆ nameToURL c' → srcs c ⊆ srcs c' →
  registered c name sg → registered c' name sg.
Proof.
  intros Hn Hs (url & H1 & H2). exists url.
  split; eapply lookup_weaken; eauto.
Qed.

(** The fast path answers with a registered gateway. *)
Lemma answer_consistent c name sg :
  consistent c → registered c name sg →
  consistent (setAnswered (answered c ++ [(name, sg)]) c).
Proof.
  intros [] Hreg. split; fields; try assumption.
  intros n s [Hin|Hin%list_elem_of_singleton]%elem_of_app; [eauto|].
  by injection Hin as -> ->.
Qed.

Lemma panic_consistent c :
  consistent c → consistent (panic nilSource c).
Proof. intros []. split; fields; try assumption. done. Qed.

(** A new goroutine, before its first step. *)
Lemma spawn_consistent c rc name :
  consistent c → goroutines c !! rc = None →
  consistent (moveTo rc name atFold c).
Proof.
  intros [] Hnew. split; fields; try assumption.
  - intros rc0 gr0 url ref H E. moved H; [done|eauto].
  - intros rc0 gr0 H Hw0. moved H; [done|eauto].
  - intros n chans H.
    destruct (headed_by_owner0 _ _ H) as (rc0 & chans' & gr0 & -> & Hg & Hw0).
    exists rc0, chans', gr0. rewrite lookup_insert_ne by congruence. done.
  - intros rc0 gr0 H Hu0. moved H; [done|eauto].
  - intros rc0 gr0 sg l H E. moved H; [done|eauto].
  - intros n rc0 Hwait. destruct (waiting_name0 _ _ Hwait) as (gr0 & Hg & Hn & Hf).
    exists gr0. rewrite lookup_insert_ne by congruence. done.
  - intros rc0 Hin. destruct (sent_started0 _ Hin) as (gr0 & Hg & Hr0).
    exists gr0. rewrite lookup_insert_ne by congruence. done.
  - intros rc0 sg Hin. destruct (sent_registered0 _ _ Hin) as (gr0 & Hg & Hr0).
    exists gr0. rewrite lookup_insert_ne by congruence. done.
  - intros rc0 gr0 H E. moved H; [done|eauto].
Qed.

(** Before its first step a goroutine's channels are nowhere. *)
Lemma fold_not_waiting c rc gr name :
  consistent c → goroutines c !! rc = Some gr → at_ gr = atFold →
  ¬ waiting c rc name.
Proof.
  intros [] Hgr Hat Hwait.
  destruct (waiting_name0 _ _ Hwait) as (gr0 & Hg & _ & Hf). congruence.
Qed.

Lemma fold_not_sent c rc gr :
  consistent c → goroutines c !! rc = Some gr → at_ gr = atFold →
  rc ∉ (sent c).*1.
Proof.
  intros [] Hgr Hat Hin.
  destruct (sent_started0 _ Hin) as (gr0 & Hg & Hr). congruence.
Qed.

(** Lines 131-137: the name is being set up, the channels join the list. *)
Lemma fold_consistent c rc gr chans :
  consistent c →
  goroutines c !! rc = Some gr → at_ gr = atFold →
  protoSrcs c !! normalizedName gr = Some chans →
  consistent
    (moveTo rc (normalizedName gr) returned
       (setProtoSrcs (<[normalizedName gr := chans ++ [rc]]> (protoSrcs c)) c)).
Proof.
  intros Hc Hgr Hat Hproto.
  pose proof (fold_not_waiting c rc gr (normalizedName gr) Hc Hgr Hat) as Hnw.
  pose proof (fold_not_sent c rc gr Hc Hgr Hat) as Hns.
  assert (rc ∉ chans) as Hnin by (intros Hin; apply Hnw; by exists chans).
  destruct Hc. split; fields; try assumption.
  - intros rc0 gr0 url ref H E. moved H; [done|eauto].
  - intros rc0 gr0 H Hw0. moved H; [done|].
    destruct (owner_heads0 _ _ H Hw0) as (chans0 & Hp).
    destruct (decide (normalizedName gr0 = normalizedName gr)) as [E|Hne].
    + rewrite E in *. rewrite Hp in Hproto. injection Hproto as <-.
      exists (chans0 ++ [rc]). by rewrite lookup_insert_eq.
    + exists chans0. by rewrite lookup_insert_ne.
  - intros n l H. apply lookup_insert_Some in H as [[<- <-]|[Hne H]].
    + destruct (headed_by_owner0 _ _ Hproto) as (rc0 & chans' & gr0 & -> & Hg & Hw0).
      exists rc0, (chans' ++ [rc]), gr0. split; [done|].
      rewrite lookup_insert_ne; [done|]. intros <-.
      rewrite Hgr in Hg. injection Hg as <-. by rewrite Hat in Hw0.
    + destruct (headed_by_owner0 _ _ H) as (rc0 & chans' & gr0 & -> & Hg & Hw0).
      exists rc0, chans', gr0. split; [done|].
      rewrite lookup_insert_ne; [done|]. intros <-.
      rewrite Hgr in Hg. injection Hg as <-. by rewrite Hat in Hw0.
  - intros rc0 gr0 H Hu0. moved H; [done|eauto].
  - intros rc0 gr0 sg l H E. moved H; [done|eauto].
  - intros n rc0 (l & H & Hin). fields.
    apply lookup_insert_Some in H as [[<- <-]|[Hne H]].
    + apply elem_of_app in Hin as [Hin|Hin%list_elem_of_singleton].
      * destruct (waiting_name0 (normalizedName gr) rc0) as (gr0 & Hg & Hn & Hf);
          [by exists chans|].
        exists gr0. rewrite lookup_insert_ne; [done|]. by intros <-.
      * subst rc0. eexists. rewrite lookup_insert_eq. done.
    + destruct (waiting_name0 n rc0) as (gr0 & Hg & Hn & Hf); [by exists l|].
      exists gr0. rewrite lookup_insert_ne; [done|]. intros <-.
      rewrite Hgr in Hg. by injection Hg as <-.
  - intros n l H. apply lookup_insert_Some in H as [[<- <-]|[Hne H]]; [|eauto].
    destruct (waiting_once0 _ _ Hproto) as [Hnd Hfresh]. split.
    + apply NoDup_app. split; [done|]. split; [|apply NoDup_singleton].
      intros x Hx ->%list_elem_of_singleton. done.
    + intros x [Hx|Hx%list_elem_of_singleton]%elem_of_app; [eauto|by subst].
  - intros rc0 Hin. destruct (sent_started0 _ Hin) as (gr0 & Hg & Hr0).
    exists gr0. rewrite lookup_insert_ne; [done|]. by intros <-.
  - intros rc0 sg Hin. destruct (sent_registered0 _ _ Hin) as (gr0 & Hg & Hr0).
    assert (rc0 ∈ (sent c).*1) as Hin1.
    { apply list_elem_of_fmap. by exists (rc0, gotGateway sg). }
    exists gr0. rewrite lookup_insert_ne; [done|]. by intros <-.
  - intros rc0 gr0 H E. moved H.
    + right. fields. exists (chans ++ [rc]). rewrite lookup_insert_eq.
      split; [done|]. apply elem_of_app. right. by apply list_elem_of_singleton.
    + destruct (returned_served0 _ _ H E) as [Hs|(l & Hl & Hin)]; [by left|right]; fields.
      destruct (decide (normalizedName gr0 = normalizedName gr)) as [En|Hne].
      * rewrite En in *. rewrite Hl in Hproto. injection Hproto as <-.
        exists (l ++ [rc]). rewrite lookup_insert_eq. split; [done|].
        apply elem_of_app. by left.
      * exists l. by rewrite lookup_insert_ne.
Qed.

(** Lines 139-140: nobody sets the name up, the goroutine becomes its
    owner. *)
Lemma own_consistent c rc gr :
  consistent c →
  goroutines c !! rc = Some gr → at_ gr = atFold →
  protoSrcs c !! normalizedName gr = None →
  consistent
    (moveTo rc (normalizedName gr) atDeduce
       (setProtoSrcs (<[normalizedName gr := [rc]]> (protoSrcs c)) c)).
Proof.
  intros Hc Hgr Hat Hproto.
  pose proof (fold_not_sent c rc gr Hc Hgr Hat) as Hns.
  assert (∀ n, ¬ waiting c rc n) as Hnw
    by (intros n; by apply (fold_not_waiting c rc gr n Hc Hgr Hat)).
  destruct Hc. split; fields; try assumption.
  - intros rc0 gr0 url ref H E. moved H; [done|eauto].
  - intros rc0 gr0 H Hw0. moved H.
    + exists []. by rewrite lookup_insert_eq.
    + destruct (owner_heads0 _ _ H Hw0) as (chans0 & Hp).
      exists chans0. rewrite lookup_insert_ne; [done|]. intros E.
      rewrite <- E, Hproto in Hp. done.
  - intros n l H. apply lookup_insert_Some in H as [[<- <-]|[Hne H]].
    + exists rc, []. eexists. rewrite lookup_insert_eq. done.
    + destruct (headed_by_owner0 _ _ H) as (rc0 & chans' & gr0 & -> & Hg & Hw0).
      exists rc0, chans', gr0. split; [done|].
      rewrite lookup_insert_ne; [done|]. intros <-.
      rewrite Hgr in Hg. injection Hg as <-. by rewrite Hat in Hw0.
  - intros rc0 gr0 H Hu0. moved H; [done|eauto].
  - intros rc0 gr0 sg l H E. moved H; [done|eauto].
  - intros n rc0 (l & H & Hin). fields.
    apply lookup_insert_Some in H as [[<- <-]|[Hne H]].
    + apply list_elem_of_singleton in Hin as ->.
      eexists. rewrite lookup_insert_eq. done.
    + destruct (waiting_name0 n rc0) as (gr0 & Hg & Hn & Hf); [by exists l|].
      exists gr0. rewrite lookup_insert_ne; [done|]. intros <-.
      apply (Hnw n). by exists l.
  - intros n l H. apply lookup_insert_Some in H as [[<- <-]|[Hne H]]; [|eauto].
    split; [apply NoDup_singleton|].
    by intros x ->%list_elem_of_singleton.
  - intros rc0 Hin. destruct (sent_started0 _ Hin) as (gr0 & Hg & Hr0).
    exists gr0. rewrite lookup_insert_ne; [done|]. by intros <-.
  - intros rc0 sg Hin. destruct (sent_registered0 _ _ Hin) as (gr0 & Hg & Hr0).
    assert (rc0 ∈ (sent c).*1) as Hin1.
    { apply list_elem_of_fmap. by exists (rc0, gotGateway sg). }
    exists gr0. rewrite lookup_insert_ne; [done|]. by intros <-.
  - intros rc0 gr0 H E. moved H; [done|].
    destruct (returned_served0 _ _ H E) as [Hs|(l & Hl & Hin)]; [by left|right]; fields.
    exists l. rewrite lookup_insert_ne; [done|]. intros En.
    rewrite En, Hl in Hproto. done.
Qed.

(** What an answer of [sourceURL] says of the gateway it leaves. *)
Lemma sourceURL_answer (g : sourceGateway W) url g' :
  sourceURL g = Ret (url, None) g' →
  ∃ a, src g' = Some a ∧ Source.upstreamURL a = url ∧
       Z.testbit (srcState g') 0 = true.
Proof.
  intros Hurl.
  destruct (require sourceIsSetUp g) as [[st [e|]] g1| g1 |] eqn:Hreq.
  - by rewrite (sourceURL_failed g st e g1 Hreq) in Hurl.
  - rewrite (sourceURL_answered g st g1 Hreq) in Hurl.
    destruct (src g1) as [a|] eqn:Hsrc; [|done].
    injection Hurl as <- <-.
    apply require_ok in Hreq as [_ Hincl].
    exists a. split; [done|]. split; [done|]. by apply Hincl.
  - by rewrite (sourceURL_panics g g1 Hreq) in Hurl.
  - by apply require_never_spins in Hreq.
Qed.

Lemma servesURL_allocate c g url ref :
  consistent c → servesURL c url ref → servesURL (allocate g c) url ref.
Proof.
  intros [] (g0 & a & Hh & Hrest). exists g0, a. split; [|done].
  fields. destruct g as [g|]; [|done].
  rewrite lookup_insert_ne; [done|].
  assert (ref < allocated c)%nat by (apply heap_below0; by eexists). lia.
Qed.

(** Line 185: a gateway is made. *)
Lemma allocate_consistent c g :
  consistent c → consistent (allocate g c).
Proof.
  intros Hc. pose proof (servesURL_allocate c g) as Hmono.
  destruct Hc as [] eqn:Ec. clear Ec. split; fields; try assumption.
  - intros url ref H. apply Hmono; [|eauto]. by split.
  - intros ref H. destruct g as [g|].
    + apply lookup_insert_is_Some in H as [<-|[_ H]]; [lia|].
      apply heap_below0 in H. lia.
    + apply heap_below0 in H. lia.
  - intros rc gr url ref H E. apply Hmono; [|eauto]. by split.
Qed.

(** Two owners of one name are one goroutine. *)
Lemma one_owner c rc1 rc2 gr1 gr2 :
  consistent c →
  goroutines c !! rc1 = Some gr1 → goroutines c !! rc2 = Some gr2 →
  working (at_ gr1) → working (at_ gr2) →
  normalizedName gr1 = normalizedName gr2 → rc1 = rc2.
Proof.
  intros [] H1 H2 W1 W2 E.
  destruct (owner_heads0 _ _ H1 W1) as (l1 & P1).
  destruct (owner_heads0 _ _ H2 W2) as (l2 & P2).
  rewrite E, P2 in P1. by injection P1.
Qed.

(** Lines 205-217: the name is recorded, and the gateway too unless the
    URL has one. *)
Lemma install_consistent c c' rc gr url ref sg :
  consistent c →
  goroutines c !! rc = Some gr → at_ gr = atInstall url ref →
  nameToURL c' = <[normalizedName gr := url]> (nameToURL c) →
  srcs c ⊆ srcs c' → srcs c' !! url = Some sg →
  (∀ u r, srcs c' !! u = Some r → srcs c !! u = Some r ∨ (u = url ∧ r = ref)) →
  heap c' = heap c → allocated c' = allocated c →
  protoSrcs c' = protoSrcs c → sent c' = sent c → answered c' = answered c →
  crashed c' = crashed c →
  goroutines c' =
    <[rc := {| normalizedName := normalizedName gr;
               at_ := atReturn (gotGateway sg) true |}]> (goroutines c) →
  consistent c'.
Proof.
  intros Hc Hgr Hat En Hsub Hurl Hsrcs Eh Ea Ep Es Ean Ecr Eg.
  assert (working (at_ gr)) as Hw by (by rewrite Hat).
  assert (nameToURL c !! normalizedName gr = None) as Hnone.
  { apply (unresolved_name c Hc rc gr Hgr). by rewrite Hat. }
  assert (servesURL c url ref) as Hserve
    by (by apply (installing_serves c Hc rc gr url ref)).
  assert (nameToURL c ⊆ nameToURL c') as Hnsub
    by (rewrite En; by apply insert_subseteq).
  assert (∀ n s, registered c n s → registered c' n s) as Hmono
    by (intros n s; by apply registered_mono).
  assert (∀ u r, servesURL c u r → servesURL c' u r) as Hsmono.
  { intros u r (g0 & a & Hh & Hrest). exists g0, a. by rewrite Eh. }
  pose proof (one_owner c) as Hone.
  destruct Hc as [] eqn:Ec. clear Ec.
  split; rewrite ?Eg, ?Ep, ?Es, ?Ean, ?Ecr, ?Ea; try assumption.
  - intros n u. rewrite En. intros [[<- <-]|[Hne H]]%lookup_insert_Some.
    + by rewrite Hurl.
    + destruct (names_have_gateways0 _ _ H) as [r Hr]. exists r.
      by eapply lookup_weaken.
  - intros u r H. apply Hsmono. destruct (Hsrcs _ _ H) as [Hold|[-> ->]]; eauto.
  - intros r. rewrite Eh. auto.
  - intros rc0 gr0 u r H E. moved H; [done|eauto].
  - intros rc0 gr0 H Hw0. moved H; eauto.
  - intros n chans H.
    destruct (headed_by_owner0 _ _ H) as (rc0 & chans' & gr0 & -> & Hg & Hw0).
    destruct (decide (rc0 = rc)) as [->|Hne].
    + exists rc, chans'. eexists. split; [done|]. rewrite lookup_insert_eq. done.
    + exists rc0, chans', gr0. rewrite lookup_insert_ne by done. done.
  - intros rc0 gr0 H Hu0. moved H; [done|]. rewrite En.
    rewrite lookup_insert_ne; [eauto|].
    intros E. apply H0. apply (Hone rc rc0 gr gr0); try done.
    by destruct (at_ gr0).
  - intros rc0 gr0 s l H E. moved H.
    + injection E as <- <-. exists url. rewrite En, lookup_insert_eq. done.
    + eauto.
  - intros n rc0 Hwait. unfold waiting in Hwait. rewrite Ep in Hwait.
    destruct (waiting_name0 _ _ Hwait) as (gr0 & Hg & Hn & Hf).
    destruct (decide (rc0 = rc)) as [->|Hne].
    + eexists. rewrite lookup_insert_eq. split; [done|]. cbn.
      rewrite Hgr in Hg. injection Hg as <-. done.
    + exists gr0. rewrite lookup_insert_ne by done. done.
  - intros rc0 Hin. destruct (sent_started0 _ Hin) as (gr0 & Hg & Hr0).
    exists gr0. rewrite lookup_insert_ne; [done|]. intros <-.
    rewrite Hgr in Hg. injection Hg as <-. by rewrite Hr0 in Hw.
  - intros rc0 s Hin. destruct (sent_registered0 _ _ Hin) as (gr0 & Hg & Hr0).
    destruct (decide (rc0 = rc)) as [->|Hne].
    + rewrite Hgr in Hg. injection Hg as <-.
      eexists. rewrite lookup_insert_eq. split; [done|]. cbn. eauto.
    + exists gr0. rewrite lookup_insert_ne by done. eauto.
  - eauto.
  - intros rc0 gr0 H E. moved H; [done|].
    unfold waiting. rewrite Ep. eauto.
Qed.

Lemma sent_to (res : answer) (chans : list srcReturnChans) :
  (map (λ rc', (rc', res)) chans).*1 = chans.
Proof. induction chans as [|x k IH]; [done|]. cbn. by rewrite IH. Qed.

(** Channels wait under the name of their goroutine only. *)
Lemma waiting_one_name c rc n1 n2 :
  consistent c → waiting c rc n1 → waiting c rc n2 → n1 = n2.
Proof.
  intros [] H1 H2.
  destruct (waiting_name0 _ _ H1) as (g1 & Hg1 & <- & _).
  destruct (waiting_name0 _ _ H2) as (g2 & Hg2 & <- & _).
  congruence.
Qed.

(** In the list of a name everyone but the owner has returned. *)
Lemma waiter_returned c rc gr chans rc0 :
  consistent c →
  goroutines c !! rc = Some gr → working (at_ gr) →
  protoSrcs c !! normalizedName gr = Some (rc :: chans) → rc0 ∈ chans →
  rc0 ≠ rc ∧ ∃ gr0, goroutines c !! rc0 = Some gr0 ∧ at_ gr0 = returned ∧
                    normalizedName gr0 = normalizedName gr.
Proof.
  intros Hc Hgr Hw Hp Hin.
  destruct (waiting_once c Hc _ _ Hp) as [Hnd _].
  apply NoDup_cons in Hnd as [Hnin _].
  split; [by intros ->|].
  destruct (waiting_name c Hc (normalizedName gr) rc0) as (gr0 & Hg & Hn & Hf).
  { exists (rc :: chans). split; [done|]. by apply list_elem_of_further. }
  exists gr0. split; [done|]. split; [|done].
  destruct (not_fold_cases _ Hf) as [Hw0|]; [|done].
  destruct (owner_heads c Hc _ _ Hg Hw0) as (l & Hl).
  rewrite Hn, Hp in Hl. injection Hl as -> _. done.
Qed.

(** [doReturn], lines 142-158. *)
Lemma doReturn_consistent c rc gr res l :
  consistent c →
  goroutines c !! rc = Some gr → at_ gr = atReturn res l →
  consistent (doReturn rc (normalizedName gr) res l c).
Proof.
  intros Hc Hgr Hat.
  assert (working (at_ gr)) as Hw by (by rewrite Hat).
  destruct (owner_heads c Hc _ _ Hgr Hw) as (chans & Hp).
  pose proof (waiter_returned c rc gr chans) as Hret.
  pose proof (λ x n1 n2, waiting_one_name c x n1 n2 Hc) as Hname.
  pose proof (λ r1 r2 g1 g2, one_owner c r1 r2 g1 g2 Hc) as Hone.
  assert (∀ s, res = gotGateway s → registered c (normalizedName gr) s) as Hreg.
  { intros s ->. by apply (returning_registered c Hc rc gr s l). }
  assert (∀ n s, registered
            (doReturn rc (normalizedName gr) res l c) n s ↔ registered c n s)
    as Hsame by (intros n s; by destruct l).
  destruct Hc as [] eqn:Ec. clear Ec.
  assert (∀ n0 l0 x, protoSrcs c !! n0 = Some l0 → n0 ≠ normalizedName gr →
                     x ∈ l0 → x ∉ rc :: chans) as Hapart.
  { intros n0 l0 x H0 Hne Hx Hx'. apply Hne.
    apply (Hname x); [by exists l0|by exists (rc :: chans)]. }
  split; try (destruct l; fields; assumption).
  - destruct l; fields; intros rc0 gr0 u r H E; (moved H; [done|eauto]).
  - assert (∀ rc0 gr0,
      <[rc := {| normalizedName := normalizedName gr; at_ := returned |}]>
        (goroutines c) !! rc0 = Some gr0 → working (at_ gr0) →
      ∃ chans0, delete (normalizedName gr) (protoSrcs c)
                  !! normalizedName gr0 = Some (rc0 :: chans0)) as Hgoal.
    { intros rc0 gr0 H Hw0. moved H; [done|].
      destruct (owner_heads0 _ _ H Hw0) as (l0 & Hl0).
      exists l0. rewrite lookup_delete_ne; [done|].
      intros E. apply H0. by apply (Hone rc rc0 gr gr0). }
    destruct l; fields; exact Hgoal.
  - assert (∀ n l0, delete (normalizedName gr) (protoSrcs c) !! n = Some l0 →
      ∃ rc0 chans' gr0, l0 = rc0 :: chans' ∧
        <[rc := {| normalizedName := normalizedName gr; at_ := returned |}]>
          (goroutines c) !! rc0 = Some gr0 ∧ working (at_ gr0)) as Hgoal.
    { intros n l0 [Hne H]%lookup_delete_Some.
      destruct (headed_by_owner0 _ _ H) as (rc0 & chans' & gr0 & -> & Hg & Hw0).
      exists rc0, chans', gr0. split; [done|].
      rewrite lookup_insert_ne; [done|]. intros <-.
      apply (Hapart n (rc :: chans') rc); [done|congruence| |];
        apply list_elem_of_here. }
    destruct l; fields; exact Hgoal.
  - destruct l; fields; intros rc0 gr0 H Hu0; (moved H; [done|eauto]).
  - destruct l; fields; intros rc0 gr0 s b H E; (moved H; [done|eauto]).
  - assert (∀ n rc0,
      (∃ l0, delete (normalizedName gr) (protoSrcs c) !! n = Some l0 ∧ rc0 ∈ l0) →
      ∃ gr0,
        <[rc := {| normalizedName := normalizedName gr; at_ := returned |}]>
          (goroutines c) !! rc0 = Some gr0 ∧
        normalizedName gr0 = n ∧ at_ gr0 ≠ atFold) as Hgoal.
    { intros n rc0 (l0 & [Hne H]%lookup_delete_Some & Hin).
      destruct (waiting_name0 n rc0) as (gr0 & Hg & Hn & Hf); [by exists l0|].
      exists gr0. rewrite lookup_insert_ne; [done|]. intros <-.
      apply (Hapart n l0 rc); [done|congruence|done|apply list_elem_of_here]. }
    destruct l; fields; exact Hgoal.
  - assert (∀ n l0, delete (normalizedName gr) (protoSrcs c) !! n = Some l0 →
      NoDup l0 ∧
      ∀ x, x ∈ l0 →
           x ∉ (sent c ++ map (λ rc', (rc', res))
                  (default [] (protoSrcs c !! normalizedName gr))).*1) as Hgoal.
    { intros n l0 [Hne H]%lookup_delete_Some.
      destruct (waiting_once0 _ _ H) as [Hnd Hfresh]. split; [done|].
      intros x Hx. rewrite Hp. cbn [default].
      rewrite fmap_app. intros [Hin|Hin]%elem_of_app; [by apply (Hfresh x)|].
      rewrite sent_to in Hin.
      by apply (Hapart n l0 x). }
    destruct l; fields; exact Hgoal.
  - assert (NoDup (sent c ++ map (λ rc', (rc', res))
                     (default [] (protoSrcs c !! normalizedName gr))).*1) as Hgoal.
    { rewrite Hp. cbn [default]. rewrite fmap_app.
      rewrite sent_to.
      destruct (waiting_once0 _ _ Hp) as [Hnd Hfresh].
      apply NoDup_app. split; [done|]. split; [|done].
      intros x Hx Hx'. by apply (Hfresh x). }
    destruct l; fields; exact Hgoal.
  - assert (∀ rc0,
      rc0 ∈ (sent c ++ map (λ rc', (rc', res))
               (default [] (protoSrcs c !! normalizedName gr))).*1 →
      ∃ gr0,
        <[rc := {| normalizedName := normalizedName gr; at_ := returned |}]>
          (goroutines c) !! rc0 = Some gr0 ∧ at_ gr0 = returned) as Hgoal.
    { intros rc0. rewrite Hp. cbn [default]. rewrite fmap_app.
      rewrite sent_to.
      intros [Hin|Hin]%elem_of_app.
      - destruct (sent_started0 _ Hin) as (gr0 & Hg & Hr0).
        exists gr0. rewrite lookup_insert_ne; [done|]. intros <-.
        rewrite Hgr in Hg. injection Hg as <-. by rewrite Hr0 in Hw.
      - apply elem_of_cons in Hin as [->|Hin].
        + eexists. rewrite lookup_insert_eq. done.
        + destruct (Hret rc0 Hc Hgr Hw Hp Hin) as (Hne & gr0 & Hg & Hr0 & _).
          exists gr0. rewrite lookup_insert_ne; done. }
    destruct l; fields; exact Hgoal.
  - assert (∀ rc0 s,
      (rc0, gotGateway s) ∈ sent c ++ map (λ rc', (rc', res))
               (default [] (protoSrcs c !! normalizedName gr)) →
      ∃ gr0,
        <[rc := {| normalizedName := normalizedName gr; at_ := returned |}]>
          (goroutines c) !! rc0 = Some gr0 ∧
        registered c (normalizedName gr0) s) as Hgoal.
    { intros rc0 s. rewrite Hp. cbn [default].
      intros [Hin|Hin]%elem_of_app.
      - destruct (sent_registered0 _ _ Hin) as (gr0 & Hg & Hr0).
        destruct (decide (rc0 = rc)) as [->|Hne].
        + rewrite Hgr in Hg. injection Hg as <-.
          eexists. rewrite lookup_insert_eq. done.
        + exists gr0. rewrite lookup_insert_ne; done.
      - change (map ?f ?k) with (f <$> k) in Hin.
        apply list_elem_of_fmap in Hin as (x & E & Hx).
        injection E as -> <-.
        apply elem_of_cons in Hx as [->|Hx].
        + eexists. rewrite lookup_insert_eq. split; [done|]. by apply Hreg.
        + destruct (Hret x Hc Hgr Hw Hp Hx) as (Hne & gr0 & Hg & _ & Hn).
          exists gr0. rewrite lookup_insert_ne; [|done].
          split; [done|]. rewrite Hn. by apply Hreg. }
    destruct l; fields; exact Hgoal.
  - assert (∀ rc0 gr0,
      <[rc := {| normalizedName := normalizedName gr; at_ := returned |}]>
        (goroutines c) !! rc0 = Some gr0 → at_ gr0 = returned →
      rc0 ∈ (sent c ++ map (λ rc', (rc', res))
               (default [] (protoSrcs c !! normalizedName gr))).*1 ∨
      ∃ l0, delete (normalizedName gr) (protoSrcs c) !! normalizedName gr0
              = Some l0 ∧ rc0 ∈ l0) as Hgoal.
    { intros rc0 gr0 H E. rewrite Hp. cbn [default]. rewrite fmap_app.
      rewrite sent_to.
      moved H.
      - left. apply elem_of_app. right. apply list_elem_of_here.
      - destruct (returned_served0 _ _ H E) as [Hs|(l0 & Hl0 & Hin)].
        + left. apply elem_of_app. by left.
        + destruct (decide (normalizedName gr0 = normalizedName gr)) as [En|Hne].
          * left. apply elem_of_app. right. rewrite En, Hp in Hl0.
            by injection Hl0 as <-.
          * right. exists l0. by rewrite lookup_delete_ne. }
    destruct l; fields; exact Hgoal.
Qed.

Lemma new_consistent (sup : supervisor W) dir :
  consistent (newSourceCoordinator sup dir).
Proof.
  split; cbn; try done.
  - intros ref [g H]. by rewrite lookup_empty in H.
  - intros n rc (l & H & _). cbn [newSourceCoordinator protoSrcs] in H.
    by rewrite lookup_empty in H.
  - constructor.
  - intros rc H. by apply elem_of_nil in H.
  - intros rc sg H. by apply elem_of_nil in H.
  - intros n sg H. by apply elem_of_nil in H.
Qed.

Lemma getSourceGatewayFor_consistent terminated name rc c c' :
  consistent c → getSourceGatewayFor terminated name rc c = Some c' →
  consistent c'.
Proof.
  intros Hc. unfold getSourceGatewayFor.
  destruct terminated; [by intros [= <-]|].
  destruct (srcmut c); [done|].
  destruct (nameToURL c !! name) as [url|] eqn:Hn.
  - destruct (srcs c !! url) as [sg|] eqn:Hs.
    + intros [= <-]. apply answer_consistent; [done|]. by exists url.
    + destruct (names_have_gateways c Hc _ _ Hn) as [sg Hsg]. congruence.
  - destruct (goroutines c !! rc) eqn:Hg; [done|].
    intros [= <-]. by apply spawn_consistent.
Qed.

Lemma advance_consistent rc deduced cl w c c' :
  consistent c → advance rc deduced cl w c = Some c' → consistent c'.
Proof.
  intros Hc. unfold advance.
  destruct (goroutines c !! rc) as [gr|] eqn:Hgr; [|done]. cbn [mbind option_bind].
  destruct (at_ gr) as [| |mb|mb|url ref|res l|] eqn:Hat.
  - destruct (protoSrcs c !! normalizedName gr) as [chans|] eqn:Hp;
      intros [= <-]; [by apply fold_consistent|by apply own_consistent].
  - destruct deduced as [mb|err]; intros [= <-];
      apply move_consistent; try done; by rewrite Hat.
  - destruct (srcmut c); [done|].
    destruct (nameToURL c !! normalizedName gr) as [url|] eqn:Hn.
    + destruct (srcs c !! url) as [sg|] eqn:Hs.
      * intros [= <-]. apply move_consistent; try done; [by rewrite Hat|].
        intros s l [= <- <-]. by exists url.
      * destruct (names_have_gateways c Hc _ _ Hn) as [sg Hsg]. congruence.
    + intros [= <-]. apply move_consistent; try done. by rewrite Hat.
  - destruct (sourceURL (newSourceGateway mb (superv c) (cachedir c) cl w))
      as [[url [err|]] g| g |] eqn:Hurl; [| | |done]; intros [= <-].
    + apply move_consistent; try done.
      * by apply allocate_consistent.
      * by rewrite Hat.
    + apply sourceURL_answer in Hurl as (a & Hsrc & Ha & Hbit).
      apply move_consistent; try done.
      * by apply allocate_consistent.
      * by rewrite Hat.
      * intros _. apply (unresolved_name c Hc rc gr Hgr). by rewrite Hat.
      * intros u r [= <- <-]. exists g, a. cbn. by rewrite lookup_insert_eq.
    + by apply panic_consistent.
  - destruct (srcmut c); [done|]. cbn [setNameToURL setSrcmut srcs].
    destruct (srcs c !! url) as [sa|] eqn:Hs; intros [= <-].
    + apply (install_consistent c _ rc gr url ref sa); try done.
      cbn. auto.
    + apply (install_consistent c _ rc gr url ref ref); try done; cbn.
      * by apply insert_subseteq.
      * by rewrite lookup_insert_eq.
      * intros u r [[<- <-]|[_ H]]%lookup_insert_Some; auto.
  - intros [= <-]. by apply doReturn_consistent.
  - done.
Qed.

Lemma fire_consistent e c c' :
  consistent c → fire e c = Some c' → consistent c'.
Proof.
  intros Hc. unfold fire. destruct (crashed c); [done|].
  destruct e; [apply getSourceGatewayFor_consistent|apply advance_consistent]; done.
Qed.

Lemma play_consistent es c c' :
  consistent c → play es c = Some c' → consistent c'.
Proof.
  revert c. induction es as [|e es IH]; intros c Hc; cbn [play].
  - by intros [= <-].
  - destruct (fire e c) as [c1|] eqn:He; [|done]. cbn.
    apply IH. by apply (fire_consistent e c).
Qed.

End CoordinatorSteps.

Section CoordinatorLock.
Import Coordinator.
Context {W : Type}.
Implicit Types (c : sourceCoordinator (W := W)) (p : point (W := W))
  (gr : goroutine (W := W)).

Ltac moved H :=
  apply lookup_insert_Some in H as [[<- <-] | [? H]]; cbn [normalizedName at_] in *.

(** A goroutine that does not hold the lock moves to a point where it
    does not hold it either; the lock is left as it is. *)
Lemma lockedByOne_move c c' rc gr p :
  lockedByOne c →
  goroutines c !! rc = Some gr →
  goroutines c' =
    <[rc := {| normalizedName := normalizedName gr; at_ := p |}]> (goroutines c) →
  srcmut c' = srcmut c →
  ¬ holds (at_ gr) → ¬ holds p →
  lockedByOne c'.
Proof.
  intros (H1 & H2 & H3) Hgr Eg Em Hn Hp. unfold lockedByOne. rewrite Em, Eg.
  split; [|split].
  - intros Hl. destruct (H1 Hl) as (rc0 & gr0 & Hg & Hh).
    exists rc0, gr0. rewrite lookup_insert_ne; [done|]. intros <-.
    rewrite Hgr in Hg. by injection Hg as <-.
  - intros rc0 gr0 H Hh. moved H; [done|eauto].
  - intros rc1 rc2 gr1 gr2 Hg1 Hg2 Hh1 Hh2.
    moved Hg1; [done|]. moved Hg2; [done|]. eauto.
Qed.

Lemma lockedByOne_spawn c rc name :
  lockedByOne c → goroutines c !! rc = None →
  lockedByOne (moveTo rc name atFold c).
Proof.
  intros (H1 & H2 & H3) Hnew. unfold lockedByOne. cbn.
  split; [|split].
  - intros Hl. destruct (H1 Hl) as (rc0 & gr0 & Hg & Hh).
    exists rc0, gr0. rewrite lookup_insert_ne; [done|]. congruence.
  - intros rc0 gr0 H Hh. moved H; [done|eauto].
  - intros rc1 rc2 gr1 gr2 Hg1 Hg2 Hh1 Hh2.
    moved Hg1; [done|]. moved Hg2; [done|]. eauto.
Qed.

Ltac stays :=
  match goal with
  | Hl : lockedByOne ?c, Hgr : goroutines ?c !! ?rc = Some ?gr,
    Hat : at_ ?gr = _ |- _ =>
      eapply (lockedByOne_move c _ rc gr);
      [exact Hl|exact Hgr|reflexivity|reflexivity|rewrite Hat; cbn; tauto|cbn; tauto]
  end.

Lemma fire_lockedByOne e c c' :
  lockedByOne c → fire e c = Some c' → lockedByOne c'.
Proof.
  intros Hl. unfold fire. destruct (crashed c); [done|].
  destruct e as [terminated name rc|rc deduced cl w].
  - unfold getSourceGatewayFor. destruct terminated; [by intros [= <-]|].
    destruct (srcmut c) eqn:Hm; [done|].
    destruct (nameToURL c !! name) as [url|].
    + destruct (srcs c !! url); by intros [= <-].
    + destruct (goroutines c !! rc) eqn:Hg; [done|].
      intros [= <-]. by apply lockedByOne_spawn.
  - unfold advance.
    destruct (goroutines c !! rc) as [gr|] eqn:Hgr; [|done]. cbn [mbind option_bind].
    destruct (at_ gr) as [| |mb|mb|url ref|res l|] eqn:Hat.
    + destruct (protoSrcs c !! normalizedName gr);
        intros [= <-]; stays.
    + destruct deduced; intros [= <-];
        stays.
    + destruct (srcmut c); [done|].
      destruct (nameToURL c !! normalizedName gr) as [url|];
        [destruct (srcs c !! url)|]; intros [= <-]; try done;
        stays.
    + destruct (sourceURL _) as [[url [err|]] g| g |]; [| | |done];
        intros [= <-]; try done;
        stays.
    + destruct (srcmut c) eqn:Hm; [done|]. cbn [setNameToURL setSrcmut srcs].
      destruct Hl as (H1 & H2 & H3).
      assert (∀ rc0 gr0, goroutines c !! rc0 = Some gr0 → ¬ holds (at_ gr0)) as Hnone.
      { intros rc0 gr0 Hg Hh. specialize (H2 _ _ Hg Hh). congruence. }
      destruct (srcs c !! url) as [sa|]; intros [= <-]; unfold lockedByOne; cbn.
      * split; [|split].
        -- intros _. eexists rc, _. rewrite lookup_insert_eq. done.
        -- done.
        -- intros rc1 rc2 gr1 gr2 Hg1 Hg2 Hh1 Hh2.
           moved Hg1; moved Hg2; try done; exfalso; eapply Hnone; eauto.
      * split; [|split].
        -- intros _. eexists rc, _. rewrite lookup_insert_eq. done.
        -- done.
        -- intros rc1 rc2 gr1 gr2 Hg1 Hg2 Hh1 Hh2.
           moved Hg1; moved Hg2; try done; exfalso; eapply Hnone; eauto.
    + intros [= <-]. destruct l.
      * destruct Hl as (H1 & H2 & H3). unfold lockedByOne. cbn.
        assert (∀ rc0 gr0, rc0 ≠ rc → goroutines c !! rc0 = Some gr0 →
                           ¬ holds (at_ gr0)) as Hnone.
        { intros rc0 gr0 Hne Hg Hh. apply Hne.
          apply (H3 rc0 rc gr0 gr); try done. by rewrite Hat. }
        split; [done|]. split.
        -- intros rc0 gr0 H Hh. moved H; [done|]. exfalso. by eapply Hnone.
        -- intros rc1 rc2 gr1 gr2 Hg1 Hg2 Hh1 Hh2.
           moved Hg1; [done|]. exfalso. by eapply Hnone.
      * stays.
    + done.
Qed.

Lemma new_lockedByOne (sup : supervisor W) dir :
  lockedByOne (newSourceCoordinator sup dir).
Proof.
  split; [done|]. split.
  - intros rc gr H. cbn [newSourceCoordinator goroutines] in H.
    by rewrite lookup_empty in H.
  - intros rc1 rc2 gr1 gr2 H. cbn [newSourceCoordinator goroutines] in H.
    by rewrite lookup_empty in H.
Qed.

Lemma play_lockedByOne es c c' :
  lockedByOne c → play es c = Some c' → lockedByOne c'.
Proof.
  revert c. induction es as [|e es IH]; intros c Hc; cbn [play].
  - by intros [= <-].
  - destruct (fire e c) as [c1|] eqn:He; [|done]. cbn.
    apply IH. by apply (fire_lockedByOne e c).
Qed.

End CoordinatorLock.

Section CoordinatorGrowth.
Import Coordinator.
Context {W : Type}.
Implicit Types (c : sourceCoordinator (W := W)) (p : point (W := W))
  (gr : goroutine (W := W)).

Lemma extends_refl c : extends c c.
Proof. unfold extends. naive_solver. Qed.

Lemma extends_trans c1 c2 c3 : extends c1 c2 → extends c2 c3 → extends c1 c3.
Proof.
  intros (A1 & A2 & A3 & A4 & A5) (B1 & B2 & B3 & B4 & B5).
  split; [by etrans|]. split; [by etrans|]. split; [auto|]. split; [auto|].
  intros rc gr H. destruct (A5 _ _ H) as (gr' & H' & E).
  destruct (B5 _ _ H') as (gr'' & H'' & E'). exists gr''. split; [done|congruence].
Qed.

(** A step that moves one goroutine and leaves the rest alone. *)
Lemma extends_move c c' rc gr p :
  goroutines c !! rc = Some gr →
  goroutines c' =
    <[rc := {| normalizedName := normalizedName gr; at_ := p |}]> (goroutines c) →
  nameToURL c ⊆ nameToURL c' → srcs c ⊆ srcs c' →
  (∀ x, x ∈ sent c → x ∈ sent c') →
  answered c' = answered c →
  extends c c'.
Proof.
  intros Hgr Eg Hn Hs Hsent Ea.
  split; [done|]. split; [done|]. split; [done|]. split; [by rewrite Ea|].
  intros rc0 gr0 H. rewrite Eg. destruct (decide (rc0 = rc)) as [->|Hne].
  - rewrite Hgr in H. injection H as <-. eexists. by rewrite lookup_insert_eq.
  - exists gr0. by rewrite lookup_insert_ne.
Qed.

Lemma fire_extends e c c' :
  consistent c → fire e c = Some c' → extends c c'.
Proof.
  intros Hc. unfold fire. destruct (crashed c); [done|].
  destruct e as [terminated name rc|rc deduced cl w].
  - unfold getSourceGatewayFor. destruct terminated.
    { intros [= <-]. exact (extends_refl c). }
    destruct (srcmut c); [done|].
    destruct (nameToURL c !! name) as [url|].
    + destruct (srcs c !! url); intros [= <-]; [|exact (extends_refl c)].
      split; [done|]. split; [done|]. split; [done|]. split; [|by eauto].
      intros x Hx. cbn. apply elem_of_app. by left.
    + destruct (goroutines c !! rc) eqn:Hg; [done|]. intros [= <-].
      split; [done|]. split; [done|]. split; [done|]. split; [done|].
      intros rc0 gr0 H. exists gr0. cbn. rewrite lookup_insert_ne; [done|].
      congruence.
  - unfold advance.
    destruct (goroutines c !! rc) as [gr|] eqn:Hgr; [|done]. cbn [mbind option_bind].
    destruct (at_ gr) as [| |mb|mb|url ref|res l|] eqn:Hat.
    + destruct (protoSrcs c !! normalizedName gr); intros [= <-];
        by eapply (extends_move c _ rc gr).
    + destruct deduced; intros [= <-]; by eapply (extends_move c _ rc gr).
    + destruct (srcmut c); [done|].
      destruct (nameToURL c !! normalizedName gr) as [url|];
        [destruct (srcs c !! url)|]; intros [= <-];
        first [by eapply (extends_move c _ rc gr)|exact (extends_refl c)].
    + destruct (sourceURL _) as [[url [err|]] g| g |]; [| | |done];
        intros [= <-];
        first [by eapply (extends_move c _ rc gr)|exact (extends_refl c)].
    + destruct (srcmut c); [done|]. cbn [setNameToURL setSrcmut srcs].
      assert (nameToURL c !! normalizedName gr = None) as Hnone.
      { apply (unresolved_name c Hc rc gr Hgr). by rewrite Hat. }
      destruct (srcs c !! url) as [sa|] eqn:Hs; intros [= <-];
        eapply (extends_move c _ rc gr); try done; cbn;
        by apply insert_subseteq.
    + intros [= <-]. destruct l; eapply (extends_move c _ rc gr); try done;
        cbn; intros x Hx; apply elem_of_app; by left.
    + done.
Qed.

Lemma play_extends es c c' :
  consistent c → play es c = Some c' → extends c c'.
Proof.
  revert c. induction es as [|e es IH]; intros c Hc; cbn [play].
  - intros [= <-]. apply extends_refl.
  - destruct (fire e c) as [c1|] eqn:He; [|done]. cbn. intros Hp.
    apply (extends_trans c c1 c'); [by apply (fire_extends e)|].
    apply IH; [|done]. by apply (fire_consistent e c).
Qed.

Lemma handedOut_registered c name sg :
  consistent c → handedOut c name sg → registered c name sg.
Proof.
  intros Hc [Hin|(rc & gr & Hg & <- & Hin)].
  - by apply (answered_registered c Hc).
  - destruct (sent_registered c Hc _ _ Hin) as (gr0 & Hg0 & Hr). congruence.
Qed.

Lemma sourceURL_returns_or_panics (g : sourceGateway W) : sourceURL g ≠ Spin.
Proof.
  intros Hurl.
  destruct (require sourceIsSetUp g) as [[st [e|]] g1| g1 |] eqn:Hreq.
  - by rewrite (sourceURL_failed g st e g1 Hreq) in Hurl.
  - rewrite (sourceURL_answered g st g1 Hreq) in Hurl. by destruct (src g1).
  - by rewrite (sourceURL_panics g g1 Hreq) in Hurl.
  - by apply require_never_spins in Hreq.
Qed.

(** Unless the lock stands in its way, a goroutine that has not returned
    can take its next step. *)
Lemma advance_enabled c rc gr deduced cl w :
  goroutines c !! rc = Some gr → at_ gr ≠ returned →
  srcmut c = false ∨ holds (at_ gr) →
  ∃ c', advance rc deduced cl w c = Some c' ∧
        (holds (at_ gr) → srcmut c' = false).
Proof.
  intros Hgr Hat Hfree. unfold advance. rewrite Hgr. cbn [mbind option_bind].
  destruct (at_ gr) as [| |mb|mb|url ref|res l|] eqn:E; cbn [holds] in *.
  - destruct (protoSrcs c !! normalizedName gr); by eexists.
  - destruct deduced; by eexists.
  - destruct Hfree as [->|[]].
    destruct (nameToURL c !! normalizedName gr) as [url|];
      [destruct (srcs c !! url)|]; by eexists.
  - pose proof (sourceURL_returns_or_panics
                  (newSourceGateway mb (superv c) (cachedir c) cl w)) as Hns.
    destruct (sourceURL _) as [[url [err|]] g| g |]; [by eexists..|done].
  - destruct Hfree as [->|[]]. cbn [setNameToURL setSrcmut srcs].
    destruct (srcs c !! url); by eexists.
  - eexists. split; [done|]. by destruct l.
  - done.
Qed.

End CoordinatorGrowth.

Section CoordinatorTheorems.
Import Coordinator.
Context {W : Type}.
Variables (sup : supervisor W) (dir : string).
Implicit Types (c : sourceCoordinator (W := W)) (gr : goroutine (W := W)).

(** X16. Whatever the schedule, a name that has a URL has a gateway under
    that URL: the lookups of lines 104-111 and 174-181 never reach their
    panic. *)
Theorem coordinator_never_misses_gateway es c :
  play es (newSourceCoordinator sup dir) = Some c →
  (∀ name url, nameToURL c !! name = Some url → is_Some (srcs c !! url)) ∧
  (∀ url name, crashed c ≠ Some (noGatewayForURL url name)).
Proof.
  intros Hplay.
  pose proof (play_consistent es _ c (new_consistent sup dir) Hplay) as [].
  by split.
Qed.

(** X17. A gateway enters [srcs] under the URL its own adapter reports, and
    set up: the key of line 216 is the answer of [sourceURL] at line 197. *)
Theorem registered_gateway_serves_url es c url ref :
  play es (newSourceCoordinator sup dir) = Some c →
  srcs c !! url = Some ref →
  ∃ g a, heap c !! ref = Some g ∧ src g = Some a ∧
         Source.upstreamURL a = url ∧ Z.testbit (srcState g) 0 = true.
Proof.
  intros Hplay.
  pose proof (play_consistent es _ c (new_consistent sup dir) Hplay) as [].
  by apply gateways_serve0.
Qed.

(** X18. Nothing is forgotten or overwritten: over any further schedule an
    entry of [nameToURL] or [srcs] stays what it is, and so does every
    answer given. *)
Theorem coordinator_maps_only_grow es es' c c' :
  play es (newSourceCoordinator sup dir) = Some c →
  play es' c = Some c' →
  nameToURL c ⊆ nameToURL c' ∧ srcs c ⊆ srcs c' ∧
  (∀ name sg, registered c name sg → registered c' name sg) ∧
  (∀ name sg, handedOut c name sg → handedOut c' name sg).
Proof.
  intros Hplay Hplay'.
  pose proof (play_consistent es _ c (new_consistent sup dir) Hplay) as Hc.
  destruct (play_extends es' c c' Hc Hplay') as (Hn & Hs & Hsent & Hans & Hg).
  split; [done|]. split; [done|]. split.
  - intros name sg. by apply registered_mono.
  - intros name sg [Hin|(rc & gr & Hgr & <- & Hin)]; [left; auto|right].
    destruct (Hg _ _ Hgr) as (gr' & Hgr' & E). exists rc, gr'. auto.
Qed.

(** X19. One gateway per source: two requests whose names lead to the same
    URL, the same name in particular, are answered with the same gateway,
    whether by the fast path or on the channels. *)
Theorem same_source_same_gateway es c name1 name2 sg1 sg2 :
  play es (newSourceCoordinator sup dir) = Some c →
  handedOut c name1 sg1 → handedOut c name2 sg2 →
  nameToURL c !! name1 = nameToURL c !! name2 →
  sg1 = sg2 ∧ registered c name1 sg1.
Proof.
  intros Hplay H1 H2 E.
  pose proof (play_consistent es _ c (new_consistent sup dir) Hplay) as Hc.
  pose proof (handedOut_registered c _ _ Hc H1) as Hr1.
  destruct Hr1 as (u1 & Hn1 & Hs1) eqn:E1.
  destruct (handedOut_registered c _ _ Hc H2) as (u2 & Hn2 & Hs2).
  split; [|by exists u1]. congruence.
Qed.

(** X20. Simultaneous attempts on one name are folded together: at most
    one goroutine per name is between line 140 and its [doReturn]. *)
Theorem one_set_up_per_name es c rc1 rc2 gr1 gr2 :
  play es (newSourceCoordinator sup dir) = Some c →
  goroutines c !! rc1 = Some gr1 → goroutines c !! rc2 = Some gr2 →
  working (at_ gr1) → working (at_ gr2) →
  normalizedName gr1 = normalizedName gr2 →
  rc1 = rc2.
Proof.
  intros Hplay. apply one_owner.
  apply (play_consistent es _ c (new_consistent sup dir) Hplay).
Qed.

(** X21. Nobody is answered twice and nobody is dropped: no channels are
    sent on more than once, and the channels of a goroutine that has
    returned either have their answer, and wait in no list, or wait in the
    list of their name, which a goroutine still at work on that name will
    answer. *)
Theorem channels_answered_once es c :
  play es (newSourceCoordinator sup dir) = Some c →
  NoDup (sent c).*1 ∧
  ∀ rc gr, goroutines c !! rc = Some gr → at_ gr = returned →
    (rc ∈ (sent c).*1 ∧ (∀ name, ¬ waiting c rc name)) ∨
    ((rc ∉ (sent c).*1) ∧ waiting c rc (normalizedName gr) ∧
     ∃ rc' gr', goroutines c !! rc' = Some gr' ∧ working (at_ gr') ∧
                normalizedName gr' = normalizedName gr).
Proof.
  intros Hplay.
  pose proof (play_consistent es _ c (new_consistent sup dir) Hplay) as Hc.
  split; [apply (sent_once c Hc)|].
  intros rc gr Hgr Hat.
  destruct (returned_served c Hc _ _ Hgr Hat) as [Hin|(chans & Hp & Hin)].
  - left. split; [done|]. intros name (l & Hl & Hx).
    by apply (proj2 (waiting_once c Hc _ _ Hl) rc).
  - right. split; [by apply (proj2 (waiting_once c Hc _ _ Hp))|].
    split; [by exists chans|].
    destruct (headed_by_owner c Hc _ _ Hp) as (rc' & chans' & gr' & -> & Hg' & Hw').
    exists rc', gr'. split; [done|]. split; [done|].
    destruct (owner_heads c Hc _ _ Hg' Hw') as (l & Hl).
    destruct (waiting_name c Hc (normalizedName gr) rc') as (g0 & Hg0 & Hn0 & _).
    { exists (rc' :: chans'). split; [done|]. apply list_elem_of_here. }
    congruence.
Qed.

(** X22. The locks never leave the goroutines stuck.  While the process
    is alive, a goroutine that has not returned can take its next step
    whenever the write lock of [srcmut] is free; and when the lock is held,
    it is held by one goroutine only, whose next step can be taken and
    releases it. *)
Theorem coordinator_never_stuck es c rc gr :
  play es (newSourceCoordinator sup dir) = Some c →
  crashed c = None →
  goroutines c !! rc = Some gr → at_ gr ≠ returned →
  (srcmut c = false →
   ∀ deduced cl w, is_Some (fire (proceed rc deduced cl w) c)) ∧
  (srcmut c = true →
   ∃ rc' gr', goroutines c !! rc' = Some gr' ∧ holds (at_ gr') ∧
     (∀ rc'' gr'', goroutines c !! rc'' = Some gr'' → holds (at_ gr'') →
                   rc'' = rc') ∧
     ∀ deduced cl w, ∃ c', fire (proceed rc' deduced cl w) c = Some c' ∧
                           srcmut c' = false).
Proof.
  intros Hplay Halive Hgr Hat.
  destruct (play_lockedByOne es _ c (new_lockedByOne sup dir) Hplay)
    as (H1 & H2 & H3).
  split.
  - intros Hfree deduced cl w. unfold fire. rewrite Halive.
    destruct (advance_enabled c rc gr deduced cl w Hgr Hat) as (c' & -> & _);
      [by left|done].
  - intros Hheld. destruct (H1 Hheld) as (rc' & gr' & Hg' & Hh').
    exists rc', gr'. split; [done|]. split; [done|]. split.
    { intros rc'' gr'' Hg'' Hh''. by apply (H3 rc'' rc' gr'' gr'). }
    intros deduced cl w. unfold fire. rewrite Halive.
    destruct (advance_enabled c rc' gr' deduced cl w Hg') as (c' & -> & Hrel).
    + intros E. by rewrite E in Hh'.
    + by right.
    + exists c'. auto.
Qed.

End CoordinatorTheorems.

Local Open Scope string_scope.

(** ** The statements at work in the small world *)

(** Asked only whether the project is in the vendor root, a fresh gateway
    answers true and stays fresh. *)
Lemma checkExistence_without_flags_witness :
  checkExistence existsInVendorRoot Demo.newcomer = Ret true Demo.newcomer.
Proof. apply checkExistence_without_flags; reflexivity. Defined.

(** A known version, an unknown one once the list is there, and a known
    one on a fresh gateway. *)
Lemma convertToRevision_algorithm_witness :
  convertToRevision "v1.2.3" Demo.ready = Ret ("abc123", None) Demo.ready ∧
  convertToRevision "v9.9.9" Demo.ready
    = Ret ("", Some (errNoSuchVersion "v9.9.9")) Demo.ready ∧
  convertToRevision "v1.2.3" Demo.newcomer
    = Ret ("abc123", None)
          (Demo.after (require (Z.lor sourceIsSetUp sourceHasLatestVersionList)
                         Demo.newcomer)).
Proof.
  split; [|split].
  - apply (proj1 (convertToRevision_algorithm "v1.2.3" Demo.ready)).
    vm_compute. reflexivity.
  - apply (proj1 (proj2 (convertToRevision_algorithm "v9.9.9" Demo.ready)));
      vm_compute; reflexivity.
  - pose proof (proj2 (proj2 (convertToRevision_algorithm "v1.2.3" Demo.newcomer))
                  eq_refl eq_refl) as H.
    assert (require (Z.lor sourceIsSetUp sourceHasLatestVersionList) Demo.newcomer
            = Ret (0, None)
                (Demo.after (require (Z.lor sourceIsSetUp sourceHasLatestVersionList)
                               Demo.newcomer))) as Hreq
      by (vm_compute; reflexivity).
    rewrite Hreq in H. destruct H as [_ H]. rewrite H.
    vm_compute. reflexivity.
Defined.

(** A failing operation on a gateway that is set up, and three operations
    in a row on a fresh one. *)
Lemma state_bits_monotone_witness :
  ends (λ g', stateIncl (srcState Demo.ready) (srcState g'))
       (run (opGetManifestAndLock "root" "v9.9.9" Demo.analyzer) Demo.ready) ∧
  ends (λ g', stateIncl (srcState Demo.newcomer) (srcState g'))
       (runAll [opListVersions; opExportVersionTo "v9.9.9" "/tmp/x"; opSyncLocal]
               Demo.newcomer).
Proof.
  split.
  - apply (proj1 (state_bits_monotone _ [] Demo.ready)).
  - apply (proj2 (state_bits_monotone opSourceURL _ Demo.newcomer)).
Defined.

(** A repository that answers the ping is reported as not existing
    upstream. *)
Lemma baseVCS_existsUpstream_negates_Ping_witness :
  (BaseVCS.existsUpstream
     {| BaseVCS.crepo := {| BaseVCS.r :=
          {| BaseVCS.Vcs := "git";
             BaseVCS.CheckLocal := λ w : Demo.world, (Demo.cloned w, w);
             BaseVCS.Ping := λ w, (Demo.online w, w);
             BaseVCS.Remote := "https://example.org/x/y";
             BaseVCS.IsReference := λ _ w, (true, w) |} |} |}
     Demo.remote).1 = false.
Proof.
  rewrite (proj1 (baseVCS_existsUpstream_negates_Ping _ Demo.remote)).
  reflexivity.
Defined.

(** A revision the cache knows; one only the adapter knows, which gets
    marked; one nobody knows. *)
Lemma revisionPresentIn_behaviour_witness :
  revisionPresentIn "abc123" Demo.newcomer
    = Ret (true, None)
          (Demo.after (require (Z.lor sourceIsSetUp sourceExistsLocally) Demo.newcomer)) ∧
  revisionPresentIn "abc123" Demo.plain
    = Ret (true, None)
          (setCache (Cache.markRevisionExists "abc123" (cache Demo.local)) Demo.local) ∧
  revisionPresentIn "ffffff" Demo.plain = Ret (false, None) Demo.local.
Proof.
  assert (require (Z.lor sourceIsSetUp sourceExistsLocally) Demo.newcomer
          = Ret (0, None)
              (Demo.after (require (Z.lor sourceIsSetUp sourceExistsLocally)
                             Demo.newcomer))) as Hnew
    by (vm_compute; reflexivity).
  assert (require (Z.lor sourceIsSetUp sourceExistsLocally) Demo.plain
          = Ret (0, None) Demo.local) as Hplain
    by (vm_compute; reflexivity).
  split; [|split].
  - apply (proj1 (revisionPresentIn_behaviour "abc123" _ _ _ Hnew) ["v1.2.3"]).
    vm_compute. reflexivity.
  - rewrite (proj1 (proj2 (revisionPresentIn_behaviour "abc123" _ _ _ Hplain))
               Demo.adapter true None (world Demo.local));
      [|vm_compute; reflexivity..].
    vm_compute. reflexivity.
  - rewrite (proj1 (proj2 (proj2 (revisionPresentIn_behaviour "ffffff" _ _ _ Hplain))
                      Demo.adapter (world Demo.local)
                      ltac:(vm_compute; reflexivity) ltac:(vm_compute; reflexivity)
                      ltac:(vm_compute; reflexivity))).
    vm_compute. reflexivity.
Defined.

(** The supervisor cancels the backend call of both methods. *)
Lemma backend_error_leaves_cache_witness :
  getManifestAndLock "root" "v1.2.3" Demo.analyzer Demo.wary
    = Ret (None, None, Some Demo.cancelled)
          (Demo.after (getManifestAndLock "root" "v1.2.3" Demo.analyzer Demo.wary)) ∧
  listPackages "root" "v1.2.3" Demo.wary
    = Ret (noPackageTree, Some Demo.cancelled)
          (Demo.after (listPackages "root" "v1.2.3" Demo.wary)) ∧
  cache (Demo.after (getManifestAndLock "root" "v1.2.3" Demo.analyzer Demo.wary))
    = cache (Demo.after (convertToRevision "v1.2.3" Demo.wary)) ∧
  cache (Demo.after (listPackages "root" "v1.2.3" Demo.wary))
    = cache (Demo.after (convertToRevision "v1.2.3" Demo.wary)).
Proof.
  set (g1 := Demo.after (convertToRevision "v1.2.3" Demo.wary)).
  set (g2 := Demo.after (require (Z.lor sourceIsSetUp sourceExistsLocally) g1)).
  assert (convertToRevision "v1.2.3" Demo.wary = Ret ("abc123", None) g1) as Hconv
    by (vm_compute; reflexivity).
  assert (require (Z.lor sourceIsSetUp sourceExistsLocally) g1 = Ret (0, None) g2) as Hreq
    by (vm_compute; reflexivity).
  assert (src g2 = Some Demo.adapter) as Hsrc by (vm_compute; reflexivity).
  destruct (backend_error_leaves_cache "root" "v1.2.3" Demo.wary "abc123" g1 0 g2
              Demo.adapter Demo.cancelled Hconv Hreq Hsrc) as (Hm & Hp & Hc).
  destruct (Hm Demo.analyzer (None, None)
              (Demo.after (getManifestAndLock "root" "v1.2.3" Demo.analyzer Demo.wary))
              ltac:(vm_compute; reflexivity) ltac:(vm_compute; reflexivity))
    as [Hm1 Hm2].
  destruct (Hp noPackageTree
              (Demo.after (listPackages "root" "v1.2.3" Demo.wary))
              ltac:(vm_compute; reflexivity) ltac:(vm_compute; reflexivity))
    as [Hp1 Hp2].
  pose proof (Hc ltac:(vm_compute; reflexivity)) as Hc'.
  split; [done|]. split; [done|]. split; congruence.
Defined.

(** The second call on a fresh gateway, and a call for another project
    root that finds the same entry. *)
Lemma getManifestAndLock_cached_witness :
  getManifestAndLock "root" "v1.2.3" Demo.analyzer
      (Demo.after (getManifestAndLock "root" "v1.2.3" Demo.analyzer Demo.newcomer))
    = Ret (Some "manifest", Some "lock", None)
          (Demo.after (getManifestAndLock "root" "v1.2.3" Demo.analyzer Demo.newcomer)) ∧
  getManifestAndLock "elsewhere" "v1.2.3" Demo.analyzer
      (Demo.after (getManifestAndLock "root" "v1.2.3" Demo.analyzer Demo.newcomer))
    = Ret (Some "manifest", Some "lock", None)
          (Demo.after (getManifestAndLock "root" "v1.2.3" Demo.analyzer Demo.newcomer)).
Proof.
  set (served := Demo.after (getManifestAndLock "root" "v1.2.3" Demo.analyzer Demo.newcomer)).
  split.
  - apply (proj2 (getManifestAndLock_cached "root" "v1.2.3" Demo.analyzer Demo.newcomer)).
    + right. vm_compute. reflexivity.
    + vm_compute. reflexivity.
  - apply (proj1 (getManifestAndLock_cached "elsewhere" "v1.2.3" Demo.analyzer served)
             "abc123").
    + vm_compute. reflexivity.
    + vm_compute. reflexivity.
Defined.

(** The clone succeeds and the listing fails. *)
Lemma require_failure_witness :
  ∃ (k : nat) g1 addl,
    (k < 5)%nat ∧ sourceHasLatestVersionList = 2 ^ Z.of_nat k ∧
    Z.testbit Demo.wantsList (Z.of_nat k) = true ∧
    Z.testbit (srcState Demo.stalled) (Z.of_nat k) = false ∧
    require (below (Z.of_nat k) Demo.wantsList) Demo.stalled = Ret (0, None) g1 ∧
    requireStep sourceHasLatestVersionList g1
      = Ret (addl, Some Demo.unreachable)
            (Demo.after (require Demo.wantsList Demo.stalled)) ∧
    srcState (Demo.after (require Demo.wantsList Demo.stalled)) = srcState g1 ∧
    Z.testbit (srcState (Demo.after (require Demo.wantsList Demo.stalled))) (Z.of_nat k)
      = false ∧
    (∀ j, 0 <= j < Z.of_nat k → Z.testbit Demo.wantsList j = true →
          Z.testbit (srcState (Demo.after (require Demo.wantsList Demo.stalled))) j = true) ∧
    stateIncl (srcState Demo.stalled)
              (srcState (Demo.after (require Demo.wantsList Demo.stalled))) ∧
    ((0 < k)%nat → Z.testbit Demo.wantsList 0 = true →
     Z.testbit (srcState Demo.stalled) 0 = false →
     stateIncl (try_state (probe Demo.stalled))
               (srcState (Demo.after (require Demo.wantsList Demo.stalled)))) ∧
    ((2 < k)%nat →
     ∃ g2, require (below 2 Demo.wantsList) Demo.stalled = Ret (0, None) g2 ∧
           (Z.testbit Demo.wantsList 2 = true → Z.testbit (srcState g2) 2 = false →
            clones g2 →
            Z.testbit (srcState (Demo.after (require Demo.wantsList Demo.stalled))) 4
              = true)) ∧
    (∀ j, 0 <= j →
          Z.testbit (srcState (Demo.after (require Demo.wantsList Demo.stalled))) j = true →
          Z.testbit (srcState Demo.stalled) j = false →
          (j < Z.of_nat k ∧ Z.testbit Demo.wantsList j = true) ∨
          ((0 < k)%nat ∧ Z.testbit Demo.wantsList 0 = true ∧
           Z.testbit (srcState Demo.stalled) 0 = false ∧
           Z.testbit (try_state (probe Demo.stalled)) j = true) ∨
          (j = 4 ∧ (2 < k)%nat ∧ Z.testbit Demo.wantsList 2 = true ∧
           ∃ g2, require (below 2 Demo.wantsList) Demo.stalled = Ret (0, None) g2 ∧
                 Z.testbit (srcState g2) 2 = false ∧ clones g2)).
Proof.
  apply (require_failure Demo.wantsList Demo.stalled sourceHasLatestVersionList
           Demo.unreachable).
  vm_compute. reflexivity.
Defined.

(** C5 as it is stated does not hold: a failing step of
    [sourceHasLatestVersionList] (bit 3) can leave [sourceHasLatestLocally]
    (bit 4) newly set, because the step of [sourceExistsLocally] before it
    cloned the source. *)
Lemma require_sets_bit_above_failing_step :
  ¬ (∀ (wanted : sourceState) (g g' : sourceGateway Demo.world) f e,
       require wanted g = Ret (f, Some e) g' →
       ∀ j, 0 <= j → f <= 2 ^ j →
            Z.testbit (srcState g) j = false → Z.testbit (srcState g') j = false).
Proof.
  intros H.
  assert (require Demo.wantsList Demo.stalled
          = Ret (sourceHasLatestVersionList, Some Demo.unreachable)
                (Demo.after (require Demo.wantsList Demo.stalled))) as Hreq
    by (vm_compute; reflexivity).
  specialize (H _ _ _ _ _ Hreq 4 ltac:(lia) ltac:(vm_compute; discriminate)
                ltac:(vm_compute; reflexivity)).
  vm_compute in H. discriminate H.
Qed.

(** C3 as it is stated does not hold: for a version that does not resolve,
    [exportVersionTo] has already dispatched the clone of the source. *)
Lemma exportVersionTo_clones_before_resolving :
  ¬ (∀ (v : Version) (to : string) (g g' : sourceGateway Demo.world) res,
       (∃ e g1, convertToRevision v g = Ret (""%string, Some e) g1) →
       exportVersionTo v to g = Ret res g' →
       ∀ l, calls g' = (calls g ++ l)%list → (ctSourceInit ∉ l) ∧ (ctExportTree ∉ l)).
Proof.
  intros H.
  assert (exportVersionTo "v9.9.9" "/tmp/x" Demo.newcomer
          = Ret (Some (errNoSuchVersion "v9.9.9"))
                (Demo.after (exportVersionTo "v9.9.9" "/tmp/x" Demo.newcomer))) as Hexp
    by (vm_compute; reflexivity).
  destruct (H "v9.9.9" "/tmp/x" Demo.newcomer _ _
              ltac:(eexists _, _; vm_compute; reflexivity) Hexp
              [ctListVersions; ctSourceInit] ltac:(vm_compute; reflexivity))
    as [Hinit _].
  apply Hinit. apply list_elem_of_In. simpl. auto.
Qed.

(** On a fresh gateway and on one that is set up: a version that does not
    resolve, and one that does. *)
Lemma exportVersionTo_order_witness :
  exportVersionTo "v9.9.9" "/tmp/x" Demo.newcomer
    = Ret (Some (errNoSuchVersion "v9.9.9"))
          (Demo.after (exportVersionTo "v9.9.9" "/tmp/x" Demo.newcomer)) ∧
  (∃ l, calls (Demo.after (exportVersionTo "v9.9.9" "/tmp/x" Demo.newcomer))
        = (calls Demo.newcomer ++ probeCalls Demo.newcomer ++ l)%list ∧
        ctExportTree ∉ l) ∧
  exportVersionTo "v9.9.9" "/tmp/x" Demo.ready
    = Ret (Some (errNoSuchVersion "v9.9.9"))
          (Demo.after (exportVersionTo "v9.9.9" "/tmp/x" Demo.ready)) ∧
  (∃ l, calls (Demo.after (exportVersionTo "v9.9.9" "/tmp/x" Demo.ready))
        = (calls Demo.ready ++ l)%list ∧ ctExportTree ∉ l) ∧
  (∃ err g3,
     exportVersionTo "v1.2.3" "/tmp/x" Demo.ready = Ret err g3 ∧
     calls g3 = (calls (Demo.after (require (Z.lor sourceIsSetUp sourceExistsLocally)
                                      Demo.ready)) ++ [ctExportTree])%list).
Proof.
  set (g0 := Demo.after (require (Z.lor sourceIsSetUp sourceExistsLocally)
                           Demo.newcomer)).
  assert (require (Z.lor sourceIsSetUp sourceExistsLocally) Demo.newcomer
          = Ret (0, None) g0) as Hreq0 by (vm_compute; reflexivity).
  assert (convertToRevision "v9.9.9" g0
          = Ret ("", Some (errNoSuchVersion "v9.9.9"))
                (Demo.after (exportVersionTo "v9.9.9" "/tmp/x" Demo.newcomer)))
    as Hmiss0 by (vm_compute; reflexivity).
  pose proof (exportVersionTo_order "v9.9.9" "/tmp/x" Demo.newcomer) as H0.
  rewrite Hreq0, Hmiss0 in H0. destruct H0 as [H0 Hcalls0].
  set (g1 := Demo.after (require (Z.lor sourceIsSetUp sourceExistsLocally) Demo.ready)).
  assert (require (Z.lor sourceIsSetUp sourceExistsLocally) Demo.ready = Ret (0, None) g1)
    as Hreq by (vm_compute; reflexivity).
  assert (convertToRevision "v9.9.9" g1
          = Ret ("", Some (errNoSuchVersion "v9.9.9"))
                (Demo.after (exportVersionTo "v9.9.9" "/tmp/x" Demo.ready))) as Hmiss
    by (vm_compute; reflexivity).
  assert (convertToRevision "v1.2.3" g1 = Ret ("abc123", None) g1) as Hhit
    by (vm_compute; reflexivity).
  pose proof (exportVersionTo_order "v9.9.9" "/tmp/x" Demo.ready) as H9.
  rewrite Hreq, Hmiss in H9. destruct H9 as [H9 Hcalls].
  pose proof (exportVersionTo_order "v1.2.3" "/tmp/x" Demo.ready) as H1.
  rewrite Hreq, Hhit in H1.
  destruct (H1 Demo.adapter ltac:(vm_compute; reflexivity)) as (err & g3 & _ & Hc3 & H3).
  split; [done|]. split; [done|]. split; [done|]. split; [exact Hcalls|].
  by exists err, g3.
Defined.

(** C1 (what the code does).  In the step of [sourceHasLatestVersionList]
    the condition on the error is the wrong way round.  A listing that
    succeeds (the adapter returns v1.2.3 at abc123) is not stored: the bit
    is set and the cache is as it was.  A listing that fails is stored,
    with flush, before the error is returned. *)
Theorem version_list_stored_on_failure_only :
  (Source.listVersions Demo.adapter Demo.remote = (Demo.upstream, None, Demo.remote) ∧
   ∃ g1, require (Z.lor sourceIsSetUp sourceHasLatestVersionList) Demo.plain
           = Ret (0, None) g1 ∧
         calls g1 = [ctListVersions] ∧
         hasState (srcState g1) sourceHasLatestVersionList = true ∧
         cache g1 = cache Demo.plain ∧
         Cache.toRevision (cache g1) "v1.2.3" = None) ∧
  (Source.listVersions Demo.adapter Demo.unlisted
     = ([], Some Demo.unreachable, Demo.unlisted) ∧
   ∃ g2, require (Z.lor sourceIsSetUp sourceHasLatestVersionList) Demo.stalled
           = Ret (sourceHasLatestVersionList, Some Demo.unreachable) g2 ∧
         calls g2 = [ctListVersions] ∧
         cache g2 = Cache.storeVersionMap [] true (cache Demo.stalled) ∧
         cache g2 ≠ cache Demo.stalled).
Proof.
  split.
  - split; [reflexivity|]. eexists. split; [vm_compute; reflexivity|].
    repeat split; vm_compute; reflexivity.
  - split; [reflexivity|]. eexists. split; [vm_compute; reflexivity|].
    repeat split; try (vm_compute; reflexivity).
    vm_compute. discriminate.
Qed.

(** ** More statements at work in the small world *)

Lemma require_satisfied_is_noop_witness :
  require (Z.lor sourceIsSetUp sourceHasLatestVersionList) Demo.ready
    = Ret (0, None) Demo.ready.
Proof.
  apply require_satisfied_is_noop.
  intros j Hj Hb. bits_of_constant j Hj Hb; vm_compute; reflexivity.
Defined.

Lemma require_success_then_noop_witness :
  stateIncl (Z.lor sourceIsSetUp sourceExistsLocally) (srcState Demo.local) ∧
  require sourceExistsLocally Demo.local = Ret (0, None) Demo.local.
Proof.
  destruct (require_success_then_noop (Z.lor sourceIsSetUp sourceExistsLocally)
              sourceExistsLocally Demo.plain 0 Demo.local) as (_ & H1 & H2).
  - vm_compute. reflexivity.
  - intros j Hj Hb. bits_of_constant j Hj Hb; vm_compute; reflexivity.
  - by split.
Defined.

Lemma syncLocal_clone_skips_fetch_witness :
  ∃ g', syncLocal Demo.ready = Ret None g' ∧
        calls g' = (calls Demo.ready ++ [ctSourceInit])%list ∧
        world g' = Bench.atHome ∧
        srcState g' = Z.lor (srcState Demo.ready)
                        (Z.lor sourceExistsLocally sourceHasLatestLocally) ∧
        cache g' = cache Demo.ready ∧ src g' = src Demo.ready.
Proof.
  apply (syncLocal_clone_skips_fetch Demo.ready Demo.adapter Demo.remote Bench.atHome);
    vm_compute; reflexivity.
Defined.

Lemma syncLocal_clone_failure_witness :
  syncLocal (Bench.setUpWith Demo.adapter Bench.cutOff)
    = Ret (Some (errFetchFailed "https://example.org/x/y" Demo.unreachable))
          (Demo.after (syncLocal (Bench.setUpWith Demo.adapter Bench.cutOff))) ∧
  srcState (Demo.after (syncLocal (Bench.setUpWith Demo.adapter Bench.cutOff)))
    = sourceIsSetUp.
Proof.
  destruct (syncLocal_clone_failure (Bench.setUpWith Demo.adapter Bench.cutOff)
              Demo.adapter Bench.cutOff tt Demo.unreachable
              (Demo.after (syncLocal (Bench.setUpWith Demo.adapter Bench.cutOff))))
    as (H1 & H2 & _); try (vm_compute; reflexivity).
  split; [exact H1|exact H2].
Defined.

Lemma checkExistence_local_clone_found_witness :
  checkExistence existsInCache (Bench.setUpWith Demo.adapter Bench.atHome)
    = Ret true (setSrcState (Z.lor sourceIsSetUp sourceExistsLocally)
                  (Bench.setUpWith Demo.adapter Bench.atHome)).
Proof.
  rewrite (checkExistence_local_clone_found (Bench.setUpWith Demo.adapter Bench.atHome)
             Demo.adapter Bench.atHome); try (vm_compute; reflexivity).
Defined.

Lemma checkExistence_upstream_answer_witness :
  ∃ g', checkExistence existsUpstream Demo.local = Ret true g' ∧
        calls g' = (calls Demo.local ++ [ctSourcePing])%list ∧
        world g' = world Demo.local ∧
        Z.testbit (srcState g') 1 = true ∧
        cache g' = cache Demo.local.
Proof.
  apply (checkExistence_upstream_answer Demo.local Demo.adapter true (world Demo.local));
    vm_compute; reflexivity.
Defined.

Lemma checkExistence_upstream_base_adapter_witness :
  ∃ g', checkExistence existsUpstream (Bench.setUpWith Bench.embedding Demo.remote)
          = Ret false g' ∧
        Z.testbit (srcState g') 1 = false.
Proof.
  apply (checkExistence_upstream_base_adapter
           (Bench.setUpWith Bench.embedding Demo.remote) Bench.embedding
           Bench.repository true Demo.remote); vm_compute; reflexivity.
Defined.

Lemma listPackages_cached_witness :
  ∃ pt g', listPackages "example.org/x" "v1.2.3" Demo.newcomer = Ret (pt, None) g' ∧
           listPackages "example.org/elsewhere" "v1.2.3" g' = Ret (pt, None) g'.
Proof.
  destruct (listPackages "example.org/x" "v1.2.3" Demo.newcomer)
    as [[pt [e|]] g'| |] eqn:E; try (vm_compute in E; discriminate E).
  exists pt, g'. split; [reflexivity|].
  apply (listPackages_cached "example.org/x" "v1.2.3" Demo.newcomer).
  - right. vm_compute. reflexivity.
  - exact E.
Defined.

Lemma convertToRevision_settles_witness :
  convertToRevision "v1.2.3" (Demo.after (convertToRevision "v1.2.3" Demo.newcomer))
    = Ret ("abc123", None) (Demo.after (convertToRevision "v1.2.3" Demo.newcomer)) ∧
  convertToRevision "v9.9.9" (Demo.after (convertToRevision "v9.9.9" Demo.newcomer))
    = Ret ("", Some (errNoSuchVersion "v9.9.9"))
          (Demo.after (convertToRevision "v9.9.9" Demo.newcomer)).
Proof.
  split.
  - apply (convertToRevision_settles "v1.2.3" Demo.newcomer "abc123" None);
      [vm_compute; reflexivity|reflexivity].
  - apply (convertToRevision_settles "v9.9.9" Demo.newcomer ""
             (Some (errNoSuchVersion "v9.9.9")));
      [vm_compute; reflexivity|discriminate|vm_compute; reflexivity].
Defined.

Lemma listVersions_then_authoritative_witness :
  convertToRevision "v9.9.9" (Demo.after (listVersions Demo.newcomer))
    = Ret ("", Some (errNoSuchVersion "v9.9.9"))
          (Demo.after (listVersions Demo.newcomer)) ∧
  ([] : list PairedVersion) = [].
Proof.
  split.
  - destruct (listVersions_then_authoritative Demo.newcomer
                [("v1.2.3", "abc123")] None
                (Demo.after (listVersions Demo.newcomer))) as [H _];
      [vm_compute; reflexivity|].
    destruct (H eq_refl) as (_ & _ & H3).
    apply H3. vm_compute. reflexivity.
  - destruct (listVersions_then_authoritative Demo.stalled []
                (Some Demo.unreachable) (Demo.after (listVersions Demo.stalled)))
      as [_ H]; [vm_compute; reflexivity|].
    apply H. discriminate.
Defined.

Lemma sourceURL_stable_witness :
  sourceURL (Demo.after (sourceURL Demo.newcomer))
    = Ret ("https://example.org/x/y", None) (Demo.after (sourceURL Demo.newcomer)).
Proof.
  apply (sourceURL_stable Demo.newcomer "https://example.org/x/y").
  vm_compute. reflexivity.
Defined.

Lemma errors_carry_zero_values_witness :
  ("" : Revision) = "" ∧ ([] : list PairedVersion) = [].
Proof.
  destruct (errors_carry_zero_values "example.org/x" "v9.9.9" Demo.analyzer
              Demo.newcomer (errNoSuchVersion "v9.9.9")) as (H1 & _).
  destruct (errors_carry_zero_values "example.org/x" "v1.2.3" Demo.analyzer
              Demo.stalled Demo.unreachable) as (_ & _ & _ & H4).
  split.
  - apply (H1 "" (Demo.after (convertToRevision "v9.9.9" Demo.newcomer))).
    vm_compute. reflexivity.
  - apply (H4 [] (Demo.after (listVersions Demo.stalled))).
    vm_compute. reflexivity.
Defined.

Lemma methods_never_panic_witness :
  ∃ g', runAll [opListVersions; opSyncLocal; opSourceURL;
                opConvertToRevision "v9.9.9";
                opRequire (Z.lor sourceIsSetUp sourceExistsLocally)]
          Demo.newcomer = Ret tt g' ∧
        wellFormed g' ∧ soundProbe (maybe g').
Proof.
  apply methods_never_panic.
  - intros H. vm_compute in H. discriminate H.
  - intros dir c sup w. cbn. destruct (Demo.online w && Demo.listing w); cbn.
    + intros _. eexists. reflexivity.
    + discriminate.
  - repeat constructor.
Defined.

Lemma revisionPresentIn_base_adapter_witness :
  ∃ g', revisionPresentIn "abc123" (Bench.setUpWith Bench.embedding Bench.atHome)
          = Ret (true, None) g' ∧
        revisionPresentIn "abc123" g' = Ret (true, None) g' ∧
        ∃ g'', revisionPresentIn "fffff" g' = Ret (false, None) g''.
Proof.
  eexists. split; [|split].
  - apply (revisionPresentIn_base_adapter "abc123"
             (Bench.setUpWith Bench.embedding Bench.atHome) 0
             (Demo.after (require (Z.lor sourceIsSetUp sourceExistsLocally)
                            (Bench.setUpWith Bench.embedding Bench.atHome)))
             Bench.embedding Bench.repository true Bench.atHome);
      vm_compute; reflexivity.
  - vm_compute. reflexivity.
  - eexists. vm_compute. reflexivity.
Defined.

Lemma syncLocal_fetches_existing_clone_witness :
  (∃ g', syncLocal (Bench.setUpWith Demo.adapter Bench.atHome) = Ret None g' ∧
         Z.testbit (srcState g') 4 = true) ∧
  (∃ e g', syncLocal (Bench.setUpWith Demo.adapter Bench.stranded)
             = Ret (Some e) g' ∧
           srcState g' = Z.lor sourceIsSetUp sourceExistsLocally).
Proof.
  split.
  - destruct (syncLocal_fetches_existing_clone
                (Bench.setUpWith Demo.adapter Bench.atHome) Demo.adapter
                Bench.atHome tt None
                (Demo.after (do ctSourceFetch tt
                   (errOnly (Source.updateLocal Demo.adapter))
                   (setSrcState (Z.lor sourceIsSetUp sourceExistsLocally)
                      (Bench.setUpWith Demo.adapter Bench.atHome)))))
      as (H & _); try (vm_compute; reflexivity).
    eexists. split; [exact H|]. vm_compute. reflexivity.
  - destruct (syncLocal_fetches_existing_clone
                (Bench.setUpWith Demo.adapter Bench.stranded) Demo.adapter
                Bench.stranded tt (Some Demo.unreachable)
                (Demo.after (do ctSourceFetch tt
                   (errOnly (Source.updateLocal Demo.adapter))
                   (setSrcState (Z.lor sourceIsSetUp sourceExistsLocally)
                      (Bench.setUpWith Demo.adapter Bench.stranded)))))
      as (H & _ & Hst); try (vm_compute; reflexivity).
    eexists _, _. split; [exact H|exact Hst].
Defined.

Lemma require_without_set_up_panics_witness :
  require (Z.lor sourceExistsLocally sourceHasLatestLocally) Demo.newcomer
    = Panic Demo.newcomer.
Proof.
  apply require_without_set_up_panics.
  - reflexivity.
  - vm_compute. split; [discriminate|reflexivity].
  - reflexivity.
  - intros H. specialize (H 2 ltac:(lia) eq_refl). vm_compute in H. discriminate H.
Defined.

Section CoordinatorAtWork.
Import Coordinator.

Lemma coordinator_never_misses_gateway_witness :
  is_Some (srcs Yard.evening !! "https://example.org/x/y") ∧
  crashed Yard.evening ≠ Some (noGatewayForURL "https://example.org/x/y" "example.org/x/y").
Proof.
  destruct (coordinator_never_misses_gateway Demo.superv "/cache"
              (Yard.rush ++ Yard.calm) Yard.evening) as [H1 H2].
  - vm_compute. reflexivity.
  - split; [|apply H2]. apply (H1 "example.org/x/y"). vm_compute. reflexivity.
Defined.

Lemma registered_gateway_serves_url_witness :
  ∃ g a, heap Yard.evening !! 0%nat = Some g ∧ src g = Some a ∧
         Source.upstreamURL a = "https://example.org/x/y" ∧
         Z.testbit (srcState g) 0 = true.
Proof.
  apply (registered_gateway_serves_url Demo.superv "/cache"
           (Yard.rush ++ Yard.calm) Yard.evening).
  - vm_compute. reflexivity.
  - vm_compute. reflexivity.
Defined.

Lemma coordinator_maps_only_grow_witness :
  registered Yard.evening "example.org/x/y" 0%nat.
Proof.
  destruct (coordinator_maps_only_grow Demo.superv "/cache" Yard.rush Yard.calm
              Yard.busy Yard.evening) as (_ & _ & H & _).
  - vm_compute. reflexivity.
  - vm_compute. reflexivity.
  - apply H. exists "https://example.org/x/y". split; vm_compute; reflexivity.
Defined.

Lemma same_source_same_gateway_witness :
  (0%nat = 0%nat) ∧ registered Yard.evening "example.org/x/y" 0%nat.
Proof.
  apply (same_source_same_gateway Demo.superv "/cache" (Yard.rush ++ Yard.calm)
           Yard.evening "example.org/x/y" "https://example.org/x/y").
  - vm_compute. reflexivity.
  - left. vm_compute. apply list_elem_of_here.
  - right. eexists 3%nat, _. split; [vm_compute; reflexivity|].
    split; [reflexivity|]. vm_compute. do 2 apply list_elem_of_further.
    apply list_elem_of_here.
  - vm_compute. reflexivity.
Defined.

Lemma one_set_up_per_name_witness : 6%nat = 6%nat.
Proof.
  eapply (one_set_up_per_name Demo.superv "/cache" (Yard.rush ++ Yard.calm)
            Yard.evening 6%nat 6%nat).
  - vm_compute. reflexivity.
  - vm_compute. reflexivity.
  - vm_compute. reflexivity.
  - exact I.
  - exact I.
  - reflexivity.
Defined.

Lemma channels_answered_once_witness :
  NoDup (sent Yard.evening).*1 ∧ (2%nat ∈ (sent Yard.evening).*1).
Proof.
  destruct (channels_answered_once Demo.superv "/cache" (Yard.rush ++ Yard.calm)
              Yard.evening) as [H1 H2].
  - vm_compute. reflexivity.
  - split; [exact H1|].
    destruct (H2 2%nat {| normalizedName := "example.org/x/y"; at_ := returned |})
      as [[H _]|[H _]]; [vm_compute; reflexivity|reflexivity|exact H|].
    exfalso. apply H. vm_compute. apply list_elem_of_further, list_elem_of_here.
Defined.

Lemma coordinator_never_stuck_witness :
  is_Some (fire (Yard.move 6%nat) Yard.evening) ∧
  ∃ c', fire (Yard.move 1%nat) Yard.busy = Some c' ∧ srcmut c' = false.
Proof.
  split.
  - destruct (coordinator_never_stuck Demo.superv "/cache" (Yard.rush ++ Yard.calm)
                Yard.evening 6%nat
                {| normalizedName := "example.org/late"; at_ := atDeduce |})
      as [H _]; try (vm_compute; reflexivity); [discriminate|].
    apply H. vm_compute. reflexivity.
  - destruct (coordinator_never_stuck Demo.superv "/cache" Yard.rush Yard.busy 3%nat
                {| normalizedName := "https://example.org/x/y"; at_ := atFold |})
      as [_ H]; try (vm_compute; reflexivity); [discriminate|].
    destruct H as (rc' & gr' & Hg & Hh & Hone & Hstep); [vm_compute; reflexivity|].
    assert (1%nat = rc') as <-.
    { apply (Hone 1%nat {| normalizedName := "example.org/x/y";
                           at_ := atReturn (gotGateway 0%nat) true |});
        [vm_compute; reflexivity|exact I]. }
    apply Hstep.
Defined.

End CoordinatorAtWork.
